(** * Falcon: LED waveform engine and narrative state machine

    A shallow embedding of [src/Falcon.cpp], an Arduino sketch that drives
    the LEDs of a Millennium Falcon model, and the properties of its
    specification checked against it.

    The sketch is written for the ATmega328 boards (its six LEDs sit on the
    PWM pins 3, 5, 6, 9, 10 and 11): [int] is 16 bits wide, [long] 32 bits,
    and [double] is the IEEE binary32 format.  Integers are modelled as [Z]
    with the wrap-around written out, floating-point numbers with the
    executable IEEE specification [SpecFloat] at precision 24. *)

From Stdlib Require Import ZArith List Bool Lia.
From Stdlib Require Import Floats.SpecFloat.
Import ListNotations.
Open Scope Z_scope.

(** ** Machine integers *)

Module C.

(** Conversion to an unsigned type of [w] bits. *)
Definition to_unsigned (w z : Z) : Z := z mod 2 ^ w.

(** Conversion to a signed type of [w] bits (two's complement). *)
Definition to_signed (w z : Z) : Z := (z + 2 ^ (w - 1)) mod 2 ^ w - 2 ^ (w - 1).

Definition to_int : Z -> Z := to_signed 16.
Definition to_uint : Z -> Z := to_unsigned 16.
Definition to_long : Z -> Z := to_signed 32.
Definition to_ulong : Z -> Z := to_unsigned 32.

Definition INT_MIN : Z := - 2 ^ 15.
Definition INT_MAX : Z := 2 ^ 15 - 1.

End C.

(** ** Floating point: [double] on the AVR is IEEE binary32 *)

Module F.

Definition prec : Z := 24.
Definition emax : Z := 128.

Definition double := spec_float.

Definition add : double -> double -> double := SFadd prec emax.
Definition sub : double -> double -> double := SFsub prec emax.
Definition mul : double -> double -> double := SFmul prec emax.
Definition div : double -> double -> double := SFdiv prec emax.
Definition ltb : double -> double -> bool := SFltb.

(** Conversion of an integer to [double]. *)
Definition of_Z (z : Z) : double := binary_normalize prec emax z 0 false.

(** The literals of the sketch. *)
Definition zero : double := S754_zero false.
Definition one : double := of_Z 1.
Definition two : double := of_Z 2.
Definition half : double := S754_finite false 8388608 (-24).

(** [M_PI], the binary32 number nearest to pi (0x40490FDB). *)
Definition M_PI : double := S754_finite false 13176795 (-22).

(** Truncation towards zero, the integer part a C conversion to an integer
    type keeps.  For a NaN or an infinity C leaves the conversion
    undefined; the model answers 0 there. *)
Definition trunc (x : double) : Z :=
  match x with
  | S754_finite s m (Zneg p) => cond_Zopp s (Zpos m / 2 ^ Zpos p)
  | S754_finite s m e => cond_Zopp s (Zpos m * 2 ^ e)
  | _ => 0
  end.

(** [int(x)]: outside the range of [int] C leaves the result undefined;
    the model wraps the truncation. *)
Definition to_int (x : double) : Z := C.to_int (trunc x).

End F.

(** ** A state monad for the effects of the sketch *)

Definition State (S A : Type) : Type := S -> A * S.

Definition ret {S A : Type} (a : A) : State S A := fun s => (a, s).

Definition bind {S A B : Type} (m : State S A) (k : A -> State S B) : State S B :=
  fun s => let (a, s') := m s in k a s'.

Declare Scope monad_scope.
Delimit Scope monad_scope with monad.
Notation "x <- m ;; k" := (bind m (fun x => k))
  (at level 61, m at next level, right associativity) : monad_scope.
Notation "m ;;; k" := (bind m (fun _ => k))
  (at level 61, right associativity) : monad_scope.
Open Scope monad_scope.

(** ** The Arduino environment

    What the sketch takes from the Arduino core: the millisecond clock, the
    pseudo-random generator, the PWM outputs and the [cos] of the C
    library. *)

Inductive Event : Type :=
  | PinMode (pin : Z)
  | AnalogWrite (pin value : Z)
  | Delay (ms : Z).

Record World : Type := mkWorld {
  clock : nat -> Z;          (* what the n-th call of millis() answers *)
  reads : nat;               (* calls of millis() so far *)
  entropy : nat -> Z;        (* what the n-th call of the raw generator answers *)
  draws : nat;               (* raw draws so far *)
  libm_cos : F.double -> F.double;
  trace : list Event         (* effects on the pins, latest first *)
}.

Module Arduino.

Definition emit (e : Event) : State World unit := fun w =>
  (tt, mkWorld (clock w) (reads w) (entropy w) (draws w) (libm_cos w) (e :: trace w)).

Definition pinMode (pin : Z) : State World unit := emit (PinMode pin).
Definition analogWrite (pin value : Z) : State World unit := emit (AnalogWrite pin value).
Definition delay (ms : Z) : State World unit := emit (Delay ms).

(** [millis()] answers an [unsigned long]. *)
Definition millis : State World Z := fun w =>
  (C.to_ulong (clock w (reads w)),
   mkWorld (clock w) (S (reads w)) (entropy w) (draws w) (libm_cos w) (trace w)).

(** The raw generator of the C library, [random()], answers a [long]
    between 0 and [RANDOM_MAX] = 2^31 - 1. *)
Definition random_raw : State World Z := fun w =>
  (entropy w (draws w) mod 2 ^ 31,
   mkWorld (clock w) (reads w) (entropy w) (S (draws w)) (libm_cos w) (trace w)).

(** [long random(long howbig)] of the Arduino core (WMath.cpp):
    [if (howbig == 0) return 0; return random() % howbig;] *)
Definition random (howbig : Z) : State World Z :=
  if howbig =? 0 then ret 0
  else r <- random_raw ;; ret (Z.rem r howbig).

(** [long random(long howsmall, long howbig)] of the Arduino core:
    [if (howsmall >= howbig) return howsmall;
     long diff = howbig - howsmall; return random(diff) + howsmall;] *)
Definition random2 (howsmall howbig : Z) : State World Z :=
  if howsmall >=? howbig then ret howsmall
  else
    let diff := C.to_long (howbig - howsmall) in
    r <- random diff ;; ret (C.to_long (r + howsmall)).

Definition cos (x : F.double) : State World F.double := fun w => (libm_cos w x, w).

End Arduino.

(** ** The seed of the generator

    [unsigned long generateRandomSeed()]: eight rounds of
    [seed = seed << 4 | (analogRead(i) & 0x0f)] on an [unsigned long];
    [analogRead] is what the analog inputs answer, an [int] each. *)
Definition generateRandomSeed (analogRead : Z -> Z) : Z :=
  fold_left (fun seed i =>
               Z.lor (C.to_ulong (Z.shiftl seed 4))
                     (C.to_ulong (Z.land (analogRead i) 15)))
            (map Z.of_nat (seq 0 8)) 0.

(** ** class Led *)

Module LedMode.
Inductive t : Type := on | off | ramp | sinusoid | flicker.
End LedMode.

Module Led.

Record t : Type := mk {
  pin : Z;
  period : Z;
  phase : Z;
  delay : Z;
  mode : LedMode.t;
  minBright : Z;
  maxBright : Z;
  startTime : Z;
  lastValue : Z
}.

(** [Led(int pn)] with the default member initialisers. *)
Definition new (pn : Z) : t := mk pn 1000 0 0 LedMode.sinusoid 0 255 0 0.

Definition set_mode (m : LedMode.t) (l : t) : t :=
  mk (pin l) (period l) (phase l) (delay l) m (minBright l) (maxBright l) (startTime l) (lastValue l).
Definition set_period (v : Z) (l : t) : t :=
  mk (pin l) v (phase l) (delay l) (mode l) (minBright l) (maxBright l) (startTime l) (lastValue l).
Definition set_phase (v : Z) (l : t) : t :=
  mk (pin l) (period l) v (delay l) (mode l) (minBright l) (maxBright l) (startTime l) (lastValue l).
Definition set_delay (v : Z) (l : t) : t :=
  mk (pin l) (period l) (phase l) v (mode l) (minBright l) (maxBright l) (startTime l) (lastValue l).
Definition set_minBright (v : Z) (l : t) : t :=
  mk (pin l) (period l) (phase l) (delay l) (mode l) v (maxBright l) (startTime l) (lastValue l).
Definition set_maxBright (v : Z) (l : t) : t :=
  mk (pin l) (period l) (phase l) (delay l) (mode l) (minBright l) v (startTime l) (lastValue l).
Definition set_startTime (v : Z) (l : t) : t :=
  mk (pin l) (period l) (phase l) (delay l) (mode l) (minBright l) (maxBright l) v (lastValue l).
Definition set_lastValue (v : Z) (l : t) : t :=
  mk (pin l) (period l) (phase l) (delay l) (mode l) (minBright l) (maxBright l) (startTime l) v.

(** [void init()] *)
Definition init (l : t) : State World t :=
  Arduino.pinMode (pin l) ;;;
  Arduino.analogWrite (pin l) 255 ;;;
  Arduino.delay 250 ;;;
  Arduino.analogWrite (pin l) 0 ;;;
  now <- Arduino.millis ;;
  ret (set_startTime now l).

(** [int delta = now - startTime - delay;] the subtraction is done in
    [unsigned long], the result converted to [int]. *)
Definition elapsed (now : Z) (l : t) : Z :=
  C.to_int (C.to_ulong (now - startTime l - C.to_ulong (delay l))).

(** The value of the waveform of the mode, the [switch] of [update]. *)
Definition waveform (delta : Z) (l : t) : State World Z :=
  match mode l with
  | LedMode.off => ret 0
  | LedMode.on => ret (maxBright l)
  | LedMode.ramp =>
      let v := F.div (F.mul F.one (F.of_Z (Z.min (period l) delta))) (F.of_Z (period l)) in
      ret (C.to_int (minBright l
                     + F.to_int (F.mul (F.of_Z (C.to_int (maxBright l - minBright l))) v)))
  | LedMode.sinusoid =>
      let t := F.div (F.mul F.one (F.of_Z (Z.rem (C.to_int (delta + phase l)) (period l))))
                     (F.of_Z (C.to_int (period l - 1))) in
      c <- Arduino.cos (F.mul (F.mul F.two F.M_PI) (F.sub t F.half)) ;;
      let v := F.div (F.add c F.one) F.two in
      ret (C.to_int (minBright l
                     + F.to_int (F.mul (F.of_Z (C.to_int (maxBright l - minBright l))) v)))
  | LedMode.flicker =>
      if Z.rem delta 29 =? 0
      then r <- Arduino.random2 (minBright l) (maxBright l) ;; ret (C.to_int r)
      else ret (lastValue l)
  end.

(** [auto p2 = period / 2.0; auto factor = (p2 - delta) / p2;] *)
Definition factor (delta : Z) (l : t) : F.double :=
  let p2 := F.div (F.of_Z (period l)) F.two in
  F.div (F.sub p2 (F.of_Z delta)) p2.

(** The cross-fade from the last value, applied while [factor > 0]. *)
Definition smooth (delta value : Z) (l : t) : Z :=
  let f := factor delta l in
  if F.ltb F.zero f
  then F.to_int (F.add (F.mul f (F.of_Z (lastValue l)))
                       (F.mul (F.sub F.one f) (F.of_Z value)))
  else value.

(** [void update(unsigned long now)] *)
Definition update (now : Z) (l : t) : State World t :=
  let delta := elapsed (C.to_ulong now) l in
  if delta <? 0 then ret l
  else
    raw <- waveform delta l ;;
    let value := smooth delta raw l in
    (if value =? lastValue l then ret tt else Arduino.analogWrite (pin l) value) ;;;
    ret (set_lastValue value l).

(** [void off()] *)
Definition off (l : t) : State World t :=
  let l := set_mode LedMode.off l in
  now <- Arduino.millis ;;
  let l := set_startTime now l in
  let l := set_lastValue 0 l in
  Arduino.analogWrite (pin l) (lastValue l) ;;;
  ret l.

(** [void on(int mx)] *)
Definition on (mx : Z) (l : t) : State World t :=
  let l := set_mode LedMode.on l in
  let l := set_maxBright mx l in
  let l := set_lastValue mx l in
  now <- Arduino.millis ;;
  let l := set_startTime now l in
  Arduino.analogWrite (pin l) (lastValue l) ;;;
  ret l.

(** [void rampTo(int mx, int pd, int d = 0)] *)
Definition rampTo (mx pd d : Z) (l : t) : State World t :=
  let l := set_mode LedMode.ramp l in
  let l := set_minBright (lastValue l) l in
  let l := set_maxBright mx l in
  let l := set_period pd l in
  let l := set_delay d l in
  now <- Arduino.millis ;;
  let l := set_startTime now l in
  now' <- Arduino.millis ;;
  update now' l.

(** [void startSinusoid(int pd, int mn, int mx, int ph = 0)] *)
Definition startSinusoid (pd mn mx ph : Z) (l : t) : State World t :=
  let l := set_mode LedMode.sinusoid l in
  let l := set_minBright mn l in
  let l := set_maxBright mx l in
  let l := set_period pd l in
  let l := set_phase ph l in
  now <- Arduino.millis ;;
  let l := set_startTime now l in
  now' <- Arduino.millis ;;
  update now' l.

(** [void startFlicker(int mn, int mx, int d)] *)
Definition startFlicker (mn mx d : Z) (l : t) : State World t :=
  let l := set_mode LedMode.flicker l in
  let l := set_minBright mn l in
  let l := set_maxBright mx l in
  let l := set_delay d l in
  ret l.

End Led.

(** ** class Engine: three LEDs behind one thruster *)

Module EngineState.
Inductive t : Type :=
  off | idling | fullPower | failing | rampingUp | rampingDown | landing.
End EngineState.

Module Engine.

Record t : Type := mk {
  engineState : EngineState.t;
  led1 : Led.t;
  led2 : Led.t;
  led3 : Led.t
}.

(** [Engine() : led1(9), led2(10), led3(11)] *)
Definition new : t := mk EngineState.idling (Led.new 9) (Led.new 10) (Led.new 11).

(** Run one operation on each of the three LEDs, in the order of the source. *)
Definition each (f1 f2 f3 : Led.t -> State World Led.t) (e : t) : State World t :=
  l1 <- f1 (led1 e) ;;
  l2 <- f2 (led2 e) ;;
  l3 <- f3 (led3 e) ;;
  ret (mk (engineState e) l1 l2 l3).

(** [void setup()] *)
Definition setup (e : t) : State World t := each Led.init Led.init Led.init e.

(** [void newState(EngineState state)]; [/] on [int] truncates towards 0. *)
Definition newState (state : EngineState.t) (e : t) : State World t :=
  let e := mk state (led1 e) (led2 e) (led3 e) in
  match state with
  | EngineState.off => each Led.off Led.off Led.off e
  | EngineState.idling =>
      let period := 2000 in
      each (Led.startSinusoid period 10 40 0)
           (Led.startSinusoid period 10 40 (Z.quot period 3))
           (Led.startSinusoid period 10 40 (Z.quot (- period) 3)) e
  | EngineState.fullPower =>
      let period := 60 in
      each (Led.startSinusoid period 200 255 0)
           (Led.startSinusoid period 200 255 (Z.quot period 3))
           (Led.startSinusoid period 200 255 (Z.quot (- period) 3)) e
  | EngineState.failing =>
      each (Led.startFlicker 64 128 0)
           (Led.startFlicker 0 64 0)
           (Led.startSinusoid 1000 64 170 0) e
  | EngineState.rampingUp =>
      each (Led.rampTo 220 6000 0) (Led.rampTo 220 6000 0) (Led.rampTo 220 6000 0) e
  | EngineState.rampingDown =>
      each (Led.rampTo 0 2000 0) (Led.rampTo 0 2000 0) (Led.rampTo 0 2000 0) e
  | EngineState.landing =>
      each (Led.rampTo 25 4000 0) (Led.rampTo 25 4000 0) (Led.rampTo 25 4000 0) e
  end.

(** [void loop(unsigned int now)]: the time is cut to 16 bits on entry. *)
Definition loop (now : Z) (e : t) : State World t :=
  let now := C.to_uint now in
  each (Led.update now) (Led.update now) (Led.update now) e.

End Engine.

(** ** The narrative state machine *)

Inductive FalconState : Type :=
  | OnGround
  | PrepareForFlight
  | FailingStart
  | Failing
  | EmergencyShutdown
  | Restarting
  | InFlight
  | Landing.

Record NextState : Type := mkNextState {
  timeToSwitch : Z;
  next : FalconState
}.

(** The global variables of the sketch. *)
Record Sketch : Type := mkSketch {
  engine : Engine.t;
  cockpit : Led.t;
  headlights : Led.t;
  landingLights : Led.t;
  stateStartTime : Z;
  falconState : FalconState;
  nextState : NextState;
  lastStartFailed : bool
}.

(** The globals as the sketch declares them. *)
Definition initial : Sketch :=
  mkSketch Engine.new (Led.new 3) (Led.new 5) (Led.new 6) 0 OnGround
           (mkNextState 0 OnGround) false.

(** A program of the sketch works on its globals and on the environment. *)
Definition Prog (A : Type) : Type := State (Sketch * World) A.

Definition lift {A : Type} (m : State World A) : Prog A := fun s =>
  let (a, w) := m (snd s) in (a, (fst s, w)).

Definition get {A : Type} (f : Sketch -> A) : Prog A := fun s => (f (fst s), s).

Definition modify (f : Sketch -> Sketch) : Prog unit := fun s => (tt, (f (fst s), snd s)).

Definition set_engine (v : Engine.t) (g : Sketch) : Sketch :=
  mkSketch v (cockpit g) (headlights g) (landingLights g) (stateStartTime g)
           (falconState g) (nextState g) (lastStartFailed g).
Definition set_cockpit (v : Led.t) (g : Sketch) : Sketch :=
  mkSketch (engine g) v (headlights g) (landingLights g) (stateStartTime g)
           (falconState g) (nextState g) (lastStartFailed g).
Definition set_headlights (v : Led.t) (g : Sketch) : Sketch :=
  mkSketch (engine g) (cockpit g) v (landingLights g) (stateStartTime g)
           (falconState g) (nextState g) (lastStartFailed g).
Definition set_landingLights (v : Led.t) (g : Sketch) : Sketch :=
  mkSketch (engine g) (cockpit g) (headlights g) v (stateStartTime g)
           (falconState g) (nextState g) (lastStartFailed g).
Definition set_stateStartTime (v : Z) (g : Sketch) : Sketch :=
  mkSketch (engine g) (cockpit g) (headlights g) (landingLights g) v
           (falconState g) (nextState g) (lastStartFailed g).
Definition set_falconState (v : FalconState) (g : Sketch) : Sketch :=
  mkSketch (engine g) (cockpit g) (headlights g) (landingLights g) (stateStartTime g)
           v (nextState g) (lastStartFailed g).
Definition set_nextState (v : NextState) (g : Sketch) : Sketch :=
  mkSketch (engine g) (cockpit g) (headlights g) (landingLights g) (stateStartTime g)
           (falconState g) v (lastStartFailed g).
Definition set_lastStartFailed (v : bool) (g : Sketch) : Sketch :=
  mkSketch (engine g) (cockpit g) (headlights g) (landingLights g) (stateStartTime g)
           (falconState g) (nextState g) v.

(** A method call on one of the global objects. *)
Definition call {T : Type} (rd : Sketch -> T) (wr : T -> Sketch -> Sketch)
    (method : T -> State World T) : Prog unit :=
  obj <- get rd ;;
  obj' <- lift (method obj) ;;
  modify (wr obj').

Definition on_cockpit := call cockpit set_cockpit.
Definition on_headlights := call headlights set_headlights.
Definition on_landingLights := call landingLights set_landingLights.
Definition on_engine := call engine set_engine.

(** [lastStartFailed = !lastStartFailed && random(1024%4) == 0;]
    [&&] evaluates its right operand only when the left one holds. *)
Definition drawStartFailure : Prog unit :=
  failed <- get lastStartFailed ;;
  b <- (if negb failed
        then r <- lift (Arduino.random (Z.rem 1024 4)) ;; ret (r =? 0)
        else ret false) ;;
  modify (set_lastStartFailed b).

(** [NextState nextFalconState(FalconState state)] *)
Definition nextFalconState (state : FalconState) : Prog NextState :=
  modify (set_falconState state) ;;;
  match state with
  | OnGround =>
      on_cockpit (Led.rampTo 255 250 0) ;;;
      on_headlights (Led.rampTo 0 1000 0) ;;;
      on_landingLights (Led.rampTo 255 1000 1000) ;;;
      on_engine (Engine.newState EngineState.idling) ;;;
      drawStartFailure ;;;
      t <- lift (Arduino.random2 5000 20000) ;;
      failed <- get lastStartFailed ;;
      ret (mkNextState t (if failed then FailingStart else PrepareForFlight))
  | PrepareForFlight =>
      on_cockpit (Led.rampTo 64 3000 2000) ;;;
      on_headlights (Led.rampTo 255 500 1400) ;;;
      on_landingLights (Led.rampTo 0 1500 0) ;;;
      on_engine (Engine.newState EngineState.rampingUp) ;;;
      ret (mkNextState 6000 InFlight)
  | FailingStart =>
      on_cockpit (Led.rampTo 64 3000 2000) ;;;
      on_headlights (Led.rampTo 255 500 1400) ;;;
      on_landingLights (Led.rampTo 0 1500 0) ;;;
      on_engine (Engine.newState EngineState.rampingUp) ;;;
      t <- lift (Arduino.random2 2000 4000) ;;
      ret (mkNextState t Failing)
  | Failing =>
      d1 <- lift (Arduino.random2 100 1500) ;;
      on_cockpit (Led.startFlicker 0 128 (C.to_int d1)) ;;;
      d2 <- lift (Arduino.random2 1000 2000) ;;
      on_headlights (Led.startFlicker 0 32 (C.to_int d2)) ;;;
      d3 <- lift (Arduino.random2 100 2000) ;;
      on_landingLights (Led.startFlicker 32 128 (C.to_int d3)) ;;;
      on_engine (Engine.newState EngineState.failing) ;;;
      t <- lift (Arduino.random2 1000 2000) ;;
      ret (mkNextState t EmergencyShutdown)
  | EmergencyShutdown =>
      on_headlights (Led.rampTo 0 750 0) ;;;
      on_cockpit (Led.rampTo 0 250 750) ;;;
      on_landingLights (Led.rampTo 0 500 0) ;;;
      on_engine (Engine.newState EngineState.rampingDown) ;;;
      ret (mkNextState 5000 Restarting)
  | Restarting =>
      on_headlights Led.off ;;;
      on_cockpit (Led.rampTo 255 750 0) ;;;
      on_landingLights (Led.rampTo 255 1500 2000) ;;;
      on_engine (Engine.newState EngineState.off) ;;;
      ret (mkNextState 4000 OnGround)
  | InFlight =>
      on_cockpit (Led.rampTo 64 250 0) ;;;
      on_headlights (Led.rampTo 255 500 0) ;;;
      on_landingLights (Led.rampTo 0 500 0) ;;;
      on_engine (Engine.newState EngineState.fullPower) ;;;
      t <- lift (Arduino.random2 10000 20000) ;;
      ret (mkNextState t Landing)
  | Landing =>
      on_cockpit (Led.rampTo 200 500 0) ;;;
      on_landingLights (Led.rampTo 255 1500 1500) ;;;
      on_headlights (Led.rampTo 0 2000 1500) ;;;
      on_engine (Engine.newState EngineState.landing) ;;;
      ret (mkNextState 4000 OnGround)
  end.

(** The narrative from [state] on: [n] transitions, each one entering the
    state the one before returned, as [loop] does when a dwell time is over. *)
Fixpoint narrative (n : nat) (state : FalconState) : Prog FalconState :=
  match n with
  | O => ret state
  | S k => ns <- nextFalconState state ;; narrative k (next ns)
  end.

(** Enter the given states one after the other. *)
Fixpoint visit (states : list FalconState) : Prog unit :=
  match states with
  | [] => ret tt
  | st :: rest => nextFalconState st ;;; visit rest
  end.

(** [void loop()]: [now] and [stateStartTime] are [unsigned int], their
    difference is compared with the [long] dwell time. *)
Definition loop : Prog unit :=
  t <- lift Arduino.millis ;;
  let now := C.to_uint t in
  start <- get stateStartTime ;;
  ns <- get nextState ;;
  (if timeToSwitch ns <? C.to_uint (now - start)
   then modify (set_stateStartTime now) ;;;
        ns' <- nextFalconState (next ns) ;;
        modify (set_nextState ns')
   else ret tt) ;;;
  on_engine (Engine.loop now) ;;;
  on_cockpit (Led.update now) ;;;
  on_headlights (Led.update now) ;;;
  on_landingLights (Led.update now).

(** [void setup()].  The seed [generateRandomSeed()] gathers from the analog
    inputs is not modelled: [entropy] stands for the generator under any seed. *)
Definition setup : Prog unit :=
  on_engine Engine.setup ;;;
  on_cockpit Led.init ;;;
  on_headlights Led.init ;;;
  on_landingLights Led.init ;;;
  on_cockpit (Led.on 255) ;;;
  on_headlights Led.off ;;;
  on_landingLights (Led.on 255) ;;;
  t <- lift Arduino.millis ;;
  modify (set_stateStartTime (C.to_uint t)) ;;;
  ns <- nextFalconState OnGround ;;
  modify (set_nextState ns).

(** * Definitions for the statements *)

(** ** Programs *)

(** A Hoare triple over the state monad: from a state in [P] the program
    answers a value and a state in [Q]. *)
Definition hoare {S A : Type} (P : S -> Prop) (m : State S A) (Q : A -> S -> Prop) : Prop :=
  forall s, P s -> Q (fst (m s)) (snd (m s)).

(** The global [lastStartFailed] in a state of the sketch. *)
Definition flag (s : Sketch * World) : bool := lastStartFailed (fst s).

(** A program that leaves [lastStartFailed] as it found it. *)
Definition keeps_flag {A : Type} (m : Prog A) : Prop :=
  forall b, hoare (fun s => flag s = b) m (fun _ s => flag s = b).

(** ** The clock and the outputs around a mode-setting operation *)

(** The time the next call of [millis()] answers. *)
Definition time_now (w : World) : Z := C.to_ulong (clock w (reads w)).

(** The world after one read of the clock. *)
Definition after_read (w : World) : World := snd (Arduino.millis w).

(** When both reads of the clock in [rampTo] and [startSinusoid] fall in the
    same millisecond, their own [update] runs at the activation instant. *)
Definition same_millisecond (w : World) : Prop :=
  clock w (S (reads w)) = clock w (reads w).

(** What a mode-setting operation leaves: the output it stored and the
    writes to the pins it added. *)
Definition output (r : Led.t * World) : Z := Led.lastValue (fst r).

(** The events on the pins so far, latest first. *)
Definition written (r : Led.t * World) : list Event := trace (snd r).

(** The call of [update] at the activation time, right after a mode-setting
    operation returned [r]. *)
Definition recompute_at_activation (r : Led.t * World) : Led.t * World :=
  Led.update (Led.startTime (fst r)) (fst r) (snd r).

(** ** The cycle of the sinusoid *)

(** The sinusoid at the point [r = (delta + phase) % period] of its cycle. *)
Definition sinusoid_at (w : World) (l : Led.t) (r : Z) : Z :=
  let t := F.div (F.mul F.one (F.of_Z r)) (F.of_Z (C.to_int (Led.period l - 1))) in
  let c := libm_cos w (F.mul (F.mul F.two F.M_PI) (F.sub t F.half)) in
  let v := F.div (F.add c F.one) F.two in
  C.to_int (Led.minBright l
            + F.to_int (F.mul (F.of_Z (C.to_int (Led.maxBright l - Led.minBright l))) v)).

(** The point of the cycle a call of [update] falls on. *)
Definition point (now : Z) (l : Led.t) : Z :=
  Z.rem (C.to_int (Led.elapsed (C.to_ulong now) l + Led.phase l)) (Led.period l).

(** The cross-fade into the mode is over. *)
Definition after_fade (now : Z) (l : Led.t) : Prop :=
  0 <= Led.elapsed (C.to_ulong now) l /\ Led.period l <= 2 * Led.elapsed (C.to_ulong now) l.

(** The argument [2 * M_PI * (0 - 0.5)] of [cos] at the start of a cycle. *)
Definition minus_pi : F.double := F.mul (F.mul F.two F.M_PI) (F.sub F.zero F.half).

(** ** Floating-point numbers by sign and magnitude *)

(** The shift [binary_round_aux] applies to a mantissa [mx] at exponent [ex]. *)
Definition shift_of (mx ex : Z) : Z :=
  Z.max 0 (fexp F.prec F.emax (Zdigits2 mx + ex) - ex).

(** The scale of the magnitudes: the number 1 is written [2 ^ 298]. *)
Definition unity : Z := 2 ^ 298.

(** [x] is a zero or a finite number of sign [sx], and [|x| * unity <= T]. *)
Definition within (sx : bool) (T : Z) (x : F.double) : Prop :=
  match x with
  | S754_zero s => s = sx
  | S754_finite s m e => s = sx /\ -149 <= e <= 104 /\ Zpos m * 2 ^ (e + 298) <= T
  | _ => False
  end.

(** [|x| * unity] for a finite [x] (0 for the others). *)
Definition mag (x : F.double) : Z :=
  match x with
  | S754_finite _ m e => Zpos m * 2 ^ (e + 298)
  | _ => 0
  end.

(** [x] is a zero or a finite number, of sign [sx]. *)
Definition signed (sx : bool) (x : F.double) : Prop :=
  match x with
  | S754_zero s => s = sx
  | S754_finite s m e => s = sx /\ -149 <= e <= 104
  | _ => False
  end.

(** A number that is not greater than 0 (or not a number). *)
Definition not_positive (x : F.double) : Prop :=
  match x with
  | S754_zero _ | S754_nan => True
  | S754_finite s _ _ | S754_infinity s => s = true
  end.

(** The [cos] of the C library answers a number between -1 and 1 for every
    finite argument. *)
Definition cos_bounded (w : World) : Prop :=
  forall (x : F.double) (s : bool), signed s x ->
    exists s', signed s' (libm_cos w x) /\ mag (libm_cos w x) <= unity.

(** ** Worlds to run the sketch in *)

(** A world to run the sketch in: the clock advances by one millisecond at
    each reading, every raw draw of the generator is 1 (so [random() % 4] is
    never 0), and the constant 1 stands in for [cos]. *)
Definition sample_world : World :=
  mkWorld (fun n => 1000 + Z.of_nat n) 0 (fun _ => 1) 0 (fun _ => F.one) [].

(** A world whose clock stands still. *)
Definition still_world : World :=
  mkWorld (fun _ => 1000) 0 (fun _ => 1) 0 (fun _ => F.one) [].

(** The binary32 values nearest to the cosine at the arguments the
    examples reach: 0.0015714 (period 2000, point 1000), -4.7390 and 1.6507
    (period 60, points -15 and 45), 0.053247 (period 60, point 30), -pi
    and 0. *)
Definition cos_table (x : F.double) : F.double :=
  match x with
  | S754_finite false 13498494 (-33) => S754_finite false 16777195 (-24)
  | S754_finite true 9938430 (-21) => S754_finite false 14291822 (-29)
  | S754_finite false 13846802 (-23) => S754_finite true 10708724 (-27)
  | S754_finite false 14293493 (-28) => S754_finite false 16753438 (-24)
  | S754_finite true 13176795 (-22) => S754_finite true 8388608 (-23)
  | S754_zero _ => F.one
  | _ => S754_nan
  end.

(** A world whose [cos] is that table. *)
Definition table_world : World :=
  mkWorld (fun n => 1000 + Z.of_nat n) 0 (fun _ => 1) 0 cos_table [].

(** ** The pins and the range of the PWM output *)

(** A value the PWM output takes. *)
Definition pwm_ok (e : Event) : Prop :=
  match e with
  | AnalogWrite _ v => 0 <= v <= 255
  | _ => True
  end.

(** An event on the pin [p] (a pause is on no pin). *)
Definition on_pin (p : Z) (e : Event) : Prop :=
  match e with
  | AnalogWrite q _ | PinMode q => q = p
  | Delay _ => True
  end.

(** The value the pin [p] shows: the latest one written to it. *)
Fixpoint shown (p : Z) (tr : list Event) : option Z :=
  match tr with
  | [] => None
  | AnalogWrite q v :: rest => if q =? p then Some v else shown p rest
  | _ :: rest => shown p rest
  end.

(** [lastValue] is what the pin of the LED shows. *)
Definition in_sync (l : Led.t) (w : World) : Prop :=
  shown (Led.pin l) (trace w) = Some (Led.lastValue l).

(** From [w] to [w'] there were events on the pin [p] only, and [cos] is
    the same. *)
Definition own_pin (p : Z) (w w' : World) : Prop :=
  libm_cos w' = libm_cos w
  /\ exists evs, trace w' = evs ++ trace w /\ Forall (on_pin p) evs.

(** An operation of [Led] that keeps the pin of the LED, touches no other
    pin and keeps [lastValue] what the pin shows. *)
Definition tracks (m : Led.t -> State World Led.t) : Prop :=
  forall (l : Led.t) (w : World),
    Led.pin (fst (m l w)) = Led.pin l
    /\ own_pin (Led.pin l) w (snd (m l w))
    /\ (in_sync l w -> in_sync (fst (m l w)) (snd (m l w))).

(** An LED within the range of the PWM output. *)
Definition led_ok (l : Led.t) : Prop :=
  0 < Led.period l <= C.INT_MAX
  /\ 0 <= Led.minBright l <= 255 /\ 0 <= Led.maxBright l <= 255
  /\ 0 <= Led.lastValue l <= 255
  /\ (Led.mode l = LedMode.sinusoid -> 1 < Led.period l).

(** Every value written so far is within the range of the PWM output. *)
Definition safe (w : World) : Prop := Forall pwm_ok (trace w).

(** An operation of [Led] that keeps the LED and the values written within
    the range of the PWM output. *)
Definition in_range (m : Led.t -> State World Led.t) : Prop :=
  forall (l : Led.t) (w : World),
    led_ok l -> cos_bounded w ->
    led_ok (fst (m l w)) /\ (safe w -> safe (snd (m l w))).

(** ** The sketch as a whole *)

(** [main()] of the Arduino core calls [setup()] once and [loop()] for
    ever; [rounds n] is the first [n] calls of [loop()]. *)
Fixpoint rounds (n : nat) : Prog unit :=
  match n with
  | O => ret tt
  | S k => loop ;;; rounds k
  end.

(** The sketch from power-up through [n] rounds of [loop()]. *)
Definition sketch (n : nat) : Prog unit := setup ;;; rounds n.

(** From [w] to [w'] there were events on pins in [P] only, and [cos] is
    the same. *)
Definition touches (P : Z -> Prop) (w w' : World) : Prop :=
  libm_cos w' = libm_cos w
  /\ exists evs, trace w' = evs ++ trace w
                 /\ Forall (fun e => exists p, P p /\ on_pin p e) evs.

(** The LED on pin [k]: within the PWM range, and either in step with its
    pin or, before [init], with [lastValue] at 0. *)
Definition led_state (synced : bool) (k : Z) (l : Led.t) (w : World) : Prop :=
  Led.pin l = k /\ led_ok l
  /\ (if synced then in_sync l w else Led.lastValue l = 0).

(** An operation that takes an LED from one such state to another, on
    its own pin and within the PWM range. *)
Definition led_step (b b' : bool) (m : Led.t -> State World Led.t) : Prop :=
  forall (k : Z) (l : Led.t) (w : World),
    led_state b k l w -> cos_bounded w -> safe w ->
    led_state b' k (fst (m l w)) (snd (m l w))
    /\ safe (snd (m l w))
    /\ own_pin k w (snd (m l w)).

(** The three LEDs of the engine, on the pins 9, 10 and 11. *)
Definition engine_state (b : bool) (e : Engine.t) (w : World) : Prop :=
  led_state b 9 (Engine.led1 e) w
  /\ led_state b 10 (Engine.led2 e) w
  /\ led_state b 11 (Engine.led3 e) w.

Definition engine_pin (p : Z) : Prop := p = 9 \/ p = 10 \/ p = 11.

(** An operation of the engine, on its three pins. *)
Definition engine_step (b b' : bool) (m : Engine.t -> State World Engine.t) : Prop :=
  forall (e : Engine.t) (w : World),
    engine_state b e w -> cos_bounded w -> safe w ->
    engine_state b' (fst (m e w)) (snd (m e w))
    /\ safe (snd (m e w))
    /\ touches engine_pin w (snd (m e w)).

(** The six LEDs of the sketch and the environment. *)
Definition sketch_inv (be bc bh bl : bool) (s : Sketch * World) : Prop :=
  cos_bounded (snd s) /\ safe (snd s)
  /\ engine_state be (engine (fst s)) (snd s)
  /\ led_state bc 3 (cockpit (fst s)) (snd s)
  /\ led_state bh 5 (headlights (fst s)) (snd s)
  /\ led_state bl 6 (landingLights (fst s)) (snd s).

(** A function on the globals that leaves the LEDs alone. *)
Definition keeps_leds (f : Sketch -> Sketch) : Prop :=
  forall g, engine (f g) = engine g /\ cockpit (f g) = cockpit g
            /\ headlights (f g) = headlights g /\ landingLights (f g) = landingLights g.

(** An operation of the environment that writes to no pin. *)
Definition quiet {A : Type} (m : State World A) : Prop :=
  forall w, trace (snd (m w)) = trace w /\ libm_cos (snd (m w)) = libm_cos w.

(** ** The narrative between the transitions *)

(** A program that leaves the part [f] of the globals as it found it. *)
Definition keeps {A B : Type} (f : Sketch -> B) (m : Prog A) : Prop :=
  forall s, f (fst (snd (m s))) = f (fst s).

(** How long the narrative stays in a state, in milliseconds. *)
Definition dwell (st : FalconState) (t : Z) : Prop :=
  match st with
  | OnGround => 5000 <= t < 20000
  | PrepareForFlight => t = 6000
  | FailingStart => 2000 <= t < 4000
  | Failing => 1000 <= t < 2000
  | EmergencyShutdown => t = 5000
  | Restarting => t = 4000
  | InFlight => 10000 <= t < 20000
  | Landing => t = 4000
  end.

(** The parts of the globals the LEDs are no part of. *)
Definition narrative_part (g : Sketch) : Z * FalconState * NextState * bool :=
  (stateStartTime g, falconState g, nextState g, lastStartFailed g).

(** ** The time spent waiting *)

(** The time spent in [delay()] so far, in milliseconds. *)
Fixpoint waited (tr : list Event) : Z :=
  match tr with
  | [] => 0
  | Delay ms :: rest => ms + waited rest
  | _ :: rest => waited rest
  end.

(** An operation of the environment or of an object that waits [c]
    milliseconds. *)
Definition waits {A : Type} (c : Z) (m : State World A) : Prop :=
  forall w, waited (trace (snd (m w))) = waited (trace w) + c.

(** A program of the sketch that waits [c] milliseconds. *)
Definition blocks {A : Type} (c : Z) (m : Prog A) : Prop :=
  forall s, waited (trace (snd (snd (m s)))) = waited (trace (snd s)) + c.

(** * Reasoning about programs *)

Lemma hoare_ret {S A : Type} (P : S -> Prop) (Q : A -> S -> Prop) (a : A) :
  (forall s, P s -> Q a s) -> hoare P (ret a) Q.
Proof. intros H s Hs. now apply H. Qed.

Lemma hoare_bind {S A B : Type} (P : S -> Prop) (R : A -> S -> Prop) (Q : B -> S -> Prop)
    (m : State S A) (k : A -> State S B) :
  hoare P m R -> (forall a, hoare (R a) (k a) Q) -> hoare P (bind m k) Q.
Proof.
  intros Hm Hk s Hs. unfold bind.
  specialize (Hm s Hs). destruct (m s) as [a s']. now apply Hk.
Qed.

Lemma hoare_weaken {S A : Type} (P P' : S -> Prop) (Q Q' : A -> S -> Prop) (m : State S A) :
  hoare P' m Q' -> (forall s, P s -> P' s) -> (forall a s, Q' a s -> Q a s) -> hoare P m Q.
Proof. intros H HP HQ s Hs. apply HQ, H, HP, Hs. Qed.

Lemma bind_run {S A B : Type} (m : State S A) (k : A -> State S B) (s : S) :
  bind m k s = k (fst (m s)) (snd (m s)).
Proof. unfold bind. now destruct (m s). Qed.

(** ** The start-failure flag through the narrative *)

Lemma keeps_flag_ret {A : Type} (a : A) : keeps_flag (ret a).
Proof. intros b s Hs. exact Hs. Qed.

Lemma keeps_flag_bind {A B : Type} (m : Prog A) (k : A -> Prog B) :
  keeps_flag m -> (forall a, keeps_flag (k a)) -> keeps_flag (bind m k).
Proof.
  intros Hm Hk b. eapply hoare_bind; [apply Hm|]. intros a. apply Hk.
Qed.

Lemma keeps_flag_lift {A : Type} (m : State World A) : keeps_flag (lift m).
Proof.
  intros b [g w] Hs. unfold lift, flag in *. cbn [fst snd] in *.
  now destruct (m w).
Qed.

Lemma keeps_flag_get {A : Type} (f : Sketch -> A) : keeps_flag (get f).
Proof. intros b s Hs. exact Hs. Qed.

Lemma keeps_flag_modify (f : Sketch -> Sketch) :
  (forall g, lastStartFailed (f g) = lastStartFailed g) -> keeps_flag (modify f).
Proof. intros Hf b [g w] Hs. unfold modify, flag in *. cbn [fst snd] in *. now rewrite Hf. Qed.

Lemma keeps_flag_call {T : Type} (rd : Sketch -> T) (wr : T -> Sketch -> Sketch)
    (method : T -> State World T) :
  (forall v g, lastStartFailed (wr v g) = lastStartFailed g) ->
  keeps_flag (call rd wr method).
Proof.
  intros Hwr. unfold call.
  apply keeps_flag_bind; [apply keeps_flag_get|]. intros obj.
  apply keeps_flag_bind; [apply keeps_flag_lift|]. intros obj'.
  apply keeps_flag_modify. intros g. apply Hwr.
Qed.

Create HintDb falcon.
#[local] Hint Resolve keeps_flag_ret keeps_flag_lift keeps_flag_get : falcon.

Lemma keeps_flag_on_cockpit f : keeps_flag (on_cockpit f).
Proof. now apply keeps_flag_call. Qed.
Lemma keeps_flag_on_headlights f : keeps_flag (on_headlights f).
Proof. now apply keeps_flag_call. Qed.
Lemma keeps_flag_on_landingLights f : keeps_flag (on_landingLights f).
Proof. now apply keeps_flag_call. Qed.
Lemma keeps_flag_on_engine f : keeps_flag (on_engine f).
Proof. now apply keeps_flag_call. Qed.
Lemma keeps_flag_set_falconState st : keeps_flag (modify (set_falconState st)).
Proof. now apply keeps_flag_modify. Qed.

#[local] Hint Resolve keeps_flag_on_cockpit keeps_flag_on_headlights
  keeps_flag_on_landingLights keeps_flag_on_engine keeps_flag_set_falconState : falcon.

Ltac flag_steps :=
  repeat first
    [ apply keeps_flag_bind; [solve [auto with falcon] | intros ?]
    | solve [auto with falcon] ].

(** Only the transition of [OnGround] writes the flag. *)
Lemma nextFalconState_keeps_flag (st : FalconState) :
  st <> OnGround -> keeps_flag (nextFalconState st).
Proof.
  intros Hst. destruct st; try congruence; unfold nextFalconState; flag_steps.
Qed.

(** [random(1024 % 4)] is [random(0)]: it answers 0 and draws nothing. *)
Lemma random_1024_rem_4 (w : World) : Arduino.random (Z.rem 1024 4) w = (0, w).
Proof. reflexivity. Qed.

(** The flag after [drawStartFailure] is the negation of the flag before. *)
Lemma drawStartFailure_flips (b : bool) :
  hoare (fun s => flag s = b) drawStartFailure (fun _ s => flag s = negb b).
Proof.
  intros [g w] Hs. unfold flag in Hs. cbn [fst] in Hs.
  unfold drawStartFailure, get, modify, lift.
  rewrite !bind_run. cbn [fst snd]. rewrite Hs.
  destruct b; cbn [negb]; [reflexivity|].
  rewrite !bind_run. cbn [fst snd]. now rewrite random_1024_rem_4.
Qed.

Lemma hoare_true {S A : Type} (m : State S A) :
  hoare (fun _ => True) m (fun _ _ => True).
Proof. intros s _. exact I. Qed.

Lemma hoare_get {A : Type} (P : Sketch * World -> Prop) (f : Sketch -> A) :
  hoare P (get f) (fun a s => P s /\ a = f (fst s)).
Proof. intros s Hs. now split. Qed.

(** What the transition of [OnGround] does to the flag and what it returns. *)
Lemma nextFalconState_OnGround (b : bool) :
  hoare (fun s => flag s = b) (nextFalconState OnGround)
        (fun ns s => flag s = negb b
                     /\ next ns = if b then PrepareForFlight else FailingStart).
Proof.
  unfold nextFalconState.
  eapply hoare_bind; [apply (keeps_flag_set_falconState OnGround b) | intros ?].
  eapply hoare_bind; [apply (keeps_flag_on_cockpit _ b) | intros ?].
  eapply hoare_bind; [apply (keeps_flag_on_headlights _ b) | intros ?].
  eapply hoare_bind; [apply (keeps_flag_on_landingLights _ b) | intros ?].
  eapply hoare_bind; [apply (keeps_flag_on_engine _ b) | intros ?].
  eapply hoare_bind; [apply (drawStartFailure_flips b) | intros ?].
  eapply hoare_bind; [apply (keeps_flag_lift _ (negb b)) | intros t].
  eapply hoare_bind; [apply hoare_get | intros failed].
  apply hoare_ret. intros s [Hs ->]. split; [exact Hs|].
  cbn [next]. fold (flag s). rewrite Hs. now destruct b.
Qed.

(** What the other transitions return: one fixed successor each. *)
Ltac skip_steps :=
  repeat (eapply hoare_bind; [apply hoare_true | intros ?]);
  apply hoare_ret; intros; reflexivity.

Lemma nextFalconState_successor (st : FalconState) :
  st <> OnGround ->
  hoare (fun _ => True) (nextFalconState st)
        (fun ns _ => next ns = match st with
                               | OnGround => OnGround
                               | PrepareForFlight => InFlight
                               | FailingStart => Failing
                               | Failing => EmergencyShutdown
                               | EmergencyShutdown => Restarting
                               | Restarting => OnGround
                               | InFlight => Landing
                               | Landing => OnGround
                               end).
Proof.
  intros Hst. destruct st; try congruence; unfold nextFalconState; skip_steps.
Qed.

Lemma narrative_step (k : nat) (st : FalconState) (s : Sketch * World) :
  narrative (S k) st s
  = narrative k (next (fst (nextFalconState st s))) (snd (nextFalconState st s)).
Proof. cbn [narrative]. unfold bind. now destruct (nextFalconState st s). Qed.

(** [visit] enters the given states one after the other. *)
Lemma visit_keeps_flag (states : list FalconState) :
  Forall (fun st => st <> OnGround) states -> keeps_flag (visit states).
Proof.
  induction 1 as [|st rest Hst _ IH]; cbn [visit].
  - apply keeps_flag_ret.
  - apply keeps_flag_bind; [now apply nextFalconState_keeps_flag | intros _; exact IH].
Qed.

(** * The narrative state machine: C1, C2, C10 *)

(** C1 (code defect).  The specification lets the transition of [OnGround]
    raise [lastStartFailed] with probability 1/4 when it was false, so that
    for some random draws [PrepareForFlight] follows.  The code draws
    [random(1024 % 4)], that is [random(0)], which is always 0: whatever the
    generator answers, the flag is negated and the successor is
    [FailingStart] exactly when the flag was false. *)
Theorem C1_start_failure_ignores_the_draw : forall (g : Sketch) (w : World),
  let r := nextFalconState OnGround (g, w) in
  lastStartFailed (fst (snd r)) = negb (lastStartFailed g)
  /\ next (fst r) = (if lastStartFailed g then PrepareForFlight else FailingStart).
Proof.
  intros g w r.
  exact (nextFalconState_OnGround (lastStartFailed g) (g, w) eq_refl).
Qed.

(** The failing input of C1 run through the code: the flag is false and no
    raw draw is a multiple of 4, yet the start fails. *)
Example C1_failing_input :
  let r := nextFalconState OnGround (initial, sample_world) in
  lastStartFailed initial = false
  /\ entropy sample_world 0%nat mod 4 <> 0
  /\ next (fst r) = FailingStart
  /\ lastStartFailed (fst (snd r)) = true.
Proof. vm_compute. repeat split; discriminate. Qed.

(** C2.  Two consecutive transitions of [OnGround], with any transitions of
    other states between them, never both return [FailingStart], whatever
    the flag and the random draws are. *)
Theorem C2_no_repeated_start_failure :
  forall (s : Sketch * World) (between : list FalconState),
    Forall (fun st => st <> OnGround) between ->
    let r1 := nextFalconState OnGround s in
    let r2 := nextFalconState OnGround (snd (visit between (snd r1))) in
    ~ (next (fst r1) = FailingStart /\ next (fst r2) = FailingStart).
Proof.
  intros s between Hb r1 r2 [H1 H2].
  destruct (nextFalconState_OnGround (flag s) s eq_refl) as [Hf1 Hn1].
  fold r1 in Hf1, Hn1.
  pose proof (visit_keeps_flag between Hb _ (snd r1) Hf1) as Hf2.
  destruct (nextFalconState_OnGround _ _ Hf2) as [_ Hn2].
  fold r2 in Hn2.
  rewrite H1 in Hn1. rewrite H2 in Hn2.
  destruct (flag s); cbn in Hn1, Hn2; discriminate.
Qed.

Lemma C2_no_repeated_start_failure_witness :
  let s := (initial, sample_world) in
  let between := [FailingStart; Failing; EmergencyShutdown; Restarting] in
  let r1 := nextFalconState OnGround s in
  let r2 := nextFalconState OnGround (snd (visit between (snd r1))) in
  Forall (fun st => st <> OnGround) between
  /\ ~ (next (fst r1) = FailingStart /\ next (fst r2) = FailingStart).
Proof.
  assert (H : Forall (fun st => st <> OnGround)
                     [FailingStart; Failing; EmergencyShutdown; Restarting])
    by (repeat constructor; discriminate).
  split; [exact H|].
  exact (C2_no_repeated_start_failure (initial, sample_world) _ H).
Defined.

(** C10.  The successor a transition returns follows the two cycles of the
    narrative, and from every state the narrative enters [OnGround] again
    after at most 5 transitions, whatever the flag and the random draws. *)
Theorem C10_narrative_returns_to_ground :
  forall (st : FalconState) (s : Sketch * World),
    In (next (fst (nextFalconState st s)))
       match st with
       | OnGround => [PrepareForFlight; FailingStart]
       | PrepareForFlight => [InFlight]
       | InFlight => [Landing]
       | Landing => [OnGround]
       | FailingStart => [Failing]
       | Failing => [EmergencyShutdown]
       | EmergencyShutdown => [Restarting]
       | Restarting => [OnGround]
       end
    /\ exists k : nat, (1 <= k <= 5)%nat /\ fst (narrative k st s) = OnGround.
Proof.
  assert (Hfix : forall st s, st <> OnGround ->
            next (fst (nextFalconState st s))
            = match st with
              | OnGround => OnGround | PrepareForFlight => InFlight
              | FailingStart => Failing | Failing => EmergencyShutdown
              | EmergencyShutdown => Restarting | Restarting => OnGround
              | InFlight => Landing | Landing => OnGround
              end).
  { intros st s Hst. exact (nextFalconState_successor st Hst s I). }
  assert (Hgo : forall k st s, st <> OnGround ->
            narrative (S k) st s
            = narrative k match st with
                          | OnGround => OnGround | PrepareForFlight => InFlight
                          | FailingStart => Failing | Failing => EmergencyShutdown
                          | EmergencyShutdown => Restarting | Restarting => OnGround
                          | InFlight => Landing | Landing => OnGround
                          end (snd (nextFalconState st s))).
  { intros k st s Hst. rewrite narrative_step. now rewrite Hfix. }
  intros st s. split.
  - destruct st; try (rewrite Hfix by discriminate; now left).
    destruct (nextFalconState_OnGround (flag s) s eq_refl) as [_ ->].
    destruct (flag s); cbn; auto.
  - destruct st.
    + destruct (nextFalconState_OnGround (flag s) s eq_refl) as [_ Hn].
      destruct (flag s).
      * exists 4%nat. split; [lia|]. rewrite narrative_step, Hn.
        now rewrite !Hgo by discriminate.
      * exists 5%nat. split; [lia|]. rewrite narrative_step, Hn.
        now rewrite !Hgo by discriminate.
    + exists 3%nat. split; [lia|]. now rewrite !Hgo by discriminate.
    + exists 4%nat. split; [lia|]. now rewrite !Hgo by discriminate.
    + exists 3%nat. split; [lia|]. now rewrite !Hgo by discriminate.
    + exists 2%nat. split; [lia|]. now rewrite !Hgo by discriminate.
    + exists 1%nat. split; [lia|]. now rewrite !Hgo by discriminate.
    + exists 2%nat. split; [lia|]. now rewrite !Hgo by discriminate.
    + exists 1%nat. split; [lia|]. now rewrite !Hgo by discriminate.
Qed.

(** * The waveform engine *)

(** ** Machine integers *)

Lemma to_int_id (z : Z) : C.INT_MIN <= z <= C.INT_MAX -> C.to_int z = z.
Proof.
  unfold C.to_int, C.to_signed, C.INT_MIN, C.INT_MAX. intros H.
  rewrite Z.mod_small; lia.
Qed.

Lemma to_int_range (z : Z) : C.INT_MIN <= C.to_int z <= C.INT_MAX.
Proof.
  unfold C.to_int, C.to_signed, C.INT_MIN, C.INT_MAX.
  pose proof (Z.mod_pos_bound (z + 2 ^ (16 - 1)) (2 ^ 16) ltac:(lia)). lia.
Qed.

Lemma to_ulong_range (z : Z) : 0 <= C.to_ulong z < 2 ^ 32.
Proof. unfold C.to_ulong, C.to_unsigned. apply Z.mod_pos_bound. lia. Qed.

Lemma to_ulong_id (z : Z) : 0 <= z < 2 ^ 32 -> C.to_ulong z = z.
Proof. unfold C.to_ulong, C.to_unsigned. intros H. now apply Z.mod_small. Qed.

(** Cutting to 32 bits first does not change what the 16 low bits say. *)
Lemma to_int_to_ulong (z : Z) : C.to_int (C.to_ulong z) = C.to_int z.
Proof.
  unfold C.to_int, C.to_ulong, C.to_signed, C.to_unsigned. f_equal.
  rewrite <- (Zplus_mod_idemp_l (z mod _)).
  rewrite Z.mod_mod_divide by (exists (2 ^ 16); reflexivity).
  now rewrite Zplus_mod_idemp_l.
Qed.

(** ** What [update] touches *)

Lemma update_idle (now : Z) (l : Led.t) (w : World) :
  Led.elapsed (C.to_ulong now) l < 0 -> Led.update now l w = (l, w).
Proof.
  intros H. unfold Led.update.
  destruct (Z.ltb_spec (Led.elapsed (C.to_ulong now) l) 0); [reflexivity | lia].
Qed.

(** Past the delay [update] stores the smoothed waveform in [lastValue] and
    writes it to the pin when it differs from the value before. *)
Lemma update_active (now : Z) (l : Led.t) (w : World) :
  let delta := Led.elapsed (C.to_ulong now) l in
  let raw := Led.waveform delta l w in
  let value := Led.smooth delta (fst raw) l in
  0 <= delta ->
  Led.update now l w
  = (Led.set_lastValue value l,
     if value =? Led.lastValue l then snd raw
     else snd (Arduino.analogWrite (Led.pin l) value (snd raw))).
Proof.
  intros delta raw value H. unfold Led.update. fold delta.
  destruct (Z.ltb_spec delta 0); [lia|].
  rewrite bind_run. fold raw. fold value. rewrite bind_run.
  destruct (value =? Led.lastValue l); reflexivity.
Qed.

(** [update] changes no member but [lastValue]. *)
Lemma update_frame (now : Z) (l : Led.t) (w : World) :
  fst (Led.update now l w) = Led.set_lastValue (Led.lastValue (fst (Led.update now l w))) l.
Proof.
  destruct (Z.lt_ge_cases (Led.elapsed (C.to_ulong now) l) 0) as [H|H].
  - rewrite update_idle by exact H. now destruct l.
  - rewrite update_active by exact H. reflexivity.
Qed.

Lemma update_startTime (now : Z) (l : Led.t) (w : World) :
  Led.startTime (fst (Led.update now l w)) = Led.startTime l.
Proof. now rewrite update_frame. Qed.

(** The clock is read by the mode-setting operations only. *)
Lemma waveform_reads (delta : Z) (l : Led.t) (w : World) :
  reads (snd (Led.waveform delta l w)) = reads w.
Proof.
  unfold Led.waveform.
  destruct (Led.mode l); try reflexivity.
  destruct (Z.rem delta 29 =? 0); [|reflexivity].
  unfold Arduino.random2, Arduino.random.
  destruct (Led.minBright l >=? Led.maxBright l); [reflexivity|].
  destruct (_ =? 0); reflexivity.
Qed.

Lemma update_reads (now : Z) (l : Led.t) (w : World) :
  reads (snd (Led.update now l w)) = reads w.
Proof.
  destruct (Z.lt_ge_cases (Led.elapsed (C.to_ulong now) l) 0) as [H|H].
  - now rewrite update_idle.
  - rewrite update_active by exact H. cbn [snd].
    destruct (_ =? _); cbn [snd Arduino.analogWrite Arduino.emit reads];
      apply waveform_reads.
Qed.

(** [elapsed] is the time since [startTime + delay] while this fits an [int]. *)
Lemma elapsed_exact (now : Z) (l : Led.t) :
  C.INT_MIN <= Led.delay l <= C.INT_MAX ->
  C.INT_MIN <= now - Led.startTime l - Led.delay l <= C.INT_MAX ->
  Led.elapsed now l = now - Led.startTime l - Led.delay l.
Proof.
  intros Hd H. unfold Led.elapsed. rewrite to_int_to_ulong.
  rewrite <- (to_int_id _ H).
  unfold C.to_int, C.to_signed, C.to_ulong, C.to_unsigned. f_equal.
  rewrite <- Zplus_mod_idemp_l, <- Zminus_mod_idemp_r.
  rewrite Z.mod_mod_divide by (exists (2 ^ 16); reflexivity).
  rewrite Zminus_mod_idemp_r, Zplus_mod_idemp_l. reflexivity.
Qed.

(** ** C9: before the activation [update] does nothing *)

(** C9.  While [now - startTime - delay] is negative, [update] is a no-op:
    it returns the LED and the world unchanged, so nothing is written and
    [lastValue] stays.  This holds for the [int delta] the code computes,
    and for the exact difference whenever that fits an [int]. *)
Theorem C9_update_is_a_noop_before_activation :
  forall (now : Z) (l : Led.t) (w : World),
    (Led.elapsed (C.to_ulong now) l < 0 -> Led.update now l w = (l, w))
    /\ (0 <= now < 2 ^ 32 ->
        C.INT_MIN <= Led.delay l <= C.INT_MAX ->
        C.INT_MIN <= now - Led.startTime l - Led.delay l < 0 ->
        Led.update now l w = (l, w)).
Proof.
  intros now l w. split.
  - apply update_idle.
  - intros Hnow Hd H. apply update_idle.
    rewrite to_ulong_id by exact Hnow.
    rewrite elapsed_exact; unfold C.INT_MAX in *; lia.
Qed.

Lemma C9_update_is_a_noop_before_activation_witness :
  let l := Led.mk 6 1000 0 1000 LedMode.ramp 0 255 5000 17 in
  (Led.elapsed (C.to_ulong 5400) l < 0
   /\ 0 <= 5400 < 2 ^ 32
   /\ C.INT_MIN <= Led.delay l <= C.INT_MAX
   /\ C.INT_MIN <= 5400 - Led.startTime l - Led.delay l < 0)
  /\ Led.update 5400 l sample_world = (l, sample_world).
Proof.
  intros l.
  assert (H1 : Led.elapsed (C.to_ulong 5400) l < 0) by reflexivity.
  assert (H2 : 0 <= 5400 < 2 ^ 32) by lia.
  assert (H3 : C.INT_MIN <= Led.delay l <= C.INT_MAX) by (vm_compute; split; discriminate).
  assert (H4 : C.INT_MIN <= 5400 - Led.startTime l - Led.delay l < 0)
    by (vm_compute; split; [discriminate | reflexivity]).
  split; [auto|].
  exact (proj2 (C9_update_is_a_noop_before_activation 5400 l sample_world) H2 H3 H4).
Defined.

(** ** C8: which operations restart the clock of the LED *)

Lemma off_startTime (l : Led.t) (w : World) :
  Led.startTime (fst (Led.off l w)) = time_now w.
Proof. reflexivity. Qed.

Lemma on_startTime (mx : Z) (l : Led.t) (w : World) :
  Led.startTime (fst (Led.on mx l w)) = time_now w.
Proof. reflexivity. Qed.

Lemma rampTo_startTime (mx pd d : Z) (l : Led.t) (w : World) :
  Led.startTime (fst (Led.rampTo mx pd d l w)) = time_now w.
Proof. unfold Led.rampTo. rewrite !bind_run. now rewrite update_startTime. Qed.

Lemma startSinusoid_startTime (pd mn mx ph : Z) (l : Led.t) (w : World) :
  Led.startTime (fst (Led.startSinusoid pd mn mx ph l w)) = time_now w.
Proof. unfold Led.startSinusoid. rewrite !bind_run. now rewrite update_startTime. Qed.

(** C8 (code defect).  The specification has every mode-setting operation
    record the current time in [startTime].  [off], [on], [rampTo] and
    [startSinusoid] do; [startFlicker] does not read the clock at all and
    leaves [startTime] (and [period]) as the mode before set them, so the
    delay it is given counts from the activation of that earlier mode. *)
Theorem C8_startFlicker_keeps_the_old_startTime :
  forall (mn mx d : Z) (l : Led.t) (w : World),
    let r := Led.startFlicker mn mx d l w in
    Led.startTime (fst r) = Led.startTime l
    /\ Led.period (fst r) = Led.period l
    /\ snd r = w
    /\ (forall mx' pd' d' ph',
          Led.startTime (fst (Led.off l w)) = time_now w
          /\ Led.startTime (fst (Led.on mx' l w)) = time_now w
          /\ Led.startTime (fst (Led.rampTo mx' pd' d' l w)) = time_now w
          /\ Led.startTime (fst (Led.startSinusoid pd' mn mx' ph' l w)) = time_now w).
Proof.
  intros mn mx d l w r. repeat split.
  - apply rampTo_startTime.
  - apply startSinusoid_startTime.
Qed.

(** The failing input of C8 run through the code: a flicker set at time 5000
    with a delay of 100 ms on an LED whose last mode started at time 0 is
    past its delay at once. *)
Example C8_failing_input :
  let l := Led.mk 3 3000 0 2000 LedMode.ramp 0 64 0 64 in
  let w := mkWorld (fun _ => 5000) 0 (fun _ => 1) 0 (fun _ => F.one) [] in
  let l' := fst (Led.startFlicker 0 128 100 l w) in
  time_now w = 5000
  /\ Led.startTime l' = 0
  /\ Led.elapsed 5000 l' = 4900.
Proof. vm_compute. repeat split. Qed.

(** ** C5: the ramp to 100 over 1000 ms *)

Lemma to_int_plus_mod32 (a b : Z) : C.to_int (a mod 2 ^ 32 + b) = C.to_int (a + b).
Proof.
  unfold C.to_int, C.to_signed. f_equal.
  rewrite <- !Z.add_assoc.
  rewrite <- (Zplus_mod_idemp_l (a mod _)).
  rewrite Z.mod_mod_divide by (exists (2 ^ 16); reflexivity).
  now rewrite Zplus_mod_idemp_l.
Qed.

(** [d] milliseconds after the start of a mode without delay, [elapsed] is [d]. *)
Lemma elapsed_after (d : Z) (l : Led.t) :
  Led.delay l = 0 -> C.INT_MIN <= d <= C.INT_MAX ->
  Led.elapsed (C.to_ulong (Led.startTime l + d)) l = d.
Proof.
  intros Hd H. unfold Led.elapsed. rewrite to_int_to_ulong, Hd.
  change (C.to_ulong 0) with 0. unfold C.to_ulong, C.to_unsigned.
  replace ((Led.startTime l + d) mod 2 ^ 32 - Led.startTime l - 0)
    with ((Led.startTime l + d) mod 2 ^ 32 + (- Led.startTime l)) by lia.
  rewrite to_int_plus_mod32.
  replace (Led.startTime l + d + - Led.startTime l) with d by lia.
  now apply to_int_id.
Qed.

Lemma elapsed_set_lastValue (now v : Z) (l : Led.t) :
  Led.elapsed now (Led.set_lastValue v l) = Led.elapsed now l.
Proof. unfold Led.elapsed. reflexivity. Qed.

Lemma waveform_ramp (delta : Z) (l : Led.t) (w : World) :
  Led.mode l = LedMode.ramp ->
  Led.waveform delta l w
  = (C.to_int (Led.minBright l
               + F.to_int (F.mul (F.of_Z (C.to_int (Led.maxBright l - Led.minBright l)))
                                 (F.div (F.mul F.one (F.of_Z (Z.min (Led.period l) delta)))
                                        (F.of_Z (Led.period l))))), w).
Proof. intros H. unfold Led.waveform. now rewrite H. Qed.

(** What [rampTo] sets, whatever its own [update] then stores. *)
Lemma rampTo_frame (mx pd d : Z) (l : Led.t) (w : World) :
  let l' := fst (Led.rampTo mx pd d l w) in
  l' = Led.mk (Led.pin l) pd (Led.phase l) d LedMode.ramp (Led.lastValue l) mx
              (time_now w) (Led.lastValue l').
Proof.
  intros l'. unfold l', Led.rampTo. rewrite !bind_run.
  rewrite update_frame at 1. reflexivity.
Qed.

(** A ramp from 0 to 100 over 1000 ms, 1000 ms or 2000 ms after its start. *)
Lemma ramp_0_100_complete (delta : Z) (l : Led.t) (w : World) :
  Led.mode l = LedMode.ramp -> Led.minBright l = 0 -> Led.maxBright l = 100 ->
  Led.period l = 1000 -> delta = 1000 \/ delta = 2000 ->
  Led.waveform delta l w = (100, w) /\ Led.smooth delta 100 l = 100.
Proof.
  intros Hm Hmin Hmax Hp Hd. split.
  - rewrite waveform_ramp by exact Hm. rewrite Hmin, Hmax, Hp.
    destruct Hd as [-> | ->]; reflexivity.
  - unfold Led.smooth, Led.factor. rewrite Hp.
    destruct Hd as [-> | ->]; reflexivity.
Qed.

(** C5.  On an LED with [lastValue = 0], [rampTo(100, 1000)] seeds
    [minBright] with 0; [update] 1000 ms after [startTime] stores exactly 100
    and writes it to the pin, and [update] 2000 ms after [startTime], with or
    without the call in between, stores exactly 100 as well. *)
Theorem C5_ramp_reaches_and_holds_100 :
  forall (l : Led.t) (w : World),
    Led.lastValue l = 0 ->
    let l1 := fst (Led.rampTo 100 1000 0 l w) in
    let t0 := Led.startTime l1 in
    Led.minBright l1 = 0 /\ t0 = time_now w
    /\ forall w1 w2 : World,
         let r1 := Led.update (t0 + 1000) l1 w1 in
         Led.lastValue (fst r1) = 100
         /\ trace (snd r1) = (if 100 =? Led.lastValue l1 then trace w1
                              else AnalogWrite (Led.pin l) 100 :: trace w1)
         /\ Led.lastValue (fst (Led.update (t0 + 2000) l1 w2)) = 100
         /\ Led.update (t0 + 2000) (fst r1) w2 = (fst r1, w2).
Proof.
  intros l w H0 l1 t0.
  pose proof (rampTo_frame 100 1000 0 l w) as Hl1. fold l1 in Hl1. cbn zeta in Hl1.
  rewrite H0 in Hl1.
  assert (Hmode : Led.mode l1 = LedMode.ramp) by now rewrite Hl1.
  assert (Hmin : Led.minBright l1 = 0) by now rewrite Hl1.
  assert (Hmax : Led.maxBright l1 = 100) by now rewrite Hl1.
  assert (Hper : Led.period l1 = 1000) by now rewrite Hl1.
  assert (Hdel : Led.delay l1 = 0) by now rewrite Hl1.
  assert (Hpin : Led.pin l1 = Led.pin l) by now rewrite Hl1.
  assert (Ht0 : t0 = time_now w) by (unfold t0; now rewrite Hl1).
  split; [exact Hmin|]. split; [exact Ht0|].
  intros w1 w2 r1.
  assert (E1 : Led.elapsed (C.to_ulong (t0 + 1000)) l1 = 1000)
    by (apply elapsed_after; [exact Hdel | vm_compute; split; discriminate]).
  assert (E2 : Led.elapsed (C.to_ulong (t0 + 2000)) l1 = 2000)
    by (apply elapsed_after; [exact Hdel | vm_compute; split; discriminate]).
  destruct (ramp_0_100_complete 1000 l1 w1 Hmode Hmin Hmax Hper (or_introl eq_refl))
    as [W1 S1].
  destruct (ramp_0_100_complete 2000 l1 w2 Hmode Hmin Hmax Hper (or_intror eq_refl))
    as [W2 S2].
  assert (R1 : r1 = (Led.set_lastValue 100 l1,
                     if 100 =? Led.lastValue l1 then w1
                     else snd (Arduino.analogWrite (Led.pin l1) 100 w1))).
  { unfold r1. rewrite update_active by (rewrite E1; lia).
    rewrite E1, W1. cbn [fst snd]. now rewrite S1. }
  split; [now rewrite R1|]. split.
  { rewrite R1. cbn [snd]. rewrite Hpin. now destruct (100 =? Led.lastValue l1). }
  split.
  { rewrite update_active by (rewrite E2; lia).
    rewrite E2, W2. cbn [fst snd]. now rewrite S2. }
  rewrite R1. cbn [fst].
  set (l2 := Led.set_lastValue 100 l1).
  assert (E2' : Led.elapsed (C.to_ulong (t0 + 2000)) l2 = 2000)
    by (unfold l2; now rewrite elapsed_set_lastValue).
  destruct (ramp_0_100_complete 2000 l2 w2 Hmode Hmin Hmax Hper (or_intror eq_refl))
    as [W2' S2'].
  rewrite update_active by (rewrite E2'; lia).
  rewrite E2', W2'. cbn [fst snd]. rewrite S2'.
  change (Led.lastValue l2) with 100. rewrite Z.eqb_refl.
  unfold l2. now destruct l1.
Qed.

Lemma C5_ramp_reaches_and_holds_100_witness :
  let l := Led.new 3 in
  let l1 := fst (Led.rampTo 100 1000 0 l sample_world) in
  Led.lastValue l = 0
  /\ Led.minBright l1 = 0
  /\ Led.lastValue (fst (Led.update (Led.startTime l1 + 1000) l1 sample_world)) = 100.
Proof.
  intros l l1.
  assert (H : Led.lastValue l = 0) by reflexivity.
  pose proof (C5_ramp_reaches_and_holds_100 l sample_world H) as [Hmin [_ Hrun]].
  split; [exact H|]. split; [exact Hmin|].
  exact (proj1 (Hrun sample_world sample_world)).
Defined.

(** * Floating point: rounding, products, quotients and sums *)

(** ** Digits *)

Lemma digits2_pos_size (m : positive) : digits2_pos m = Pos.size m.
Proof. induction m; cbn; congruence. Qed.

Lemma digits_bounds (m : positive) :
  2 ^ (Zpos (digits2_pos m) - 1) <= Zpos m < 2 ^ Zpos (digits2_pos m).
Proof.
  rewrite digits2_pos_size. split.
  - pose proof (Pos.size_le m) as H.
    assert (H2 : 2 ^ Zpos (Pos.size m) <= 2 * Zpos m).
    { change 2 with (Zpos 2). rewrite <- Pos2Z.inj_pow, <- Pos2Z.inj_mul. exact H. }
    replace (Zpos (Pos.size m)) with (Zpos (Pos.size m) - 1 + 1) in H2 by lia.
    rewrite Z.pow_add_r in H2 by lia. lia.
  - pose proof (Pos.size_gt m) as H.
    change 2 with (Zpos 2). rewrite <- Pos2Z.inj_pow. exact H.
Qed.

Lemma Zdigits2_nonneg (z : Z) : 0 <= Zdigits2 z.
Proof. destruct z; cbn; lia. Qed.

(** A non-negative number of at most [k] digits is below [2 ^ k], and back. *)
Lemma Zdigits2_le (z k : Z) : 0 <= z -> 0 <= k -> (Zdigits2 z <= k <-> z < 2 ^ k).
Proof.
  intros Hz Hk. destruct z as [|m|m]; [| |lia].
  - cbn. split; intros; [apply Z.pow_pos_nonneg|]; lia.
  - cbn [Zdigits2]. pose proof (digits_bounds m) as [Hlo Hhi]. split; intros H.
    + eapply Z.lt_le_trans; [exact Hhi|]. apply Z.pow_le_mono_r; lia.
    + destruct (Z.le_gt_cases (Zpos (digits2_pos m)) k) as [|Hgt]; [assumption|].
      exfalso. assert (2 ^ k <= 2 ^ (Zpos (digits2_pos m) - 1))
        by (apply Z.pow_le_mono_r; lia). lia.
Qed.

(** ** Shifting right *)

Lemma shr_1_m (mrs : shr_record) : 0 <= shr_m mrs -> shr_m (shr_1 mrs) = shr_m mrs / 2.
Proof.
  destruct mrs as [m r s]. cbn [shr_m]. intros H.
  destruct m as [|[p|p|]|p]; cbn [shr_1 shr_m]; try lia; try reflexivity.
  - rewrite Pos2Z.inj_xI. apply Z.div_unique with 1; lia.
  - rewrite Pos2Z.inj_xO. apply Z.div_unique with 0; lia.
Qed.

Lemma shr_1_exact (mrs : shr_record) :
  0 <= shr_m mrs -> loc_of_shr_record mrs = loc_Exact -> shr_m mrs mod 2 = 0 ->
  loc_of_shr_record (shr_1 mrs) = loc_Exact.
Proof.
  destruct mrs as [m [|] [|]]; cbn [shr_m loc_of_shr_record]; try discriminate.
  intros H _ Hm.
  destruct m as [|[p|p|]|p]; cbn [shr_1 loc_of_shr_record orb]; try reflexivity; try lia.
  - rewrite Pos2Z.inj_xI in Hm. exfalso.
    rewrite Z.add_comm, Z.mul_comm, Z.mod_add in Hm by lia. discriminate.
  - discriminate.
Qed.

Lemma iter_pos_shr (p : positive) (mrs : shr_record) :
  0 <= shr_m mrs ->
  shr_m (iter_pos shr_1 p mrs) = shr_m mrs / 2 ^ Zpos p
  /\ (loc_of_shr_record mrs = loc_Exact -> shr_m mrs mod 2 ^ Zpos p = 0 ->
      loc_of_shr_record (iter_pos shr_1 p mrs) = loc_Exact).
Proof.
  revert mrs. induction p as [p IH|p IH|]; intros mrs H.
  - cbn [iter_pos].
    assert (H1 : 0 <= shr_m (shr_1 mrs)) by (rewrite shr_1_m by lia; apply Z.div_pos; lia).
    destruct (IH _ H1) as [A1 A2].
    assert (H2 : 0 <= shr_m (iter_pos shr_1 p (shr_1 mrs)))
      by (rewrite A1; apply Z.div_pos; [lia | apply Z.pow_pos_nonneg; lia]).
    destruct (IH _ H2) as [B1 B2].
    assert (Hpow : 2 ^ Zpos p~1 = 2 * (2 ^ Zpos p * 2 ^ Zpos p)).
    { rewrite (Pos2Z.inj_xI p). rewrite Z.pow_add_r, Z.pow_mul_r by lia.
      change (2 ^ 2) with 4. rewrite Z.pow_1_r.
      replace 4 with (2 * 2) by lia. rewrite Z.pow_mul_l. lia. }
    assert (Hp : 0 < 2 ^ Zpos p) by (apply Z.pow_pos_nonneg; lia).
    split.
    + rewrite B1, A1, shr_1_m by lia.
      rewrite !Z.div_div by lia. now rewrite Hpow.
    + intros Hl Hm. rewrite Hpow in Hm.
      apply Z.mod_divide in Hm; [|lia]. destruct Hm as [c Hc].
      apply B2.
      * apply A2.
        -- apply shr_1_exact; [lia | exact Hl |]. rewrite Hc.
           replace (c * (2 * (2 ^ Zpos p * 2 ^ Zpos p)))
             with (c * (2 ^ Zpos p * 2 ^ Zpos p) * 2) by lia.
           apply Z.mod_mul. lia.
        -- rewrite shr_1_m by lia. rewrite Hc.
           replace (c * (2 * (2 ^ Zpos p * 2 ^ Zpos p)))
             with (c * 2 ^ Zpos p * 2 ^ Zpos p * 2) by lia.
           rewrite Z.div_mul by lia. apply Z.mod_mul. lia.
      * rewrite A1, shr_1_m by lia. rewrite Hc.
        replace (c * (2 * (2 ^ Zpos p * 2 ^ Zpos p)))
          with (c * 2 ^ Zpos p * 2 ^ Zpos p * 2) by lia.
        rewrite Z.div_mul by lia. rewrite Z.div_mul by lia. apply Z.mod_mul. lia.
  - cbn [iter_pos].
    destruct (IH _ H) as [A1 A2].
    assert (Hp : 0 < 2 ^ Zpos p) by (apply Z.pow_pos_nonneg; lia).
    assert (H2 : 0 <= shr_m (iter_pos shr_1 p mrs))
      by (rewrite A1; apply Z.div_pos; lia).
    destruct (IH _ H2) as [B1 B2].
    assert (Hpow : 2 ^ Zpos p~0 = 2 ^ Zpos p * 2 ^ Zpos p).
    { rewrite (Pos2Z.inj_xO p). rewrite Z.pow_mul_r by lia.
      change (2 ^ 2) with 4. replace 4 with (2 * 2) by lia. rewrite Z.pow_mul_l. lia. }
    split.
    + rewrite B1, A1. rewrite Z.div_div by lia. now rewrite Hpow.
    + intros Hl Hm. rewrite Hpow in Hm.
      apply Z.mod_divide in Hm; [|lia]. destruct Hm as [c Hc].
      apply B2.
      * apply A2; [exact Hl|]. rewrite Hc.
        replace (c * (2 ^ Zpos p * 2 ^ Zpos p)) with (c * 2 ^ Zpos p * 2 ^ Zpos p) by lia.
        apply Z.mod_mul. lia.
      * rewrite A1, Hc.
        replace (c * (2 ^ Zpos p * 2 ^ Zpos p)) with (c * 2 ^ Zpos p * 2 ^ Zpos p) by lia.
        rewrite Z.div_mul by lia. apply Z.mod_mul. lia.
  - cbn [iter_pos]. change (2 ^ 1) with 2. split.
    + now apply shr_1_m.
    + now apply shr_1_exact.
Qed.

Lemma shr_spec (mrs : shr_record) (e n : Z) :
  0 <= shr_m mrs ->
  snd (shr mrs e n) = e + Z.max 0 n
  /\ shr_m (fst (shr mrs e n)) = shr_m mrs / 2 ^ Z.max 0 n
  /\ (loc_of_shr_record mrs = loc_Exact -> shr_m mrs mod 2 ^ Z.max 0 n = 0 ->
      loc_of_shr_record (fst (shr mrs e n)) = loc_Exact).
Proof.
  intros H. destruct n as [|p|p]; cbn [shr fst snd].
  - change (Z.max 0 0) with 0. rewrite Z.add_0_r, Z.pow_0_r, Z.div_1_r. auto.
  - replace (Z.max 0 (Zpos p)) with (Zpos p) by lia.
    destruct (iter_pos_shr p mrs H) as [A B]. auto.
  - replace (Z.max 0 (Zneg p)) with 0 by lia.
    rewrite Z.add_0_r, Z.pow_0_r, Z.div_1_r. auto.
Qed.

(** ** Rounding *)

Lemma fexp_eq (e : Z) : fexp F.prec F.emax e = Z.max (e - 24) (-149).
Proof. reflexivity. Qed.

Lemma shr_m_of_loc (m : Z) (l : location) : shr_m (shr_record_of_loc m l) = m.
Proof. now destruct l as [|[| |]]. Qed.

Lemma loc_of_loc (m : Z) (l : location) : loc_of_shr_record (shr_record_of_loc m l) = l.
Proof. now destruct l as [|[| |]]. Qed.

Lemma round_nearest_even_bounds (m : Z) (l : location) :
  m <= round_nearest_even m l <= m + 1 /\ (l = loc_Exact -> round_nearest_even m l = m).
Proof.
  destruct l as [|[| |]]; cbn [round_nearest_even]; try destruct (Z.even m);
    (split; [lia | try reflexivity; discriminate]).
Qed.

(** What [binary_round_aux] answers: the mantissa is shifted right by
    [shift_of], rounded to [m1], and shifted once more if the rounding made
    it too long. *)
Lemma binary_round_aux_spec (sx : bool) (mx ex : Z) (lx : location) :
  0 <= mx ->
  let N1 := shift_of mx ex in
  let e1 := ex + N1 in
  let q := mx / 2 ^ N1 in
  exists m1 : Z,
    q <= m1 <= q + 1
    /\ (lx = loc_Exact -> mx mod 2 ^ N1 = 0 -> m1 = q)
    /\ binary_round_aux F.prec F.emax sx mx ex lx
       = match m1 / 2 ^ shift_of m1 e1 with
         | 0 => S754_zero sx
         | Zpos m => if e1 + shift_of m1 e1 <=? 104
                     then S754_finite sx m (e1 + shift_of m1 e1)
                     else S754_infinity sx
         | Zneg _ => S754_nan
         end.
Proof.
  intros Hmx N1 e1 q.
  unfold binary_round_aux, shr_fexp.
  pose proof (shr_spec (shr_record_of_loc mx lx) ex
                (fexp F.prec F.emax (Zdigits2 mx + ex) - ex)) as S1.
  rewrite shr_m_of_loc, loc_of_loc in S1. specialize (S1 Hmx).
  fold (shift_of mx ex) in S1. fold N1 in S1.
  destruct (shr (shr_record_of_loc mx lx) ex _) as [mrs' e'].
  cbn [fst snd] in S1. destruct S1 as [Se [Sm Sl]].
  set (m1 := round_nearest_even (shr_m mrs') (loc_of_shr_record mrs')).
  destruct (round_nearest_even_bounds (shr_m mrs') (loc_of_shr_record mrs')) as [Rb Re].
  fold m1 in Rb, Re.
  assert (Hq : 0 <= q) by (apply Z.div_pos; [lia | apply Z.pow_pos_nonneg; unfold N1, shift_of; lia]).
  exists m1. split; [fold q in Sm; lia|]. split.
  { intros Hl Hm. rewrite Re; [exact Sm | now apply Sl]. }
  pose proof (shr_spec (shr_record_of_loc m1 loc_Exact) e'
                (fexp F.prec F.emax (Zdigits2 m1 + e') - e')) as S2.
  rewrite shr_m_of_loc in S2.
  assert (Hm1 : 0 <= m1) by (fold q in Sm; lia).
  specialize (S2 Hm1). fold (shift_of m1 e') in S2.
  destruct (shr (shr_record_of_loc m1 loc_Exact) e' _) as [mrs'' e''].
  cbn [fst snd] in S2. destruct S2 as [Se2 [Sm2 _]].
  rewrite Sm2, Se2, Se. reflexivity.
Qed.

Lemma pow2_pos (k : Z) : 0 <= k -> 0 < 2 ^ k.
Proof. intros. apply Z.pow_pos_nonneg; lia. Qed.

Lemma shift_of_nonneg (mx ex : Z) : 0 <= shift_of mx ex.
Proof. unfold shift_of. lia. Qed.

Lemma shift_of_grid (mx ex : Z) :
  ex + shift_of mx ex = Z.max ex (Z.max (Zdigits2 mx + ex - 24) (-149)).
Proof. unfold shift_of. rewrite fexp_eq. lia. Qed.

(** After the first shift the mantissa has at most 24 digits. *)
Lemma shifted_small (mx ex : Z) : 0 <= mx -> mx / 2 ^ shift_of mx ex < 2 ^ 24.
Proof.
  intros H. pose proof (shift_of_nonneg mx ex) as HN.
  apply Z.div_lt_upper_bound; [now apply pow2_pos|].
  rewrite <- Z.pow_add_r by lia.
  apply (Zdigits2_le mx (shift_of mx ex + 24) H); [lia|].
  unfold shift_of. rewrite fexp_eq. lia.
Qed.

(** The second shift is by one digit at most. *)
Lemma second_shift_small (m1 e1 : Z) :
  0 <= m1 <= 2 ^ 24 -> -149 <= e1 -> 0 <= shift_of m1 e1 <= 1.
Proof.
  intros Hm He. split; [apply shift_of_nonneg|].
  assert (Hd : Zdigits2 m1 <= 25).
  { apply Zdigits2_le; [lia | lia |]. change (2 ^ 25) with (2 * 2 ^ 24). lia. }
  unfold shift_of. rewrite fexp_eq. lia.
Qed.

(** Rounding against a bound on the grid: when the exact value
    [mx * 2 ^ ex] (with something more when [lx] is not exact) is at most
    [Bm * 2 ^ (ex + shift_of mx ex)], so is the rounded one. *)
Lemma binary_round_aux_le (sx : bool) (mx ex : Z) (lx : location) (Bm : Z) :
  0 <= mx ->
  mx <= Bm * 2 ^ shift_of mx ex ->
  (lx <> loc_Exact -> mx < Bm * 2 ^ shift_of mx ex) ->
  match binary_round_aux F.prec F.emax sx mx ex lx with
  | S754_zero s => s = sx
  | S754_finite s m e =>
      s = sx /\ e <= 104
      /\ exists N2, 0 <= N2 <= 1 /\ e = ex + shift_of mx ex + N2 /\ Zpos m * 2 ^ N2 <= Bm
  | S754_infinity s => s = sx /\ 104 < ex + shift_of mx ex + 1
  | S754_nan => False
  end.
Proof.
  intros Hmx HB HBs.
  destruct (binary_round_aux_spec sx mx ex lx Hmx) as [m1 [Hm1 [Hex ->]]].
  set (N1 := shift_of mx ex) in *. set (e1 := ex + N1) in *.
  set (q := mx / 2 ^ N1) in *.
  pose proof (shift_of_nonneg mx ex) as HN1. fold N1 in HN1.
  pose proof (pow2_pos N1 HN1) as HP1.
  assert (Hq0 : 0 <= q) by (apply Z.div_pos; lia).
  assert (Hq24 : q < 2 ^ 24) by (apply shifted_small; exact Hmx).
  assert (He1 : -149 <= e1).
  { unfold e1, N1. rewrite shift_of_grid. lia. }
  assert (HN2 : 0 <= shift_of m1 e1 <= 1) by (apply second_shift_small; lia).
  set (N2 := shift_of m1 e1) in *.
  pose proof (pow2_pos N2 (proj1 HN2)) as HP2.
  assert (Hm1B : m1 <= Bm).
  { assert (Hqm : q * 2 ^ N1 <= mx).
    { unfold q. rewrite Z.mul_comm. apply Z.mul_div_le. lia. }
    destruct (Z.lt_ge_cases q Bm) as [Hlt|Hge]; [lia|].
    assert (Hmx' : mx = Bm * 2 ^ N1) by nia.
    assert (Hl : lx = loc_Exact).
    { destruct lx; [reflexivity|]. exfalso.
      assert (mx < Bm * 2 ^ N1) by (apply HBs; discriminate). lia. }
    rewrite Hex; [| exact Hl | rewrite Hmx'; apply Z.mod_mul; lia].
    unfold q. rewrite Hmx', Z.div_mul by lia. lia. }
  assert (Hdiv : m1 / 2 ^ N2 * 2 ^ N2 <= m1).
  { rewrite Z.mul_comm. apply Z.mul_div_le. lia. }
  assert (Hdiv0 : 0 <= m1 / 2 ^ N2) by (apply Z.div_pos; lia).
  destruct (m1 / 2 ^ N2) as [|m|m] eqn:Em; [reflexivity | | lia].
  destruct (Z.leb_spec (e1 + N2) 104).
  - split; [reflexivity|]. split; [assumption|].
    exists N2. split; [exact HN2|]. split; [reflexivity | lia].
  - split; [reflexivity | lia].
Qed.

(** Rounding moves the value up by less than one step of the grid. *)
Lemma binary_round_aux_err (sx : bool) (mx ex : Z) (lx : location) :
  0 <= mx ->
  match binary_round_aux F.prec F.emax sx mx ex lx with
  | S754_zero s => s = sx
  | S754_finite s m e =>
      s = sx /\ e <= 104
      /\ exists N2, 0 <= N2 <= 1 /\ e = ex + shift_of mx ex + N2
                    /\ Zpos m * 2 ^ N2 * 2 ^ shift_of mx ex <= mx + 2 ^ shift_of mx ex
  | S754_infinity s => s = sx /\ 104 < ex + shift_of mx ex + 1
  | S754_nan => False
  end.
Proof.
  intros Hmx.
  pose proof (shift_of_nonneg mx ex) as HN1.
  pose proof (pow2_pos _ HN1) as HP1.
  assert (Hqm : mx / 2 ^ shift_of mx ex * 2 ^ shift_of mx ex <= mx).
  { rewrite Z.mul_comm. apply Z.mul_div_le. lia. }
  assert (Hlt : mx < (mx / 2 ^ shift_of mx ex + 1) * 2 ^ shift_of mx ex).
  { pose proof (Z.mod_pos_bound mx (2 ^ shift_of mx ex) HP1).
    pose proof (Z.div_mod mx (2 ^ shift_of mx ex)). lia. }
  pose proof (binary_round_aux_le sx mx ex lx (mx / 2 ^ shift_of mx ex + 1) Hmx
                (Z.lt_le_incl _ _ Hlt) (fun _ => Hlt)) as H.
  destruct (binary_round_aux F.prec F.emax sx mx ex lx) as [s|s| |s m e]; try exact H.
  destruct H as [Hs [He [N2 [HN2 [HeN HB]]]]].
  split; [exact Hs|]. split; [exact He|]. exists N2. repeat split; try lia.
  nia.
Qed.

(** ** Values on a common scale

    Every number the sketch computes is a multiple of [2 ^ -298]; a value
    [v] is written as the integer [v * 2 ^ 298]. *)

Lemma within_weaken (sx : bool) (T T' : Z) (x : F.double) :
  within sx T x -> T <= T' -> within sx T' x.
Proof. destruct x as [s|s| |s m e]; cbn [within]; intuition lia. Qed.

Lemma pow2_split (a b : Z) : 0 <= a -> 0 <= b -> 2 ^ (a + b) = 2 ^ a * 2 ^ b.
Proof. intros. now apply Z.pow_add_r. Qed.

(** Rounding against a bound [c * 2 ^ g] that lies on the grid. *)
Lemma binary_round_aux_within (sx : bool) (mx ex : Z) (lx : location) (c g : Z) :
  0 <= mx -> -298 <= ex ->
  ex + shift_of mx ex <= g <= 103 ->
  mx * 2 ^ (ex + 298) <= c * 2 ^ (g + 298) ->
  (lx <> loc_Exact -> mx * 2 ^ (ex + 298) < c * 2 ^ (g + 298)) ->
  within sx (c * 2 ^ (g + 298)) (binary_round_aux F.prec F.emax sx mx ex lx).
Proof.
  intros Hmx Hex Hg HT HTs.
  pose proof (shift_of_nonneg mx ex) as HN1.
  set (N1 := shift_of mx ex) in *.
  assert (HG : -149 <= ex + N1) by (unfold N1; rewrite shift_of_grid; lia).
  assert (E1 : 2 ^ (g + 298) = 2 ^ (g - (ex + N1)) * 2 ^ N1 * 2 ^ (ex + 298)).
  { rewrite <- !pow2_split by lia. f_equal. lia. }
  pose proof (pow2_pos (ex + 298) ltac:(lia)) as HPe.
  pose proof (pow2_pos N1 HN1) as HPn.
  pose proof (pow2_pos (g - (ex + N1)) ltac:(lia)) as HPg.
  pose proof (binary_round_aux_le sx mx ex lx (c * 2 ^ (g - (ex + N1))) Hmx) as H.
  fold N1 in H.
  assert (A1 : mx <= c * 2 ^ (g - (ex + N1)) * 2 ^ N1).
  { rewrite E1 in HT. nia. }
  assert (A2 : lx <> loc_Exact -> mx < c * 2 ^ (g - (ex + N1)) * 2 ^ N1).
  { intros Hl. specialize (HTs Hl). rewrite E1 in HTs. nia. }
  specialize (H A1 A2).
  destruct (binary_round_aux F.prec F.emax sx mx ex lx) as [s|s| |s m e]; cbn [within].
  - exact H.
  - lia.
  - exact H.
  - destruct H as [Hs [He [N2 [HN2 [HeN HB]]]]].
    split; [exact Hs|]. split; [lia|].
    rewrite HeN.
    replace (ex + N1 + N2 + 298) with (N2 + (N1 + (ex + 298))) by lia.
    rewrite !pow2_split by lia. rewrite E1.
    pose proof (pow2_pos N2 ltac:(lia)). nia.
Qed.

(** Rounding adds less than one step of the grid, which is [2 ^ g] at most. *)
Lemma binary_round_aux_near (sx : bool) (mx ex : Z) (lx : location) (g : Z) :
  0 <= mx -> -298 <= ex ->
  ex + shift_of mx ex <= g <= 103 ->
  within sx (mx * 2 ^ (ex + 298) + 2 ^ (g + 298))
         (binary_round_aux F.prec F.emax sx mx ex lx).
Proof.
  intros Hmx Hex Hg.
  pose proof (shift_of_nonneg mx ex) as HN1.
  pose proof (binary_round_aux_err sx mx ex lx Hmx) as H.
  set (N1 := shift_of mx ex) in *.
  assert (HG : -149 <= ex + N1) by (unfold N1; rewrite shift_of_grid; lia).
  pose proof (pow2_pos (ex + 298) ltac:(lia)) as HPe.
  pose proof (pow2_pos N1 HN1) as HPn.
  assert (E1 : 2 ^ (ex + N1 + 298) <= 2 ^ (g + 298)) by (apply Z.pow_le_mono_r; lia).
  destruct (binary_round_aux F.prec F.emax sx mx ex lx) as [s|s| |s m e]; cbn [within].
  - exact H.
  - lia.
  - exact H.
  - destruct H as [Hs [He [N2 [HN2 [HeN HB]]]]].
    split; [exact Hs|]. split; [lia|].
    rewrite HeN.
    replace (ex + N1 + N2 + 298) with (N2 + (N1 + (ex + 298))) by lia.
    replace (ex + N1 + 298) with (N1 + (ex + 298)) in E1 by lia.
    rewrite !pow2_split in * by lia.
    pose proof (pow2_pos N2 ltac:(lia)). nia.
Qed.

(** An exact value that fits the format is not changed. *)
Lemma binary_round_aux_exact (sx : bool) (mx : positive) (ex : Z) :
  shift_of (Zpos mx) ex = 0 -> ex <= 104 ->
  binary_round_aux F.prec F.emax sx (Zpos mx) ex loc_Exact = S754_finite sx mx ex.
Proof.
  intros HN He.
  destruct (binary_round_aux_spec sx (Zpos mx) ex loc_Exact ltac:(lia)) as [m1 [_ [Hex ->]]].
  rewrite HN in *. rewrite Z.pow_0_r, Z.div_1_r, Z.add_0_r in *.
  rewrite (Hex eq_refl (Z.mod_1_r _)).
  rewrite HN, Z.pow_0_r, Z.div_1_r, Z.add_0_r.
  destruct (Z.leb_spec ex 104); [reflexivity | lia].
Qed.

(** ** Magnitudes *)

Lemma within_iff (sx : bool) (T : Z) (x : F.double) :
  0 <= T -> (within sx T x <-> signed sx x /\ mag x <= T).
Proof. destruct x as [s|s| |s m e]; cbn [within signed mag]; intuition lia. Qed.

Lemma mag_nonneg (x : F.double) : 0 <= mag x.
Proof.
  destruct x as [s|s| |s m e]; cbn [mag]; lia.
Qed.

Lemma within_signed (sx : bool) (T : Z) (x : F.double) : within sx T x -> signed sx x.
Proof. destruct x as [s|s| |s m e]; cbn [within signed mag]; intuition lia. Qed.

Lemma within_mag (sx : bool) (T : Z) (x : F.double) : within sx T x -> 0 <= T -> mag x <= T.
Proof. destruct x as [s|s| |s m e]; cbn [within signed mag]; intuition lia. Qed.

(** A finite number of magnitude at most [2 ^ j] has an exponent of at most [j]. *)
Lemma exponent_le (m : positive) (e j : Z) :
  -298 <= e -> -298 <= j -> Zpos m * 2 ^ (e + 298) <= 2 ^ (j + 298) -> e <= j.
Proof.
  intros He Hj H. destruct (Z.le_gt_cases e j) as [|Hgt]; [assumption|]. exfalso.
  assert (2 ^ (j + 298) < 2 ^ (e + 298)) by (apply Z.pow_lt_mono_r; lia).
  pose proof (pow2_pos (e + 298) ltac:(lia)). nia.
Qed.

(** The digits of a mantissa whose value is at most [2 ^ j]. *)
Lemma digits_le (mx ex j : Z) :
  0 < mx -> -298 <= ex -> -298 <= j ->
  mx * 2 ^ (ex + 298) <= 2 ^ (j + 298) -> Zdigits2 mx + ex <= j + 1.
Proof.
  intros Hmx Hex Hj H.
  destruct mx as [|m|m]; [lia | | lia].
  - cbn [Zdigits2]. pose proof (digits_bounds m) as [Hlo _].
    set (d := Zpos (digits2_pos m)) in *.
    destruct (Z.le_gt_cases (d + ex) (j + 1)) as [|Hgt]; [assumption|]. exfalso.
    assert (E : 2 ^ (d - 1 + (ex + 298)) = 2 ^ (d - 1) * 2 ^ (ex + 298))
      by (apply pow2_split; unfold d; lia).
    assert (2 ^ (j + 298) < 2 ^ (d - 1 + (ex + 298))) by (apply Z.pow_lt_mono_r; lia).
    pose proof (pow2_pos (ex + 298) ltac:(lia)). nia.
Qed.

(** ... and below [2 ^ j]. *)
Lemma digits_lt (mx ex j : Z) :
  0 < mx -> -298 <= ex -> -298 <= j ->
  mx * 2 ^ (ex + 298) < 2 ^ (j + 298) -> Zdigits2 mx + ex <= j.
Proof.
  intros Hmx Hex Hj H.
  destruct mx as [|m|m]; [lia | | lia].
  - cbn [Zdigits2]. pose proof (digits_bounds m) as [Hlo _].
    set (d := Zpos (digits2_pos m)) in *.
    destruct (Z.le_gt_cases (d + ex) j) as [|Hgt]; [assumption|]. exfalso.
    assert (E : 2 ^ (d - 1 + (ex + 298)) = 2 ^ (d - 1) * 2 ^ (ex + 298))
      by (apply pow2_split; unfold d; lia).
    assert (2 ^ (j + 298) <= 2 ^ (d - 1 + (ex + 298))) by (apply Z.pow_le_mono_r; lia).
    pose proof (pow2_pos (ex + 298) ltac:(lia)). nia.
Qed.

Lemma Zdigits2_unique (z d : Z) : 0 < z -> 2 ^ (d - 1) <= z < 2 ^ d -> Zdigits2 z = d.
Proof.
  intros Hz [Hlo Hhi]. destruct z as [|m|m]; try lia. cbn [Zdigits2].
  pose proof (digits_bounds m) as [Dlo Dhi].
  set (d' := Zpos (digits2_pos m)) in *.
  assert (0 < d).
  { destruct (Z.lt_ge_cases 0 d); [assumption|]. exfalso.
    assert (2 ^ d <= 2 ^ 0) by (apply Z.pow_le_mono_r; lia). change (2 ^ 0) with 1 in *. lia. }
  destruct (Z.lt_trichotomy d' d) as [Hlt|[Heq|Hgt]]; [exfalso|assumption|exfalso].
  - assert (2 ^ d' <= 2 ^ (d - 1)) by (apply Z.pow_le_mono_r; lia). lia.
  - assert (2 ^ d <= 2 ^ (d' - 1)) by (apply Z.pow_le_mono_r; lia). lia.
Qed.

Lemma Zdigits2_shift (m : positive) (k : Z) :
  0 <= k -> Zdigits2 (Zpos m * 2 ^ k) = Zpos (digits2_pos m) + k.
Proof.
  intros Hk. pose proof (digits_bounds m) as [Dlo Dhi].
  pose proof (pow2_pos k Hk).
  apply Zdigits2_unique; [lia|].
  replace (Zpos (digits2_pos m) + k - 1) with (Zpos (digits2_pos m) - 1 + k) by lia.
  rewrite !pow2_split by lia. nia.
Qed.

(** ** Aligning mantissas *)

Lemma iter_xO (m d : positive) : Zpos (Pos.iter xO m d) = Zpos m * 2 ^ Zpos d.
Proof.
  change (Pos.iter xO m d) with (shift_pos d m).
  rewrite shift_pos_correct. change (Zpower_pos 2 d) with (2 ^ Zpos d). lia.
Qed.

Lemma shl_align_spec (mx : positive) (ex ex' : Z) :
  snd (shl_align mx ex ex') = Z.min ex ex'
  /\ Zpos (fst (shl_align mx ex ex')) = Zpos mx * 2 ^ (ex - Z.min ex ex').
Proof.
  unfold shl_align. destruct (ex' - ex) as [|d|d] eqn:E; cbn [fst snd].
  - replace (Z.min ex ex') with ex by lia. rewrite Z.sub_diag. cbn. lia.
  - replace (Z.min ex ex') with ex by lia. rewrite Z.sub_diag. cbn. lia.
  - replace (Z.min ex ex') with ex' by lia. split; [reflexivity|].
    rewrite iter_xO. f_equal. f_equal. lia.
Qed.

(** The grid [binary_round_aux] rounds to. *)
Lemma grid_le (mx ex j g : Z) :
  0 <= mx -> -298 <= ex -> -298 <= j ->
  mx * 2 ^ (ex + 298) <= 2 ^ (j + 298) ->
  ex <= g -> j - 23 <= g -> -149 <= g ->
  ex + shift_of mx ex <= g.
Proof.
  intros Hmx Hex Hj H Hg1 Hg2 Hg3. rewrite shift_of_grid.
  destruct (Z.eq_dec mx 0) as [->|Hne]; [cbn [Zdigits2]; lia|].
  pose proof (digits_le mx ex j ltac:(lia) Hex Hj H). lia.
Qed.

Lemma grid_lt (mx ex j g : Z) :
  0 <= mx -> -298 <= ex -> -298 <= j ->
  mx * 2 ^ (ex + 298) < 2 ^ (j + 298) ->
  ex <= g -> j - 24 <= g -> -149 <= g ->
  ex + shift_of mx ex <= g.
Proof.
  intros Hmx Hex Hj H Hg1 Hg2 Hg3. rewrite shift_of_grid.
  destruct (Z.eq_dec mx 0) as [->|Hne]; [cbn [Zdigits2]; lia|].
  pose proof (digits_lt mx ex j ltac:(lia) Hex Hj H). lia.
Qed.

(** [binary_round] first pads the mantissa: its grid depends on the value only. *)
Lemma binary_round_eq (sx : bool) (m : positive) (ex : Z) :
  exists (mz : positive) (ez : Z),
    binary_round F.prec F.emax sx m ex
    = binary_round_aux F.prec F.emax sx (Zpos mz) ez loc_Exact
    /\ ez = Z.min ex (fexp F.prec F.emax (Zpos (digits2_pos m) + ex))
    /\ Zpos mz = Zpos m * 2 ^ (ex - ez)
    /\ ez + shift_of (Zpos mz) ez = fexp F.prec F.emax (Zpos (digits2_pos m) + ex).
Proof.
  unfold binary_round.
  pose proof (shl_align_spec m ex (fexp F.prec F.emax (Zpos (digits2_pos m) + ex)))
    as [He Hm].
  destruct (shl_align m ex _) as [mz ez]. cbn [fst snd] in *.
  exists mz, ez. split; [reflexivity|]. split; [exact He|].
  rewrite <- He in Hm. split; [exact Hm|].
  rewrite shift_of_grid. rewrite Hm.
  rewrite Zdigits2_shift by lia. rewrite fexp_eq in *. lia.
Qed.

(** Rounding a value against a bound on its grid. *)
Lemma binary_round_within (sx : bool) (m : positive) (ex c g : Z) :
  -298 <= ex ->
  fexp F.prec F.emax (Zpos (digits2_pos m) + ex) <= g <= 103 ->
  Zpos m * 2 ^ (ex + 298) <= c * 2 ^ (g + 298) ->
  within sx (c * 2 ^ (g + 298)) (binary_round F.prec F.emax sx m ex).
Proof.
  intros Hex Hg HT.
  destruct (binary_round_eq sx m ex) as [mz [ez [-> [Hez [Hmz Hgrid]]]]].
  assert (Hf : -149 <= fexp F.prec F.emax (Zpos (digits2_pos m) + ex))
    by (rewrite fexp_eq; lia).
  assert (Hv : Zpos mz * 2 ^ (ez + 298) = Zpos m * 2 ^ (ex + 298)).
  { rewrite Hmz. replace (ex + 298) with (ex - ez + (ez + 298)) by lia.
    rewrite (pow2_split (ex - ez) (ez + 298)) by lia. ring. }
  apply binary_round_aux_within; try lia.
  intros Hl. now elim Hl.
Qed.

Lemma binary_round_near (sx : bool) (m : positive) (ex g : Z) :
  -298 <= ex ->
  fexp F.prec F.emax (Zpos (digits2_pos m) + ex) <= g <= 103 ->
  within sx (Zpos m * 2 ^ (ex + 298) + 2 ^ (g + 298)) (binary_round F.prec F.emax sx m ex).
Proof.
  intros Hex Hg.
  destruct (binary_round_eq sx m ex) as [mz [ez [-> [Hez [Hmz Hgrid]]]]].
  assert (Hf : -149 <= fexp F.prec F.emax (Zpos (digits2_pos m) + ex))
    by (rewrite fexp_eq; lia).
  assert (Hv : Zpos mz * 2 ^ (ez + 298) = Zpos m * 2 ^ (ex + 298)).
  { rewrite Hmz. replace (ex + 298) with (ex - ez + (ez + 298)) by lia.
    rewrite (pow2_split (ex - ez) (ez + 298)) by lia. ring. }
  rewrite <- Hv. apply binary_round_aux_near; lia.
Qed.

(** The grid of a value below [2 ^ j]. *)
Lemma fexp_lt (m : positive) (ex j : Z) :
  -298 <= ex -> -298 <= j ->
  Zpos m * 2 ^ (ex + 298) < 2 ^ (j + 298) ->
  fexp F.prec F.emax (Zpos (digits2_pos m) + ex) <= Z.max (j - 24) (-149).
Proof.
  intros Hex Hj H. rewrite fexp_eq.
  pose proof (digits_lt (Zpos m) ex j ltac:(lia) Hex Hj H) as Hd. cbn [Zdigits2] in Hd. lia.
Qed.

Lemma fexp_le (m : positive) (ex j : Z) :
  -298 <= ex -> -298 <= j ->
  Zpos m * 2 ^ (ex + 298) <= 2 ^ (j + 298) ->
  fexp F.prec F.emax (Zpos (digits2_pos m) + ex) <= Z.max (j - 23) (-149).
Proof.
  intros Hex Hj H. rewrite fexp_eq.
  pose proof (digits_le (Zpos m) ex j ltac:(lia) Hex Hj H) as Hd. cbn [Zdigits2] in Hd. lia.
Qed.

(** ** Integers as floating-point numbers *)

Lemma of_Z_nonzero (z : Z) :
  z <> 0 -> Z.abs z < 2 ^ 24 ->
  F.of_Z z = S754_finite (z <? 0) (Z.to_pos (Z.abs z * 2 ^ (24 - Zdigits2 z)))
                         (Zdigits2 z - 24).
Proof.
  assert (Hpos : forall (s : bool) (p : positive), Zpos p < 2 ^ 24 ->
            binary_round F.prec F.emax s p 0
            = S754_finite s (Z.to_pos (Zpos p * 2 ^ (24 - Zpos (digits2_pos p))))
                          (Zpos (digits2_pos p) - 24)).
  { intros s p Hp.
    assert (Hd : 1 <= Zpos (digits2_pos p) <= 24).
    { split; [lia|]. apply (Zdigits2_le (Zpos p) 24); lia. }
    destruct (binary_round_eq s p 0) as [mz [ez [-> [Hez [Hmz Hgrid]]]]].
    rewrite Z.add_0_r, fexp_eq in Hez, Hgrid.
    assert (Ez : ez = Zpos (digits2_pos p) - 24) by lia.
    rewrite binary_round_aux_exact by lia.
    f_equal; [|exact Ez].
    rewrite <- (Pos2Z.id mz). f_equal. rewrite Hmz. f_equal. f_equal. lia. }
  intros Hz Ha. unfold F.of_Z, binary_normalize.
  destruct z as [|p|p]; [congruence | |]; cbn [Z.abs Zdigits2 Z.ltb Z.compare] in *.
  - now apply Hpos.
  - now apply Hpos.
Qed.

Lemma of_Z_zero : F.of_Z 0 = S754_zero false.
Proof. reflexivity. Qed.

(** An integer below [2 ^ 24] converts exactly. *)
Lemma of_Z_exact (z : Z) :
  Z.abs z < 2 ^ 24 ->
  signed (z <? 0) (F.of_Z z) /\ mag (F.of_Z z) = Z.abs z * unity.
Proof.
  intros Ha. destruct (Z.eq_dec z 0) as [->|Hz]; [cbn; auto|].
  rewrite of_Z_nonzero by assumption.
  assert (Hd : 1 <= Zdigits2 z <= 24).
  { split.
    - destruct z; cbn; lia.
    - destruct z as [|p|p]; cbn [Zdigits2 Z.abs] in *; try lia;
        apply (Zdigits2_le (Zpos p) 24); lia. }
  cbn [signed mag]. split; [split; [reflexivity | lia]|].
  pose proof (pow2_pos (24 - Zdigits2 z) ltac:(lia)).
  rewrite Z2Pos.id by lia.
  unfold unity. replace 298 with (24 - Zdigits2 z + (Zdigits2 z - 24 + 298)) at 2 by lia.
  rewrite (pow2_split (24 - Zdigits2 z)) by lia. ring.
Qed.

(** The exponent of a converted integer below [2 ^ j]. *)
Lemma of_Z_exponent (z j : Z) :
  0 < z < 2 ^ j -> 0 <= j <= 24 ->
  exists m e, F.of_Z z = S754_finite false m e /\ -23 <= e <= j - 24.
Proof.
  intros Hz Hj.
  assert (Ha : Z.abs z < 2 ^ 24).
  { rewrite Z.abs_eq by lia. eapply Z.lt_le_trans; [apply Hz|].
    apply Z.pow_le_mono_r; lia. }
  rewrite of_Z_nonzero by lia.
  replace (z <? 0) with false by (symmetry; apply Z.ltb_ge; lia).
  eexists _, _. split; [reflexivity|].
  assert (Zdigits2 z <= j) by (apply Zdigits2_le; lia).
  assert (1 <= Zdigits2 z) by (destruct z; cbn; lia). lia.
Qed.

Lemma of_Z_digits (z : Z) :
  z <> 0 -> Z.abs z < 2 ^ 24 ->
  exists m e, F.of_Z z = S754_finite (z <? 0) m e
              /\ Zpos (digits2_pos m) = 24 /\ -23 <= e <= 0.
Proof.
  intros Hz Ha. rewrite of_Z_nonzero by assumption.
  assert (Hd : 1 <= Zdigits2 z <= 24).
  { split.
    - destruct z; cbn; lia.
    - destruct z as [|p|p]; cbn [Zdigits2 Z.abs] in *; try lia;
        apply (Zdigits2_le (Zpos p) 24); lia. }
  eexists _, _. split; [reflexivity|]. split; [|lia].
  assert (Hab : 0 < Z.abs z) by lia.
  assert (Hda : Zdigits2 z = Zdigits2 (Z.abs z)) by (destruct z; reflexivity).
  destruct (Z.abs z) as [|p|p] eqn:Ep; try lia.
  pose proof (pow2_pos (24 - Zdigits2 z) ltac:(lia)).
  change (Zpos (digits2_pos ?x)) with (Zdigits2 (Zpos x)).
  rewrite Z2Pos.id by lia. rewrite Zdigits2_shift by lia.
  rewrite Hda. cbn [Zdigits2]. lia.
Qed.

(** ** Truncation *)

Lemma trunc_mag (sx : bool) (x : F.double) :
  signed sx x -> F.trunc x = cond_Zopp sx (mag x / unity).
Proof.
  destruct x as [s|s| |s m e]; cbn [signed]; try contradiction.
  - intros _. cbn. now destruct sx.
  - intros [-> He]. cbn [mag]. unfold unity.
    destruct e as [|p|p]; cbn [F.trunc].
    + f_equal. change (0 + 298) with 298. rewrite Z.div_mul; lia.
    + f_equal. rewrite (pow2_split (Zpos p) 298) by lia.
      rewrite Z.mul_assoc, Z.div_mul; lia.
    + f_equal.
      replace 298 with (Zneg p + 298 + Zpos p) at 2 by lia.
      rewrite (pow2_split (Zneg p + 298) (Zpos p)) by lia.
      rewrite (Z.mul_comm (Zpos m)), Z.div_mul_cancel_l; lia.
Qed.

(** The truncation of a non-negative number below [n + 1]. *)
Lemma trunc_within (T n : Z) (x : F.double) :
  within false T x -> 0 <= T < (n + 1) * unity -> 0 <= F.trunc x <= n.
Proof.
  intros Hw HT.
  rewrite (trunc_mag false x (within_signed _ _ _ Hw)). cbn [cond_Zopp].
  pose proof (within_mag _ _ _ Hw (proj1 HT)) as Hm.
  pose proof (mag_nonneg x).
  assert (HU : 0 < unity) by (apply pow2_pos; lia).
  split; [apply Z.div_pos; lia|].
  assert (mag x / unity < n + 1) by (apply Z.div_lt_upper_bound; lia). lia.
Qed.

Lemma trunc_of_Z (z : Z) : Z.abs z < 2 ^ 24 -> F.trunc (F.of_Z z) = z.
Proof.
  intros Ha. destruct (of_Z_exact z Ha) as [Hs Hm].
  rewrite (trunc_mag _ _ Hs), Hm.
  assert (HU : 0 < unity) by (apply pow2_pos; lia).
  rewrite Z.div_mul by lia.
  destruct (Z.ltb_spec z 0); cbn [cond_Zopp]; lia.
Qed.

(** ** Multiplication *)

Lemma mul_comm (x y : F.double) : F.mul x y = F.mul y x.
Proof.
  unfold F.mul, SFmul.
  destruct x as [sx|sx| |sx mx ex], y as [sy|sy| |sy my ey];
    try reflexivity; try (now rewrite xorb_comm).
  now rewrite xorb_comm, Pos.mul_comm, Z.add_comm.
Qed.

Lemma unity_pos : 0 < unity.
Proof. apply pow2_pos. lia. Qed.

(** The exact product of an integer [c] and a number [v], on the scale. *)
Lemma product_scaled (c : Z) (mc mv : positive) (ec ev : Z) :
  -149 <= ec -> -149 <= ev ->
  Zpos mc * 2 ^ (ec + 298) = c * unity ->
  Zpos (mc * mv) * 2 ^ (ec + ev + 298) = c * (Zpos mv * 2 ^ (ev + 298)).
Proof.
  intros Hc Hv H.
  apply (Z.mul_reg_r _ _ unity); [pose proof unity_pos; lia|].
  rewrite Pos2Z.inj_mul.
  transitivity (Zpos mc * 2 ^ (ec + 298) * (Zpos mv * 2 ^ (ev + 298))).
  - unfold unity at 1.
    rewrite <- !Z.mul_assoc. f_equal.
    rewrite (Z.mul_comm (2 ^ (ec + 298))), <- !Z.mul_assoc. f_equal.
    rewrite <- !pow2_split by lia. f_equal. lia.
  - rewrite H. ring.
Qed.

(** [c * v <= c] for an integer [c] and [v] between 0 and 1. *)
Lemma mul_int_le (c : Z) (v : F.double) :
  0 <= c < 2 ^ 24 -> within false unity v ->
  within false (c * unity) (F.mul (F.of_Z c) v).
Proof.
  intros Hc Hv. pose proof unity_pos as HU.
  destruct (Z.eq_dec c 0) as [->|Hc0].
  { rewrite of_Z_zero.
    destruct v as [sv|sv| |sv mv ev]; cbn [within] in *; try contradiction.
    - subst. reflexivity.
    - destruct Hv as [-> _]. reflexivity. }
  destruct (of_Z_digits c Hc0 ltac:(lia)) as [mc [ec [Ec [_ Hec]]]].
  destruct (of_Z_exact c ltac:(lia)) as [_ Hm].
  rewrite Z.abs_eq in Hm by lia. rewrite Ec in *. cbn [mag] in Hm.
  replace (c <? 0) with false by (symmetry; apply Z.ltb_ge; lia).
  destruct v as [sv|sv| |sv mv ev]; cbn [within] in *; try contradiction.
  { subst. reflexivity. }
  destruct Hv as [-> [Hev Hmv]].
  unfold F.mul, SFmul. cbn [xorb].
  assert (Hev0 : ev <= 0) by (apply (exponent_le mv ev 0); [lia | lia | exact Hmv]).
  pose proof (product_scaled c mc mv ec ev ltac:(lia) ltac:(lia) Hm) as HP.
  replace (c * unity) with (c * 2 ^ (0 + 298)) by reflexivity.
  assert (Hle : Zpos (mc * mv) * 2 ^ (ec + ev + 298) <= c * 2 ^ (0 + 298)).
  { rewrite HP. apply Z.mul_le_mono_nonneg_l; [lia | exact Hmv]. }
  apply binary_round_aux_within; try lia.
  - split; [|lia].
    apply (grid_lt _ _ 24); lia.
  - intros Hl. now elim Hl.
Qed.

(** [c * v] is rounded up by less than [2 ^ -16] when [c <= 255] and [v <= 1]. *)
Lemma mul_int_near (c : Z) (v : F.double) :
  0 <= c <= 255 -> within false unity v ->
  within false (c * mag v + 2 ^ 282) (F.mul (F.of_Z c) v).
Proof.
  intros Hc Hv. pose proof unity_pos as HU.
  assert (H282 : 0 < 2 ^ 282) by (apply pow2_pos; lia).
  destruct (Z.eq_dec c 0) as [->|Hc0].
  { rewrite of_Z_zero.
    destruct v as [sv|sv| |sv mv ev]; cbn [within] in *; try contradiction.
    - subst. reflexivity.
    - destruct Hv as [-> _]. reflexivity. }
  destruct (of_Z_exponent c 8 ltac:(change (2 ^ 8) with 256; lia) ltac:(lia))
    as [mc [ec [Ec Hec]]].
  destruct (of_Z_exact c ltac:(change (2 ^ 24) with 16777216; lia)) as [_ Hm].
  rewrite Z.abs_eq in Hm by lia. rewrite Ec in *. cbn [mag] in Hm.
  destruct v as [sv|sv| |sv mv ev]; cbn [within mag] in *; try contradiction.
  { subst. reflexivity. }
  destruct Hv as [-> [Hev Hmv]].
  unfold F.mul, SFmul. cbn [xorb].
  assert (Hev0 : ev <= 0) by (apply (exponent_le mv ev 0); [lia | lia | exact Hmv]).
  pose proof (product_scaled c mc mv ec ev ltac:(lia) ltac:(lia) Hm) as HP.
  rewrite <- HP. change 282 with (-16 + 298).
  apply binary_round_aux_near; try lia.
  split; [|lia].
  apply (grid_lt _ _ 8); try lia.
  rewrite HP. rewrite (pow2_split 8 298) by lia. fold unity.
  change (2 ^ 8) with 256. nia.
Qed.

(** Multiplying a normal number by 1.0 changes nothing. *)
Lemma mul_one_exact (s : bool) (m : positive) (e : Z) :
  Zpos (digits2_pos m) = 24 -> -149 <= e <= 104 ->
  F.mul F.one (S754_finite s m e) = S754_finite s m e.
Proof.
  intros Hd He. change F.one with (S754_finite false 8388608 (-23)).
  unfold F.mul, SFmul. cbn [xorb].
  destruct (binary_round_aux_spec s (Zpos (8388608 * m)) (-23 + e) loc_Exact ltac:(lia))
    as [m1 [_ [Hex ->]]].
  assert (Hdig : Zdigits2 (Zpos (8388608 * m)) = 47).
  { rewrite Pos2Z.inj_mul, Z.mul_comm. change (Zpos 8388608) with (2 ^ 23).
    rewrite Zdigits2_shift by lia. lia. }
  assert (HN : shift_of (Zpos (8388608 * m)) (-23 + e) = 23).
  { unfold shift_of. rewrite Hdig, fexp_eq. lia. }
  rewrite HN in *.
  assert (Hq : Zpos (8388608 * m) / 2 ^ 23 = Zpos m).
  { rewrite Pos2Z.inj_mul, Z.mul_comm. change (Zpos 8388608) with (2 ^ 23).
    apply Z.div_mul. lia. }
  rewrite Hq in Hex. rewrite Hex; [|reflexivity|].
  2:{ rewrite Pos2Z.inj_mul, Z.mul_comm. change (Zpos 8388608) with (2 ^ 23).
      apply Z.mod_mul. lia. }
  assert (HN2 : shift_of (Zpos m) (-23 + e + 23) = 0).
  { unfold shift_of. cbn [Zdigits2]. rewrite Hd, fexp_eq. lia. }
  rewrite HN2, Z.pow_0_r, Z.div_1_r, Z.add_0_r.
  replace (-23 + e + 23) with e by lia.
  destruct (Z.leb_spec e 104); [reflexivity | lia].
Qed.

Lemma mul_one_of_Z (z : Z) : Z.abs z < 2 ^ 24 -> F.mul F.one (F.of_Z z) = F.of_Z z.
Proof.
  intros Ha. destruct (Z.eq_dec z 0) as [->|Hz]; [reflexivity|].
  destruct (of_Z_digits z Hz Ha) as [m [e [-> [Hd He]]]].
  apply mul_one_exact; lia.
Qed.

(** ** Division *)

Lemma new_location_exact (n : Z) : new_location n 0 = loc_Exact.
Proof. unfold new_location. destruct (Z.even n); reflexivity. Qed.

(** The quotient [SFdiv] hands to the rounding. *)
Lemma div_core_spec (mx my : positive) (ex ey : Z) :
  let e' := Z.min (fexp F.prec F.emax (Zpos (digits2_pos mx) + ex
                                       - (Zpos (digits2_pos my) + ey))) (ex - ey) in
  exists q r : Z,
    SFdiv_core_binary F.prec F.emax (Zpos mx) ex (Zpos my) ey = (q, e', new_location (Zpos my) r)
    /\ 0 <= q /\ 0 <= r < Zpos my
    /\ Zpos mx * 2 ^ (ex - ey - e') = q * Zpos my + r.
Proof.
  intros e'. unfold SFdiv_core_binary. cbn [Zdigits2]. fold e'.
  assert (Hs : 0 <= ex - ey - e') by (unfold e'; lia).
  set (m' := match ex - ey - e' with
             | 0 => Zpos mx
             | Zpos _ => Z.shiftl (Zpos mx) (ex - ey - e')
             | Zneg _ => 0
             end).
  assert (Hm' : m' = Zpos mx * 2 ^ (ex - ey - e')).
  { unfold m'. destruct (ex - ey - e') as [|p|p] eqn:E.
    - rewrite Z.pow_0_r. lia.
    - rewrite Z.shiftl_mul_pow2 by lia. reflexivity.
    - lia. }
  pose proof (Z_div_mod m' (Zpos my) ltac:(lia)) as Hdm.
  destruct (Z.div_eucl m' (Zpos my)) as [q r]. destruct Hdm as [Hdm Hr].
  exists q, r. split; [reflexivity|].
  assert (Hm0 : 0 <= m').
  { rewrite Hm'. pose proof (pow2_pos _ Hs). lia. }
  split; [nia|]. split; [lia|]. rewrite <- Hm'. lia.
Qed.

(** [|x / y| <= 1] when [|x| <= |y|]. *)
Lemma div_le_one (sx sy : bool) (x : F.double) (my : positive) (ey : Z) :
  signed sx x -> -149 <= ey <= 104 ->
  mag x <= Zpos my * 2 ^ (ey + 298) ->
  within (xorb sx sy) unity (F.div x (S754_finite sy my ey)).
Proof.
  intros Hx Hey Hle.
  destruct x as [sx'|sx'| |sx' mx ex]; cbn [signed] in Hx; try contradiction.
  { subst. reflexivity. }
  destruct Hx as [-> Hex]. cbn [mag] in Hle.
  unfold F.div, SFdiv.
  destruct (div_core_spec mx my ex ey) as [q [r [-> [Hq [Hr Hqr]]]]].
  set (e' := Z.min _ (ex - ey)) in *.
  pose proof (pow2_pos (ex + 298) ltac:(lia)) as HPx.
  pose proof (pow2_pos (ey + 298) ltac:(lia)) as HPy.
  (* the digits of x are not more than those of y *)
  assert (Hd : Zpos (digits2_pos mx) + ex <= Zpos (digits2_pos my) + ey).
  { pose proof (digits_bounds my) as [_ Hhi].
    apply (digits_lt (Zpos mx) ex (Zpos (digits2_pos my) + ey)); try lia.
    eapply Z.le_lt_trans; [exact Hle|].
    replace (Zpos (digits2_pos my) + ey + 298) with (Zpos (digits2_pos my) + (ey + 298)) by lia.
    rewrite (pow2_split (Zpos (digits2_pos my)) (ey + 298)) by lia.
    apply Z.mul_lt_mono_pos_r; assumption. }
  assert (He'hi : e' <= -24) by (unfold e'; rewrite fexp_eq; lia).
  assert (He'lo : -298 <= e') by (unfold e'; rewrite fexp_eq; lia).
  (* the quotient is at most 2 ^ - e' *)
  assert (Hs : 0 <= ex - ey - e') by (unfold e'; lia).
  pose proof (pow2_pos _ Hs) as HPs.
  pose proof (pow2_pos (- e') ltac:(lia)) as HPe.
  assert (Hmx : Zpos mx * 2 ^ (ex - ey - e') <= Zpos my * 2 ^ (- e')).
  { apply (Z.mul_le_mono_pos_r _ _ (2 ^ (ey + 298))); [lia|].
    rewrite <- !Z.mul_assoc, <- !pow2_split by lia.
    replace (ex - ey - e' + (ey + 298)) with (ex + 298 + - e') by lia.
    replace (- e' + (ey + 298)) with (ey + 298 + - e') by lia.
    rewrite (pow2_split (ex + 298) (- e')), (pow2_split (ey + 298) (- e')) by lia.
    rewrite !Z.mul_assoc. apply Z.mul_le_mono_pos_r; assumption. }
  assert (Hq1 : q <= 2 ^ (- e')).
  { apply (Z.mul_le_mono_pos_r _ _ (Zpos my)); lia. }
  assert (Hq2 : r <> 0 -> q < 2 ^ (- e')).
  { intros Hr0. apply (Z.mul_lt_mono_pos_r (Zpos my)); lia. }
  assert (E : 2 ^ (0 + 298) = 2 ^ (- e') * 2 ^ (e' + 298)).
  { rewrite <- pow2_split by lia. f_equal. lia. }
  pose proof (pow2_pos (e' + 298) ltac:(lia)) as HPe'.
  replace unity with (1 * 2 ^ (0 + 298)) by (unfold unity; cbn [Z.add]; lia).
  apply binary_round_aux_within; try lia.
  - split; [|lia]. apply (grid_le _ _ 0); try lia. rewrite E. nia.
  - rewrite E. nia.
  - intros Hl. rewrite E.
    assert (r <> 0).
    { intros ->. apply Hl. apply new_location_exact. }
    specialize (Hq2 H). nia.
Qed.

(** [x / x = 1]. *)
Lemma div_self (s : bool) (m : positive) (e : Z) :
  F.div (S754_finite s m e) (S754_finite s m e) = F.one.
Proof.
  unfold F.div, SFdiv.
  destruct (div_core_spec m m e e) as [q [r [-> [Hq [Hr Hqr]]]]].
  replace (Zpos (digits2_pos m) + e - (Zpos (digits2_pos m) + e)) with 0 in * by lia.
  rewrite Z.sub_diag in *.
  change (Z.min (fexp F.prec F.emax 0) 0) with (-24) in *.
  change (0 - -24) with 24 in Hqr.
  assert (Hq24 : q = 2 ^ 24) by nia.
  assert (Hr0 : r = 0) by nia.
  subst q r. rewrite new_location_exact. now destruct s.
Qed.

(** Halving a normal number is exact. *)
Lemma div_two_exact (m : positive) (e : Z) :
  Zpos (digits2_pos m) = 24 -> -147 <= e <= 104 ->
  F.div (S754_finite false m e) F.two = S754_finite false m (e - 1).
Proof.
  intros Hd He. change F.two with (S754_finite false 8388608 (-22)).
  unfold F.div, SFdiv. cbn [xorb].
  destruct (div_core_spec m 8388608 e (-22)) as [q [r [-> [Hq [Hr Hqr]]]]].
  rewrite Hd in *. change (Zpos (digits2_pos 8388608)) with 24 in *.
  rewrite fexp_eq in *.
  replace (Z.min (Z.max (24 + e - (24 + -22) - 24) (-149)) (e - -22)) with (e - 2) in * by lia.
  replace (e - -22 - (e - 2)) with 24 in Hqr by lia.
  change (Zpos 8388608) with (2 ^ 23) in *.
  change (2 ^ 24) with (2 * 2 ^ 23) in Hqr.
  assert (Hq2 : q = 2 * Zpos m) by nia.
  assert (Hr0 : r = 0) by nia.
  subst q r. rewrite new_location_exact.
  destruct (binary_round_aux_spec false (2 * Zpos m) (e - 2) loc_Exact ltac:(lia))
    as [m1 [_ [Hex ->]]].
  assert (HN : shift_of (2 * Zpos m) (e - 2) = 1).
  { unfold shift_of. rewrite Z.mul_comm. change 2 with (2 ^ 1) at 1.
    rewrite Zdigits2_shift by lia. rewrite Hd, fexp_eq. lia. }
  rewrite HN in *. change (2 ^ 1) with 2 in *.
  assert (Hq' : 2 * Zpos m / 2 = Zpos m) by (rewrite Z.mul_comm; apply Z.div_mul; lia).
  rewrite Hq' in Hex. rewrite Hex; [|reflexivity|].
  2:{ rewrite Z.mul_comm. apply Z.mod_mul. lia. }
  assert (HN2 : shift_of (Zpos m) (e - 2 + 1) = 0).
  { unfold shift_of. cbn [Zdigits2]. rewrite Hd, fexp_eq. lia. }
  rewrite HN2, Z.pow_0_r, Z.div_1_r, Z.add_0_r.
  replace (e - 2 + 1) with (e - 1) by lia.
  destruct (Z.leb_spec (e - 1) 104); [reflexivity | lia].
Qed.

(** ** Addition and subtraction *)

Lemma aligned (m : positive) (e ez : Z) :
  Zpos (fst (shl_align m e (Z.min e ez))) = Zpos m * 2 ^ (e - Z.min e ez).
Proof.
  destruct (shl_align_spec m e (Z.min e ez)) as [_ H]. rewrite H.
  f_equal. f_equal. lia.
Qed.

Lemma sub_finite (sx sy : bool) (mx my : positive) (ex ey : Z) :
  F.sub (S754_finite sx mx ex) (S754_finite sy my ey)
  = binary_normalize F.prec F.emax
      (cond_Zopp sx (Zpos mx * 2 ^ (ex - Z.min ex ey))
       - cond_Zopp sy (Zpos my * 2 ^ (ey - Z.min ex ey)))
      (Z.min ex ey) false.
Proof.
  unfold F.sub, SFsub. cbv zeta.
  rewrite (aligned mx ex ey).
  rewrite (Z.min_comm ex ey) at 2. rewrite (aligned my ey ex).
  now rewrite (Z.min_comm ey ex).
Qed.

Lemma add_finite (sx sy : bool) (mx my : positive) (ex ey : Z) :
  F.add (S754_finite sx mx ex) (S754_finite sy my ey)
  = binary_normalize F.prec F.emax
      (cond_Zopp sx (Zpos mx * 2 ^ (ex - Z.min ex ey))
       + cond_Zopp sy (Zpos my * 2 ^ (ey - Z.min ex ey)))
      (Z.min ex ey) false.
Proof.
  unfold F.add, SFadd. cbv zeta.
  rewrite (aligned mx ex ey).
  rewrite (Z.min_comm ex ey) at 2. rewrite (aligned my ey ex).
  now rewrite (Z.min_comm ey ex).
Qed.

(** An aligned mantissa on the scale. *)
Lemma aligned_scaled (m : positive) (e ez : Z) :
  -298 <= ez <= e ->
  Zpos m * 2 ^ (e - ez) * 2 ^ (ez + 298) = Zpos m * 2 ^ (e + 298).
Proof.
  intros H. rewrite <- Z.mul_assoc, <- pow2_split by lia. f_equal. f_equal. lia.
Qed.

(** [x - y <= x] for [0 <= y <= x]. *)
Lemma sub_le (mx : positive) (ex : Z) (y : F.double) :
  Zpos mx < 2 ^ 24 -> -149 <= ex <= 103 ->
  signed false y -> mag y <= Zpos mx * 2 ^ (ex + 298) ->
  within false (Zpos mx * 2 ^ (ex + 298)) (F.sub (S754_finite false mx ex) y).
Proof.
  intros Hmx Hex Hy Hle.
  pose proof (pow2_pos (ex + 298) ltac:(lia)) as HPx.
  destruct y as [sy|sy| |sy my ey]; cbn [signed] in Hy; try contradiction.
  { cbn. repeat split; lia. }
  destruct Hy as [-> Hey]. cbn [mag] in Hle.
  rewrite sub_finite. cbn [cond_Zopp].
  set (ez := Z.min ex ey).
  pose proof (aligned_scaled mx ex ez ltac:(unfold ez; lia)) as Ax.
  pose proof (aligned_scaled my ey ez ltac:(unfold ez; lia)) as Ay.
  pose proof (pow2_pos (ez + 298) ltac:(unfold ez; lia)) as HPz.
  set (D := Zpos mx * 2 ^ (ex - ez) - Zpos my * 2 ^ (ey - ez)).
  assert (HD : D * 2 ^ (ez + 298) = Zpos mx * 2 ^ (ex + 298) - Zpos my * 2 ^ (ey + 298)).
  { unfold D. rewrite Z.mul_sub_distr_r. lia. }
  assert (HD0 : 0 <= D) by nia.
  destruct D as [|d|d] eqn:ED; [reflexivity | | lia].
  cbn [binary_normalize].
  apply binary_round_within; [unfold ez; lia | |].
  - assert (Hlt : Zpos d * 2 ^ (ez + 298) < 2 ^ (24 + ex + 298)).
    { rewrite HD. replace (24 + ex + 298) with (24 + (ex + 298)) by lia.
      rewrite (pow2_split 24 (ex + 298)) by lia.
      pose proof (pow2_pos (ey + 298) ltac:(lia)). nia. }
    pose proof (fexp_lt d ez (24 + ex) ltac:(unfold ez; lia) ltac:(lia) Hlt). lia.
  - rewrite HD. pose proof (pow2_pos (ey + 298) ltac:(lia)). lia.
Qed.

(** [1 - f] for [0 <= f <= 1] is at most 1, and rounded up by less than [2 ^ -24]. *)
Lemma one_minus (f : F.double) :
  signed false f -> mag f <= unity ->
  within false unity (F.sub F.one f)
  /\ within false (unity - mag f + 2 ^ 274) (F.sub F.one f).
Proof.
  intros Hf Hle. pose proof unity_pos as HU.
  assert (H274 : 0 < 2 ^ 274) by (apply pow2_pos; lia).
  change F.one with (S754_finite false 8388608 (-23)).
  assert (Hone : Zpos 8388608 * 2 ^ (-23 + 298) = unity) by reflexivity.
  split.
  { rewrite <- Hone. apply sub_le; [reflexivity | lia | exact Hf | now rewrite Hone]. }
  destruct f as [sf|sf| |sf mf ef]; cbn [signed] in Hf; try contradiction.
  { cbn [F.sub SFsub within mag]. repeat split; lia. }
  destruct Hf as [-> Hef]. cbn [mag] in *.
  rewrite sub_finite. cbn [cond_Zopp].
  set (ez := Z.min (-23) ef).
  pose proof (aligned_scaled 8388608 (-23) ez ltac:(unfold ez; lia)) as Ax.
  pose proof (aligned_scaled mf ef ez ltac:(unfold ez; lia)) as Ay.
  pose proof (pow2_pos (ez + 298) ltac:(unfold ez; lia)) as HPz.
  pose proof (pow2_pos (ef + 298) ltac:(lia)) as HPf.
  set (D := Zpos 8388608 * 2 ^ (-23 - ez) - Zpos mf * 2 ^ (ef - ez)).
  assert (HD : D * 2 ^ (ez + 298) = unity - Zpos mf * 2 ^ (ef + 298)).
  { unfold D. rewrite Z.mul_sub_distr_r. lia. }
  assert (HD0 : 0 <= D) by nia.
  destruct D as [|d|d] eqn:ED; [cbn; lia | | lia].
  cbn [binary_normalize]. rewrite <- HD. change 274 with (-24 + 298).
  apply binary_round_near; [unfold ez; lia |].
  assert (Hlt : Zpos d * 2 ^ (ez + 298) < 2 ^ (0 + 298)).
  { rewrite HD. change (2 ^ (0 + 298)) with unity. lia. }
  pose proof (fexp_lt d ez 0 ltac:(unfold ez; lia) ltac:(lia) Hlt).
  rewrite fexp_eq in *. lia.
Qed.

Lemma ltb_not_positive (x : F.double) : not_positive x -> F.ltb F.zero x = false.
Proof. destruct x as [s|s| |s m e]; cbn; try reflexivity; now intros ->. Qed.

Lemma round_sign (sx : bool) (mx ex : Z) (lx : location) :
  0 <= mx ->
  match binary_round_aux F.prec F.emax sx mx ex lx with
  | S754_zero s | S754_infinity s | S754_finite s _ _ => s = sx
  | S754_nan => True
  end.
Proof.
  intros H. destruct (binary_round_aux_spec sx mx ex lx H) as [m1 [_ [_ ->]]].
  destruct (m1 / 2 ^ _); try reflexivity.
  destruct (_ <=? 104); reflexivity.
Qed.

Lemma binary_round_negative (m : positive) (e : Z) :
  not_positive (binary_round F.prec F.emax true m e).
Proof.
  destruct (binary_round_eq true m e) as [mz [ez [-> _]]].
  pose proof (round_sign true (Zpos mz) ez loc_Exact ltac:(lia)) as H.
  destruct (binary_round_aux _ _ _ _ _ _); cbn; auto.
Qed.

(** [x - y] is not positive when [0 <= x <= y]. *)
Lemma sub_not_positive (x y : F.double) :
  signed false x -> signed false y -> mag x <= mag y -> not_positive (F.sub x y).
Proof.
  intros Hx Hy Hle.
  destruct x as [sx|sx| |sx mx ex], y as [sy|sy| |sy my ey];
    cbn [signed] in *; try contradiction.
  - subst. exact I.
  - destruct Hy as [-> _]. reflexivity.
  - exfalso. destruct Hx as [_ Hex]. cbn [mag] in Hle.
    pose proof (pow2_pos (ex + 298) ltac:(lia)). nia.
  - destruct Hx as [-> Hex]. destruct Hy as [-> Hey]. cbn [mag] in Hle.
    rewrite sub_finite. cbn [cond_Zopp].
    set (ez := Z.min ex ey).
    pose proof (aligned_scaled mx ex ez ltac:(unfold ez; lia)) as Ax.
    pose proof (aligned_scaled my ey ez ltac:(unfold ez; lia)) as Ay.
    pose proof (pow2_pos (ez + 298) ltac:(unfold ez; lia)) as HPz.
    set (D := Zpos mx * 2 ^ (ex - ez) - Zpos my * 2 ^ (ey - ez)).
    assert (HD : D * 2 ^ (ez + 298) = Zpos mx * 2 ^ (ex + 298) - Zpos my * 2 ^ (ey + 298)).
    { unfold D. rewrite Z.mul_sub_distr_r. lia. }
    assert (HD0 : D <= 0) by nia.
    destruct D as [|d|d] eqn:ED; [exact I | lia |].
    cbn [binary_normalize]. apply binary_round_negative.
Qed.

(** Dividing by a positive number keeps a number not positive. *)
Lemma div_not_positive (x : F.double) (my : positive) (ey : Z) :
  not_positive x -> not_positive (F.div x (S754_finite false my ey)).
Proof.
  destruct x as [sx|sx| |sx mx ex]; cbn [not_positive]; intros Hx; try exact I.
  - subst. reflexivity.
  - subst. unfold F.div, SFdiv.
    destruct (div_core_spec mx my ex ey) as [q [r [-> [Hq _]]]].
    cbn [xorb].
    pose proof (round_sign true q (Z.min (fexp F.prec F.emax
                  (Zpos (digits2_pos mx) + ex - (Zpos (digits2_pos my) + ey))) (ex - ey))
                  (new_location (Zpos my) r) Hq) as H.
    destruct (binary_round_aux _ _ _ _ _ _); cbn; auto.
Qed.

(** [a + b] for non-negative [a] and [b] with [a + b < 256] is rounded up by
    less than [2 ^ -16]. *)
Lemma add_near (a b : F.double) :
  signed false a -> signed false b -> mag a + mag b < 256 * unity ->
  within false (mag a + mag b + 2 ^ 282) (F.add a b).
Proof.
  intros Ha Hb Hlt. pose proof unity_pos as HU.
  assert (H282 : 0 < 2 ^ 282) by (apply pow2_pos; lia).
  destruct a as [sa|sa| |sa ma ea], b as [sb|sb| |sb mb eb];
    cbn [signed] in *; try contradiction.
  - subst. reflexivity.
  - destruct Hb as [-> Heb]. cbn [F.add SFadd within mag]. repeat split; lia.
  - destruct Ha as [-> Hea]. cbn [F.add SFadd within mag]. repeat split; lia.
  - destruct Ha as [-> Hea]. destruct Hb as [-> Heb]. cbn [mag] in *.
    rewrite add_finite. cbn [cond_Zopp].
    set (ez := Z.min ea eb).
    pose proof (aligned_scaled ma ea ez ltac:(unfold ez; lia)) as Ax.
    pose proof (aligned_scaled mb eb ez ltac:(unfold ez; lia)) as Ay.
    pose proof (pow2_pos (ez + 298) ltac:(unfold ez; lia)) as HPz.
    pose proof (pow2_pos (ea - ez) ltac:(unfold ez; lia)) as HPa.
    pose proof (pow2_pos (eb - ez) ltac:(unfold ez; lia)) as HPb.
    set (D := Zpos ma * 2 ^ (ea - ez) + Zpos mb * 2 ^ (eb - ez)).
    assert (HD : D * 2 ^ (ez + 298) = Zpos ma * 2 ^ (ea + 298) + Zpos mb * 2 ^ (eb + 298)).
    { unfold D. rewrite Z.mul_add_distr_r. lia. }
    assert (HD0 : 0 < D) by (unfold D; nia).
    destruct D as [|d|d] eqn:ED; [lia | | lia].
    cbn [binary_normalize]. rewrite <- HD. change 282 with (-16 + 298).
    apply binary_round_near; [unfold ez; lia |].
    assert (Hlt' : Zpos d * 2 ^ (ez + 298) < 2 ^ (8 + 298)).
    { rewrite HD. rewrite (pow2_split 8 298) by lia. fold unity.
      change (2 ^ 8) with 256. lia. }
    pose proof (fexp_lt d ez 8 ltac:(unfold ez; lia) ltac:(lia) Hlt').
    rewrite fexp_eq in *. lia.
Qed.

(** [c + 1] for [-1 <= c <= 1] is between 0 and 2. *)
Lemma add_one (s : bool) (c : F.double) :
  signed s c -> mag c <= unity -> within false (2 * unity) (F.add c F.one).
Proof.
  intros Hc Hle. pose proof unity_pos as HU.
  change F.one with (S754_finite false 8388608 (-23)).
  assert (Hone : Zpos 8388608 * 2 ^ (-23 + 298) = unity) by reflexivity.
  destruct c as [sc|sc| |sc mc ec]; cbn [signed] in Hc; try contradiction.
  { cbn [F.add SFadd within]. repeat split; lia. }
  destruct Hc as [-> Hec]. cbn [mag] in Hle.
  rewrite add_finite. cbn [cond_Zopp].
  set (ez := Z.min ec (-23)).
  pose proof (aligned_scaled mc ec ez ltac:(unfold ez; lia)) as Ax.
  pose proof (aligned_scaled 8388608 (-23) ez ltac:(unfold ez; lia)) as Ay.
  pose proof (pow2_pos (ez + 298) ltac:(unfold ez; lia)) as HPz.
  set (D := cond_Zopp s (Zpos mc * 2 ^ (ec - ez)) + Zpos 8388608 * 2 ^ (-23 - ez)).
  assert (HD : D * 2 ^ (ez + 298)
               = cond_Zopp s (Zpos mc * 2 ^ (ec + 298)) + unity).
  { unfold D. rewrite Z.mul_add_distr_r. rewrite Ay, Hone. f_equal.
    destruct s; cbn [cond_Zopp]; lia. }
  assert (HDle : D * 2 ^ (ez + 298) <= 2 * unity).
  { rewrite HD. pose proof (pow2_pos (ec + 298) ltac:(lia)).
    destruct s; cbn [cond_Zopp]; lia. }
  assert (HD0 : 0 <= D).
  { assert (0 <= D * 2 ^ (ez + 298)) by (rewrite HD; destruct s; cbn [cond_Zopp]; lia).
    nia. }
  destruct D as [|d|d] eqn:ED; [reflexivity | | lia].
  cbn [binary_normalize].
  replace (2 * unity) with (2 * 2 ^ (0 + 298)) by reflexivity.
  apply binary_round_within; [unfold ez; lia | | exact HDle].
  assert (Hle' : Zpos d * 2 ^ (ez + 298) <= 2 ^ (1 + 298)).
  { rewrite (pow2_split 1 298) by lia. exact HDle. }
  pose proof (fexp_le d ez 1 ltac:(unfold ez; lia) ltac:(lia) Hle').
  rewrite fexp_eq in *. lia.
Qed.

(** * The cross-fade *)

(** Half the period, as the code computes it. *)
Lemma half_period (pd : Z) :
  0 < pd <= C.INT_MAX ->
  exists m e, F.div (F.of_Z pd) F.two = S754_finite false m e
              /\ Zpos m < 2 ^ 24 /\ -24 <= e <= -1
              /\ 2 * (Zpos m * 2 ^ (e + 298)) = pd * unity.
Proof.
  intros Hpd. unfold C.INT_MAX in Hpd.
  assert (Ha : Z.abs pd < 2 ^ 24) by lia.
  destruct (of_Z_digits pd ltac:(lia) Ha) as [m [e [E [Hd He]]]].
  destruct (of_Z_exact pd Ha) as [_ Hm].
  rewrite E in *. replace (pd <? 0) with false in * by (symmetry; apply Z.ltb_ge; lia).
  rewrite div_two_exact by lia.
  exists m, (e - 1). split; [reflexivity|]. split.
  { pose proof (digits_bounds m). rewrite Hd in *. lia. }
  split; [lia|].
  cbn [mag] in Hm. rewrite Z.abs_eq in Hm by lia. rewrite <- Hm.
  replace (e + 298) with (1 + (e - 1 + 298)) by lia.
  rewrite (pow2_split 1 (e - 1 + 298)) by lia. change (2 ^ 1) with 2. ring.
Qed.

(** Past half the period the factor is not positive; before, it lies
    between 0 and 1. *)
Lemma factor_cases (delta : Z) (l : Led.t) :
  0 < Led.period l <= C.INT_MAX -> 0 <= delta <= C.INT_MAX ->
  (Led.period l <= 2 * delta /\ F.ltb F.zero (Led.factor delta l) = false)
  \/ (2 * delta < Led.period l /\ within false unity (Led.factor delta l)).
Proof.
  intros Hpd Hd. unfold Led.factor. pose proof unity_pos as HU.
  destruct (half_period (Led.period l) Hpd) as [m [e [-> [Hm [He Hv]]]]].
  assert (Ha : Z.abs delta < 2 ^ 24) by (unfold C.INT_MAX in Hd; lia).
  destruct (of_Z_exact delta Ha) as [Hs Hmag].
  replace (delta <? 0) with false in Hs by (symmetry; apply Z.ltb_ge; lia).
  rewrite Z.abs_eq in Hmag by lia.
  pose proof (pow2_pos (e + 298) ltac:(lia)) as HP.
  destruct (Z.le_gt_cases (Led.period l) (2 * delta)) as [Hout|Hin]; [left | right].
  - split; [exact Hout|].
    assert (Hle : Led.period l * unity <= 2 * delta * unity)
      by (apply Z.mul_le_mono_nonneg_r; lia).
    apply ltb_not_positive, div_not_positive, sub_not_positive.
    + cbn. lia.
    + exact Hs.
    + cbn [mag]. rewrite Hmag. lia.
  - split; [lia|].
    assert (Hlt : 2 * delta * unity < Led.period l * unity)
      by (apply Z.mul_lt_mono_pos_r; lia).
    assert (Hsub : within false (Zpos m * 2 ^ (e + 298))
                     (F.sub (S754_finite false m e) (F.of_Z delta)))
      by (apply sub_le; [exact Hm | lia | exact Hs | rewrite Hmag; lia]).
    change false with (xorb false false) at 1.
    apply div_le_one; [|lia|].
    + eapply within_signed. exact Hsub.
    + eapply within_mag; [exact Hsub | lia].
Qed.

(** The cross-fade of two values between 0 and 255 is between 0 and 255. *)
Lemma smooth_range (delta value : Z) (l : Led.t) :
  0 < Led.period l <= C.INT_MAX -> 0 <= delta <= C.INT_MAX ->
  0 <= Led.lastValue l <= 255 -> 0 <= value <= 255 ->
  0 <= Led.smooth delta value l <= 255.
Proof.
  intros Hpd Hd HL HR. unfold Led.smooth. pose proof unity_pos as HU.
  destruct (factor_cases delta l Hpd Hd) as [[_ ->] | [_ Hf]]; [exact HR|].
  destruct (F.ltb F.zero (Led.factor delta l)); [|exact HR].
  set (f := Led.factor delta l) in *.
  pose proof (within_signed _ _ _ Hf) as Hfs.
  pose proof (within_mag _ _ _ Hf ltac:(lia)) as Hfm.
  pose proof (mag_nonneg f) as Hf0.
  destruct (one_minus f Hfs Hfm) as [Hg1 Hg2].
  set (g := F.sub F.one f) in *.
  pose proof (within_mag _ _ _ Hg1 ltac:(lia)) as Hgm1.
  assert (H274 : 0 < 2 ^ 274) by (apply pow2_pos; lia).
  assert (H282 : 0 < 2 ^ 282) by (apply pow2_pos; lia).
  pose proof (within_mag _ _ _ Hg2 ltac:(lia)) as Hgm2.
  pose proof (mag_nonneg g) as Hg0.
  pose proof (mul_int_near (Led.lastValue l) f HL Hf) as HA.
  rewrite mul_comm in HA.
  pose proof (mul_int_near value g HR Hg1) as HB.
  rewrite mul_comm in HB.
  set (A := F.mul f (F.of_Z (Led.lastValue l))) in *.
  set (B := F.mul g (F.of_Z value)) in *.
  pose proof (within_signed _ _ _ HA) as HAs.
  pose proof (within_signed _ _ _ HB) as HBs.
  assert (HAm : mag A <= 255 * mag f + 2 ^ 282).
  { pose proof (within_mag _ _ _ HA ltac:(nia)). nia. }
  assert (HBm : mag B <= 255 * (unity - mag f + 2 ^ 274) + 2 ^ 282).
  { pose proof (within_mag _ _ _ HB ltac:(nia)). nia. }
  assert (E298 : unity = 2 ^ 16 * 2 ^ 282) by reflexivity.
  assert (E282 : 2 ^ 282 = 2 ^ 8 * 2 ^ 274) by reflexivity.
  change (2 ^ 16) with 65536 in E298. change (2 ^ 8) with 256 in E282.
  assert (Hsum : mag A + mag B < 256 * unity) by lia.
  pose proof (add_near A B HAs HBs Hsum) as HS.
  unfold F.to_int.
  pose proof (trunc_within _ 255 _ HS ltac:(pose proof (mag_nonneg A); pose proof (mag_nonneg B); lia)) as Ht.
  rewrite to_int_id; [exact Ht|]. unfold C.INT_MIN, C.INT_MAX. lia.
Qed.

Lemma sub_half (s : bool) (t : F.double) :
  signed s t -> mag t <= unity -> exists s', within s' (2 * unity) (F.sub t F.half).
Proof.
  intros Ht Hle. pose proof unity_pos as HU.
  assert (Hhalf : 2 * (Zpos 8388608 * 2 ^ (-24 + 298)) = unity) by reflexivity.
  unfold F.half.
  destruct t as [st|st| |st mt et]; cbn [signed] in Ht; try contradiction.
  { exists true. cbn [F.sub SFsub negb within]. repeat split; lia. }
  destruct Ht as [-> Het]. cbn [mag] in Hle.
  rewrite sub_finite. cbn [cond_Zopp].
  set (ez := Z.min et (-24)).
  pose proof (aligned_scaled mt et ez ltac:(unfold ez; lia)) as Ax.
  pose proof (aligned_scaled 8388608 (-24) ez ltac:(unfold ez; lia)) as Ay.
  pose proof (pow2_pos (ez + 298) ltac:(unfold ez; lia)) as HPz.
  pose proof (pow2_pos (et + 298) ltac:(lia)) as HPt.
  set (D := cond_Zopp s (Zpos mt * 2 ^ (et - ez)) - Zpos 8388608 * 2 ^ (-24 - ez)).
  assert (HD : D * 2 ^ (ez + 298)
               = cond_Zopp s (Zpos mt * 2 ^ (et + 298)) - Zpos 8388608 * 2 ^ (-24 + 298)).
  { unfold D. rewrite Z.mul_sub_distr_r. rewrite Ay. f_equal.
    destruct s; cbn [cond_Zopp]; lia. }
  assert (Habs : Z.abs D * 2 ^ (ez + 298) <= 2 * 2 ^ (0 + 298)).
  { change (2 ^ (0 + 298)) with unity.
    replace (Z.abs D * 2 ^ (ez + 298)) with (Z.abs (D * 2 ^ (ez + 298)))
      by (rewrite Z.abs_mul, (Z.abs_eq (2 ^ _)); lia).
    rewrite HD. destruct s; cbn [cond_Zopp]; lia. }
  assert (Hround : forall (s' : bool) (d : positive), Zpos d = Z.abs D ->
            within s' (2 * unity) (binary_round F.prec F.emax s' d ez)).
  { intros s' d Hd. rewrite <- Hd in Habs.
    replace (2 * unity) with (2 * 2 ^ (0 + 298)) by reflexivity.
    apply binary_round_within; [unfold ez; lia | | exact Habs].
    assert (Hle' : Zpos d * 2 ^ (ez + 298) <= 2 ^ (1 + 298)).
    { rewrite (pow2_split 1 298) by lia. exact Habs. }
    pose proof (fexp_le d ez 1 ltac:(unfold ez; lia) ltac:(lia) Hle').
    rewrite fexp_eq in *. lia. }
  destruct D as [|d|d] eqn:ED; cbn [binary_normalize].
  - exists false. reflexivity.
  - exists false. now apply Hround.
  - exists true. now apply Hround.
Qed.

(** [2 * M_PI * z] is a finite number when [|z| <= 2]. *)
Lemma two_pi_times (s : bool) (z : F.double) :
  within s (2 * unity) z -> exists s', signed s' (F.mul (F.mul F.two F.M_PI) z).
Proof.
  intros Hz. pose proof unity_pos as HU.
  change (F.mul F.two F.M_PI) with (S754_finite false 13176795 (-21)).
  destruct z as [sz|sz| |sz mz ez]; cbn [within] in Hz; try contradiction.
  { exists (xorb false sz). reflexivity. }
  destruct Hz as [-> [Hez Hm]].
  exists (xorb false s). unfold F.mul, SFmul.
  assert (Hez1 : ez <= 1).
  { apply (exponent_le mz ez 1); [lia | lia |].
    rewrite (pow2_split 1 298) by lia. exact Hm. }
  pose proof (pow2_pos (ez + 298) ltac:(lia)) as HPz.
  assert (Hv : Zpos (13176795 * mz) * 2 ^ (-21 + ez + 298) <= 16 * 2 ^ (0 + 298)).
  { change (2 ^ (0 + 298)) with unity.
    apply (Z.mul_le_mono_pos_r _ _ (2 ^ 21)); [lia|].
    rewrite Pos2Z.inj_mul.
    replace (Zpos 13176795 * Zpos mz * 2 ^ (-21 + ez + 298) * 2 ^ 21)
      with (Zpos 13176795 * (Zpos mz * 2 ^ (ez + 298))).
    - change (2 ^ 21) with 2097152. lia.
    - rewrite <- !Z.mul_assoc. f_equal. f_equal.
      rewrite <- pow2_split by lia. f_equal. lia. }
  eapply within_signed.
  apply (binary_round_aux_within _ _ _ _ 16 0);
    [lia | lia | | exact Hv | intros Hl; now elim Hl].
  split; [|lia]. apply (grid_le _ _ 4); lia.
Qed.

(** ** The waveforms *)

Lemma int_abs (z : Z) : C.INT_MIN <= z <= C.INT_MAX -> Z.abs z < 2 ^ 24.
Proof. unfold C.INT_MIN, C.INT_MAX. lia. Qed.

Lemma to_int_of_Z (z : Z) : C.INT_MIN <= z <= C.INT_MAX -> F.to_int (F.of_Z z) = z.
Proof.
  intros H. unfold F.to_int. rewrite trunc_of_Z by now apply int_abs.
  now apply to_int_id.
Qed.

(** The share [v] of the way from [minBright] to [maxBright], between 0 and
    1, never takes the value out of the range. *)
Lemma scaled_step (mn mx : Z) (v : F.double) :
  0 <= mn <= mx -> mx <= 255 -> within false unity v ->
  mn <= C.to_int (mn + F.to_int (F.mul (F.of_Z (C.to_int (mx - mn))) v)) <= mx.
Proof.
  intros Hmn Hmx Hv. pose proof unity_pos as HU.
  rewrite (to_int_id (mx - mn)) by (unfold C.INT_MIN, C.INT_MAX; lia).
  pose proof (mul_int_le (mx - mn) v ltac:(lia) Hv) as Hw.
  pose proof (trunc_within _ (mx - mn) _ Hw ltac:(nia)) as Ht.
  unfold F.to_int.
  rewrite (to_int_id (F.trunc _)) by (unfold C.INT_MIN, C.INT_MAX; lia).
  rewrite to_int_id by (unfold C.INT_MIN, C.INT_MAX; lia). lia.
Qed.

Lemma ramp_share (pd delta : Z) :
  0 < pd <= C.INT_MAX -> 0 <= delta <= C.INT_MAX ->
  within false unity (F.div (F.mul F.one (F.of_Z (Z.min pd delta))) (F.of_Z pd)).
Proof.
  intros Hpd Hd.
  assert (Ha : C.INT_MIN <= Z.min pd delta <= C.INT_MAX) by (unfold C.INT_MIN; lia).
  rewrite mul_one_of_Z by now apply int_abs.
  destruct (of_Z_digits pd ltac:(lia) (int_abs pd ltac:(unfold C.INT_MIN; lia)))
    as [m [e [E [_ He]]]].
  destruct (of_Z_exact pd (int_abs pd ltac:(unfold C.INT_MIN; lia))) as [_ Hm].
  destruct (of_Z_exact (Z.min pd delta) (int_abs _ Ha)) as [Hs Hma].
  rewrite E in *. replace (pd <? 0) with false in * by (symmetry; apply Z.ltb_ge; lia).
  replace (Z.min pd delta <? 0) with false in Hs by (symmetry; apply Z.ltb_ge; lia).
  cbn [mag] in Hm. rewrite Z.abs_eq in Hm, Hma by lia.
  change false with (xorb false false) at 1.
  apply div_le_one; [exact Hs | lia |].
  rewrite Hma, Hm. apply Z.mul_le_mono_nonneg_r; [pose proof unity_pos|]; lia.
Qed.

(** Once the period is over the share is exactly 1. *)
Lemma ramp_share_complete (pd delta : Z) :
  0 < pd <= C.INT_MAX -> pd <= delta ->
  F.div (F.mul F.one (F.of_Z (Z.min pd delta))) (F.of_Z pd) = F.one.
Proof.
  intros Hpd Hd. replace (Z.min pd delta) with pd by lia.
  assert (Ha : Z.abs pd < 2 ^ 24) by (apply int_abs; unfold C.INT_MIN; lia).
  rewrite mul_one_of_Z by exact Ha.
  destruct (of_Z_digits pd ltac:(lia) Ha) as [m [e [-> _]]].
  apply div_self.
Qed.

Lemma sinusoid_share (w : World) (pd r : Z) :
  cos_bounded w -> 1 < pd <= C.INT_MAX -> Z.abs r < pd ->
  let t := F.div (F.mul F.one (F.of_Z r)) (F.of_Z (C.to_int (pd - 1))) in
  let c := libm_cos w (F.mul (F.mul F.two F.M_PI) (F.sub t F.half)) in
  within false unity (F.div (F.add c F.one) F.two).
Proof.
  intros Hcos Hpd Hr t c. pose proof unity_pos as HU.
  assert (Hr' : C.INT_MIN <= r <= C.INT_MAX) by (unfold C.INT_MIN, C.INT_MAX in *; lia).
  assert (Hp1 : C.INT_MIN <= pd - 1 <= C.INT_MAX) by (unfold C.INT_MIN, C.INT_MAX in *; lia).
  assert (Ht : within (xorb (r <? 0) false) unity t).
  { unfold t. rewrite to_int_id by exact Hp1. rewrite mul_one_of_Z by now apply int_abs.
    destruct (of_Z_digits (pd - 1) ltac:(lia) (int_abs _ Hp1)) as [m [e [E [_ He]]]].
    destruct (of_Z_exact (pd - 1) (int_abs _ Hp1)) as [_ Hm].
    destruct (of_Z_exact r (int_abs _ Hr')) as [Hs Hma].
    rewrite E in *. replace (pd - 1 <? 0) with false in * by (symmetry; apply Z.ltb_ge; lia).
    cbn [mag] in Hm. rewrite (Z.abs_eq (pd - 1)) in Hm by lia.
    apply div_le_one; [exact Hs | lia |].
    rewrite Hma, Hm. apply Z.mul_le_mono_nonneg_r; lia. }
  destruct (sub_half _ t (within_signed _ _ _ Ht) (within_mag _ _ _ Ht ltac:(lia)))
    as [s1 H1].
  destruct (two_pi_times _ _ H1) as [s2 H2].
  destruct (Hcos _ _ H2) as [s3 [H3 H4]]. fold c in H3, H4.
  pose proof (add_one _ c H3 H4) as H5.
  change F.two with (S754_finite false 8388608 (-22)).
  change false with (xorb false false) at 1.
  apply div_le_one; [exact (within_signed _ _ _ H5) | lia |].
  eapply Z.le_trans; [apply (within_mag _ _ _ H5); lia|].
  apply Z.eq_le_incl. reflexivity.
Qed.

(** Past half a period of at least 0 the factor is not positive. *)
Lemma factor_outside (delta : Z) (l : Led.t) :
  0 <= Led.period l <= C.INT_MAX -> 0 <= delta <= C.INT_MAX ->
  Led.period l <= 2 * delta ->
  F.ltb F.zero (Led.factor delta l) = false.
Proof.
  intros Hpd Hd Hout.
  destruct (Z.eq_dec (Led.period l) 0) as [E|Hne].
  - unfold Led.factor. rewrite E. change (F.div (F.of_Z 0) F.two) with (S754_zero false).
    destruct (Z.eq_dec delta 0) as [->|Hd0]; [reflexivity|].
    destruct (of_Z_digits delta Hd0 (int_abs delta ltac:(unfold C.INT_MIN; lia)))
      as [m [e [-> _]]].
    replace (delta <? 0) with false by (symmetry; apply Z.ltb_ge; lia).
    reflexivity.
  - destruct (factor_cases delta l ltac:(lia) Hd) as [[_ H] | [H _]]; [exact H | lia].
Qed.

(** At the activation the factor is 1 and the cross-fade answers [lastValue]. *)
Lemma factor_at_start (l : Led.t) :
  0 < Led.period l <= C.INT_MAX -> Led.factor 0 l = F.one.
Proof.
  intros Hpd. unfold Led.factor.
  destruct (half_period (Led.period l) Hpd) as [m [e [-> _]]].
  change (F.sub (S754_finite false m e) (F.of_Z 0)) with (S754_finite false m e).
  apply div_self.
Qed.

Lemma of_Z_proper (z : Z) :
  Z.abs z < 2 ^ 24 -> F.of_Z z = S754_zero false \/ exists s m e, F.of_Z z = S754_finite s m e.
Proof.
  intros Ha. destruct (Z.eq_dec z 0) as [->|Hz]; [now left|]. right.
  rewrite of_Z_nonzero by assumption. eauto.
Qed.

Lemma smooth_at_start (value : Z) (l : Led.t) :
  0 < Led.period l <= C.INT_MAX ->
  C.INT_MIN <= Led.lastValue l <= C.INT_MAX -> C.INT_MIN <= value <= C.INT_MAX ->
  Led.smooth 0 value l = Led.lastValue l.
Proof.
  intros Hpd HL HR. unfold Led.smooth. rewrite factor_at_start by exact Hpd.
  change (F.ltb F.zero F.one) with true. cbv iota.
  rewrite mul_one_of_Z by now apply int_abs.
  change (F.sub F.one F.one) with (S754_zero false).
  assert (Hz : exists s, F.mul (S754_zero false) (F.of_Z value) = S754_zero s).
  { destruct (of_Z_proper value (int_abs _ HR)) as [-> | [s [m [e ->]]]]; cbn; eauto. }
  destruct Hz as [s ->].
  assert (Hadd : F.add (F.of_Z (Led.lastValue l)) (S754_zero s) = F.of_Z (Led.lastValue l)).
  { destruct (of_Z_proper _ (int_abs _ HL)) as [-> | [s' [m [e ->]]]].
    - now destruct s.
    - reflexivity. }
  rewrite Hadd. now apply to_int_of_Z.
Qed.

(** ** The flicker sample *)

Lemma to_long_id (z : Z) : - 2 ^ 31 <= z < 2 ^ 31 -> C.to_long z = z.
Proof.
  unfold C.to_long, C.to_signed. intros H. rewrite Z.mod_small; lia.
Qed.

Lemma random2_range (mn mx : Z) (w : World) :
  C.INT_MIN <= mn -> mn < mx -> mx <= C.INT_MAX ->
  mn <= fst (Arduino.random2 mn mx w) < mx.
Proof.
  unfold C.INT_MIN, C.INT_MAX. intros Hmn Hlt Hmx.
  unfold Arduino.random2.
  destruct (Z.geb_spec mn mx); [lia|].
  rewrite (to_long_id (mx - mn)) by lia.
  rewrite bind_run. unfold Arduino.random.
  destruct (Z.eqb_spec (mx - mn) 0); [lia|].
  rewrite bind_run. cbn [fst snd ret Arduino.random_raw].
  pose proof (Z.mod_pos_bound (entropy w (draws w)) (2 ^ 31) ltac:(lia)) as Hraw.
  pose proof (Z.rem_bound_pos (entropy w (draws w) mod 2 ^ 31) (mx - mn)
                ltac:(lia) ltac:(lia)) as Hrem.
  rewrite to_long_id by lia. lia.
Qed.

(** * The value [update] stores *)

Lemma elapsed_range (now : Z) (l : Led.t) :
  C.INT_MIN <= Led.elapsed now l <= C.INT_MAX.
Proof. apply to_int_range. Qed.

Lemma update_value (now : Z) (l : Led.t) (w : World) :
  0 <= Led.elapsed (C.to_ulong now) l ->
  Led.lastValue (fst (Led.update now l w))
  = Led.smooth (Led.elapsed (C.to_ulong now) l)
               (fst (Led.waveform (Led.elapsed (C.to_ulong now) l) l w)) l.
Proof. intros H. rewrite update_active by exact H. reflexivity. Qed.

Lemma smooth_outside (delta value : Z) (l : Led.t) :
  0 <= Led.period l <= C.INT_MAX -> 0 <= delta <= C.INT_MAX ->
  Led.period l <= 2 * delta -> Led.smooth delta value l = value.
Proof.
  intros Hpd Hd Hout. unfold Led.smooth. now rewrite factor_outside.
Qed.

(** The waveform of every mode stays within the bounds of the LED. *)
Lemma waveform_range (delta : Z) (l : Led.t) (w : World) :
  0 <= Led.minBright l <= Led.maxBright l -> Led.maxBright l <= 255 ->
  0 <= Led.lastValue l <= 255 ->
  0 < Led.period l <= C.INT_MAX ->
  (Led.mode l = LedMode.sinusoid -> 1 < Led.period l /\ cos_bounded w) ->
  0 <= delta <= C.INT_MAX ->
  let raw := fst (Led.waveform delta l w) in
  match Led.mode l with
  | LedMode.off => raw = 0
  | LedMode.on => raw = Led.maxBright l
  | LedMode.ramp | LedMode.sinusoid => Led.minBright l <= raw <= Led.maxBright l
  | LedMode.flicker =>
      if Z.rem delta 29 =? 0
      then Led.minBright l <= raw <= Led.maxBright l
           /\ (Led.minBright l < Led.maxBright l -> raw < Led.maxBright l)
      else raw = Led.lastValue l
  end.
Proof.
  intros Hmn Hmx HL Hpd Hsin Hd raw. unfold raw, Led.waveform.
  destruct (Led.mode l) eqn:Em.
  - reflexivity.
  - reflexivity.
  - cbn [fst ret]. apply scaled_step; [exact Hmn | exact Hmx |].
    now apply ramp_share.
  - destruct (Hsin eq_refl) as [Hp1 Hcos].
    rewrite bind_run. cbn [fst snd ret Arduino.cos].
    apply scaled_step; [exact Hmn | exact Hmx |].
    apply sinusoid_share; [exact Hcos | lia |].
    pose proof (Z.rem_bound_abs (C.to_int (delta + Led.phase l)) (Led.period l) ltac:(lia)).
    lia.
  - destruct (Z.rem delta 29 =? 0); [|reflexivity].
    rewrite bind_run. cbn [fst snd ret].
    destruct (Z.eq_dec (Led.minBright l) (Led.maxBright l)) as [E|Hne].
    + assert (Hr : fst (Arduino.random2 (Led.minBright l) (Led.maxBright l) w)
                   = Led.minBright l).
      { unfold Arduino.random2. rewrite E.
        destruct (Z.geb_spec (Led.maxBright l) (Led.maxBright l)); [reflexivity | lia]. }
      rewrite Hr, to_int_id by (unfold C.INT_MIN, C.INT_MAX; lia). lia.
    + pose proof (random2_range (Led.minBright l) (Led.maxBright l) w
                    ltac:(unfold C.INT_MIN; lia) ltac:(lia)
                    ltac:(unfold C.INT_MAX; lia)) as Hr.
      rewrite to_int_id by (unfold C.INT_MIN, C.INT_MAX; lia). lia.
Qed.

(** C3 (amended).  Given [0 <= minBright <= maxBright <= 255], a
    [lastValue] between 0 and 255, a period above 0 (above 1 for a sinusoid)
    and a [cos] that answers between -1 and 1, the value [update] stores is
    between 0 and 255 at every call.  Once the cross-fade is over, that is
    from half the period on, it is between [minBright] and [maxBright] for a
    ramp and a sinusoid, exactly [maxBright] for on, exactly 0 for off, and
    for a flicker it is the value before except where [elapsed % 29 == 0],
    where it is at least [minBright] and, when [minBright < maxBright],
    below [maxBright]. *)
Theorem C3_update_value_in_range :
  forall (now : Z) (l : Led.t) (w : World),
    0 <= Led.minBright l <= Led.maxBright l -> Led.maxBright l <= 255 ->
    0 <= Led.lastValue l <= 255 ->
    0 < Led.period l <= C.INT_MAX ->
    (Led.mode l = LedMode.sinusoid -> 1 < Led.period l /\ cos_bounded w) ->
    let delta := Led.elapsed (C.to_ulong now) l in
    let v := Led.lastValue (fst (Led.update now l w)) in
    0 <= v <= 255
    /\ (0 <= delta -> Led.period l <= 2 * delta ->
        match Led.mode l with
        | LedMode.off => v = 0
        | LedMode.on => v = Led.maxBright l
        | LedMode.ramp | LedMode.sinusoid => Led.minBright l <= v <= Led.maxBright l
        | LedMode.flicker =>
            if Z.rem delta 29 =? 0
            then Led.minBright l <= v <= Led.maxBright l
                 /\ (Led.minBright l < Led.maxBright l -> v < Led.maxBright l)
            else v = Led.lastValue l
        end).
Proof.
  intros now l w Hmn Hmx HL Hpd Hsin delta v.
  pose proof (elapsed_range (C.to_ulong now) l) as Hd. fold delta in Hd.
  destruct (Z.lt_ge_cases delta 0) as [Hneg|Hpos].
  { split; [|lia]. unfold v. rewrite update_idle by exact Hneg. exact HL. }
  assert (Hd' : 0 <= delta <= C.INT_MAX) by lia.
  pose proof (waveform_range delta l w Hmn Hmx HL Hpd Hsin Hd') as Hraw.
  cbv zeta in Hraw.
  assert (Hv : v = Led.smooth delta (fst (Led.waveform delta l w)) l)
    by (unfold v, delta; now apply update_value).
  set (raw := fst (Led.waveform delta l w)) in *.
  assert (Hraw255 : 0 <= raw <= 255).
  { destruct (Led.mode l); try lia.
    destruct (Z.rem delta 29 =? 0); lia. }
  split.
  - rewrite Hv. apply smooth_range; assumption.
  - intros _ Hout. rewrite Hv, smooth_outside by (assumption || lia). exact Hraw.
Qed.

Lemma C3_update_value_in_range_witness :
  let l := Led.mk 9 2000 0 0 LedMode.sinusoid 10 40 1000 25 in
  let v := Led.lastValue (fst (Led.update 3000 l sample_world)) in
  (0 <= Led.minBright l <= Led.maxBright l /\ Led.maxBright l <= 255
   /\ 0 <= Led.lastValue l <= 255 /\ 0 < Led.period l <= C.INT_MAX
   /\ 1 < Led.period l /\ cos_bounded sample_world
   /\ 0 <= Led.elapsed (C.to_ulong 3000) l
   /\ Led.period l <= 2 * Led.elapsed (C.to_ulong 3000) l)
  /\ 0 <= v <= 255 /\ Led.minBright l <= v <= Led.maxBright l.
Proof.
  intros l v.
  assert (H1 : 0 <= Led.minBright l <= Led.maxBright l) by (cbn; lia).
  assert (H2 : Led.maxBright l <= 255) by (cbn; lia).
  assert (H3 : 0 <= Led.lastValue l <= 255) by (cbn; lia).
  assert (H4 : 0 < Led.period l <= C.INT_MAX) by (vm_compute; split; [reflexivity | discriminate]).
  assert (H5 : 1 < Led.period l) by reflexivity.
  assert (H6 : cos_bounded sample_world).
  { intros x s _. exists false. split; [vm_compute; repeat split; discriminate|].
    vm_compute. discriminate. }
  assert (H7 : 0 <= Led.elapsed (C.to_ulong 3000) l) by (vm_compute; discriminate).
  assert (H8 : Led.period l <= 2 * Led.elapsed (C.to_ulong 3000) l) by (vm_compute; discriminate).
  split; [repeat split; solve [apply H1 | apply H3 | apply H4 | assumption]|].
  destruct (C3_update_value_in_range 3000 l sample_world H1 H2 H3 H4 (fun _ => conj H5 H6))
    as [Hr Hm].
  split; [exact Hr | exact (Hm H7 H8)].
Defined.

(** C3 as stated fails on the code.  Neither the cross-fade nor the period
    is bounded by its hypotheses:
    - a flicker with [minBright = maxBright = 7] stores 7 at a sampling
      instant, which is not below [maxBright];
    - an LED switched on at 255 stores 254, not [maxBright], 260 ms later, by
      the rounding of the cross-fade;
    - a flicker between 0 and 32 set on an LED that shows 255 stores 225 at
      the sampling instant 29 ms after its activation;
    - with a negative period the cross-fade extrapolates: an LED that is off
      stores 765. *)
Lemma C3_counterexample :
  (let l := Led.mk 5 500 0 0 LedMode.flicker 7 7 0 7 in
   let v := Led.lastValue (fst (Led.update 2900 l sample_world)) in
   Z.rem (Led.elapsed (C.to_ulong 2900) l) 29 = 0
   /\ Led.period l <= 2 * Led.elapsed (C.to_ulong 2900) l
   /\ v = 7 /\ ~ (Led.minBright l <= v < Led.maxBright l))
  /\ (let l := Led.mk 3 1000 0 0 LedMode.on 0 255 0 255 in
      let v := Led.lastValue (fst (Led.update 260 l sample_world)) in
      v = 254 /\ v <> Led.maxBright l)
  /\ (let l := Led.mk 5 500 0 1971 LedMode.flicker 0 32 0 255 in
      let v := Led.lastValue (fst (Led.update 2000 l sample_world)) in
      Z.rem (Led.elapsed (C.to_ulong 2000) l) 29 = 0
      /\ v = 225 /\ ~ (Led.minBright l <= v < Led.maxBright l))
  /\ (let l := Led.mk 5 (-1000) 0 0 LedMode.off 0 255 0 255 in
      let v := Led.lastValue (fst (Led.update 1000 l sample_world)) in
      v = 765 /\ ~ (0 <= v <= 255)).
Proof.
  repeat apply conj; try (vm_compute; reflexivity); vm_compute;
    try discriminate; intros [H1 H2]; try (now apply H1); now apply H2.
Qed.

Lemma set_lastValue_same (l : Led.t) : Led.set_lastValue (Led.lastValue l) l = l.
Proof. now destruct l. Qed.

(** * C7: the flicker *)

(** C7 (amended).  In the flicker mode, once the cross-fade is over (from
    half the period on), a call of [update] where [elapsed % 29] is not 0
    changes nothing and writes nothing, and a call where it is 0 stores a
    value that is at least [minBright] and below [maxBright], provided
    [minBright < maxBright]. *)
Theorem C7_flicker_after_the_cross_fade :
  forall (now : Z) (l : Led.t) (w : World),
    Led.mode l = LedMode.flicker ->
    C.INT_MIN <= Led.minBright l -> Led.maxBright l <= C.INT_MAX ->
    0 <= Led.period l <= C.INT_MAX ->
    let delta := Led.elapsed (C.to_ulong now) l in
    0 <= delta -> Led.period l <= 2 * delta ->
    (Z.rem delta 29 <> 0 -> Led.update now l w = (l, w))
    /\ (Z.rem delta 29 = 0 -> Led.minBright l < Led.maxBright l ->
        Led.minBright l <= Led.lastValue (fst (Led.update now l w)) < Led.maxBright l).
Proof.
  intros now l w Hm Hmn Hmx Hpd delta Hd Hout.
  pose proof (elapsed_range (C.to_ulong now) l) as Hr. fold delta in Hr.
  assert (Hd' : 0 <= delta <= C.INT_MAX) by lia.
  split.
  - intros Hrem. rewrite update_active by exact Hd. fold delta.
    assert (Hw : Led.waveform delta l w = (Led.lastValue l, w)).
    { unfold Led.waveform. rewrite Hm.
      destruct (Z.eqb_spec (Z.rem delta 29) 0); [contradiction | reflexivity]. }
    rewrite Hw. cbn [fst snd].
    rewrite smooth_outside by assumption.
    rewrite Z.eqb_refl. now rewrite set_lastValue_same.
  - intros Hrem Hlt. rewrite update_value by exact Hd. fold delta.
    rewrite smooth_outside by assumption.
    unfold Led.waveform. rewrite Hm, Hrem. cbn [Z.eqb].
    rewrite bind_run. cbn [fst snd ret].
    pose proof (random2_range (Led.minBright l) (Led.maxBright l) w Hmn Hlt Hmx) as Hs.
    rewrite to_int_id by (unfold C.INT_MIN, C.INT_MAX in *; lia). exact Hs.
Qed.

Lemma C7_flicker_after_the_cross_fade_witness :
  let l := Led.mk 5 500 0 1400 LedMode.flicker 0 32 1000 255 in
  (Led.mode l = LedMode.flicker
   /\ C.INT_MIN <= Led.minBright l /\ Led.maxBright l <= C.INT_MAX
   /\ 0 <= Led.period l <= C.INT_MAX
   /\ 0 <= Led.elapsed (C.to_ulong 2690) l
   /\ Led.period l <= 2 * Led.elapsed (C.to_ulong 2690) l
   /\ Z.rem (Led.elapsed (C.to_ulong 2690) l) 29 = 0
   /\ Led.minBright l < Led.maxBright l)
  /\ Led.minBright l <= Led.lastValue (fst (Led.update 2690 l sample_world))
     < Led.maxBright l.
Proof.
  intros l.
  assert (H1 : Led.mode l = LedMode.flicker) by reflexivity.
  assert (H2 : C.INT_MIN <= Led.minBright l) by (vm_compute; discriminate).
  assert (H3 : Led.maxBright l <= C.INT_MAX) by (vm_compute; discriminate).
  assert (H4 : 0 <= Led.period l <= C.INT_MAX) by (vm_compute; split; discriminate).
  assert (H5 : 0 <= Led.elapsed (C.to_ulong 2690) l) by (vm_compute; discriminate).
  assert (H6 : Led.period l <= 2 * Led.elapsed (C.to_ulong 2690) l)
    by (vm_compute; discriminate).
  assert (H7 : Z.rem (Led.elapsed (C.to_ulong 2690) l) 29 = 0) by reflexivity.
  assert (H8 : Led.minBright l < Led.maxBright l) by reflexivity.
  split; [repeat split; assumption|].
  exact (proj2 (C7_flicker_after_the_cross_fade 2690 l sample_world H1 H2 H3 H4 H5 H6) H7 H8).
Defined.

(** C7 as stated fails inside the cross-fade.  A flicker between 0 and 32 set
    on an LED that shows 255: at [elapsed = 29], a sampling instant, [update]
    stores 225.  A flicker on an LED that shows 100: at [elapsed = 334],
    which is no sampling instant, the rounding of the cross-fade moves the
    output to 99. *)
Lemma C7_counterexample :
  (let l := Led.mk 5 500 0 1971 LedMode.flicker 0 32 0 255 in
   let r := Led.update 2000 l sample_world in
   Led.elapsed (C.to_ulong 2000) l = 29
   /\ Led.lastValue (fst r) = 225
   /\ ~ (Led.minBright l <= Led.lastValue (fst r) < Led.maxBright l))
  /\ (let l := Led.mk 3 1000 0 0 LedMode.flicker 0 128 0 100 in
      let r := Led.update 334 l sample_world in
      Z.rem (Led.elapsed (C.to_ulong 334) l) 29 <> 0
      /\ Led.lastValue (fst r) = 99
      /\ Led.lastValue (fst r) <> Led.lastValue l
      /\ trace (snd r) = [AnalogWrite 3 99]).
Proof.
  split.
  - vm_compute. repeat split. intros [_ H]. discriminate.
  - vm_compute. repeat split; discriminate.
Qed.

(** * C4: what the mode-setting operations do to the output *)

Lemma waveform_trace (delta : Z) (l : Led.t) (w : World) :
  trace (snd (Led.waveform delta l w)) = trace w.
Proof.
  unfold Led.waveform.
  destruct (Led.mode l); try reflexivity.
  destruct (Z.rem delta 29 =? 0); [|reflexivity].
  unfold Arduino.random2, Arduino.random.
  destruct (Led.minBright l >=? Led.maxBright l); [reflexivity|].
  destruct (_ =? 0); reflexivity.
Qed.

Lemma waveform_int (delta : Z) (l : Led.t) (w : World) :
  C.INT_MIN <= Led.maxBright l <= C.INT_MAX ->
  C.INT_MIN <= Led.lastValue l <= C.INT_MAX ->
  C.INT_MIN <= fst (Led.waveform delta l w) <= C.INT_MAX.
Proof.
  intros Hmx HL. unfold Led.waveform.
  destruct (Led.mode l); cbn [ret fst]; try assumption.
  - unfold C.INT_MIN, C.INT_MAX. lia.
  - apply to_int_range.
  - rewrite bind_run. apply to_int_range.
  - destruct (Z.rem delta 29 =? 0); [|assumption].
    rewrite bind_run. apply to_int_range.
Qed.

(** At the very instant of its activation, and through the delay before
    it, [update] leaves the output as it is. *)
Lemma update_not_after_start (now : Z) (l : Led.t) (w : World) :
  0 < Led.period l <= C.INT_MAX ->
  C.INT_MIN <= Led.maxBright l <= C.INT_MAX ->
  C.INT_MIN <= Led.lastValue l <= C.INT_MAX ->
  Led.elapsed (C.to_ulong now) l <= 0 ->
  Led.lastValue (fst (Led.update now l w)) = Led.lastValue l
  /\ trace (snd (Led.update now l w)) = trace w.
Proof.
  intros Hpd Hmx HL Hd.
  destruct (Z.eq_dec (Led.elapsed (C.to_ulong now) l) 0) as [E|Hne].
  - rewrite update_active by lia. rewrite E. cbn [fst snd Led.lastValue Led.set_lastValue].
    rewrite smooth_at_start by (try assumption; now apply waveform_int).
    rewrite Z.eqb_refl. split; [reflexivity | apply waveform_trace].
  - rewrite update_idle by lia. split; reflexivity.
Qed.

Lemma elapsed_at_startTime (l : Led.t) :
  0 <= Led.startTime l < 2 ^ 32 -> 0 <= Led.delay l <= C.INT_MAX ->
  Led.elapsed (C.to_ulong (Led.startTime l)) l = - Led.delay l.
Proof.
  intros Hs Hd. rewrite to_ulong_id by exact Hs.
  rewrite elapsed_exact; unfold C.INT_MIN, C.INT_MAX in *; lia.
Qed.

Lemma update_at_startTime (l : Led.t) (w : World) :
  0 < Led.period l <= C.INT_MAX ->
  0 <= Led.delay l <= C.INT_MAX ->
  0 <= Led.startTime l < 2 ^ 32 ->
  C.INT_MIN <= Led.maxBright l <= C.INT_MAX ->
  C.INT_MIN <= Led.lastValue l <= C.INT_MAX ->
  Led.lastValue (fst (Led.update (Led.startTime l) l w)) = Led.lastValue l
  /\ trace (snd (Led.update (Led.startTime l) l w)) = trace w.
Proof.
  intros Hpd Hd Hs Hmx HL. apply update_not_after_start; try assumption.
  rewrite elapsed_at_startTime by assumption. lia.
Qed.

Lemma configured_update (l : Led.t) (w : World) :
  same_millisecond w ->
  Led.startTime l = time_now w ->
  0 < Led.period l <= C.INT_MAX ->
  0 <= Led.delay l <= C.INT_MAX ->
  C.INT_MIN <= Led.maxBright l <= C.INT_MAX ->
  C.INT_MIN <= Led.lastValue l <= C.INT_MAX ->
  let r := Led.update (fst (Arduino.millis (after_read w))) l (snd (Arduino.millis (after_read w))) in
  Led.lastValue (fst r) = Led.lastValue l /\ trace (snd r) = trace w.
Proof.
  intros Hsame Hst Hpd Hd Hmx HL r. unfold r.
  assert (E : fst (Arduino.millis (after_read w)) = Led.startTime l).
  { rewrite Hst. unfold time_now, after_read, Arduino.millis. cbn [fst snd reads clock].
    now rewrite Hsame. }
  rewrite E.
  destruct (update_at_startTime l (snd (Arduino.millis (after_read w))) Hpd Hd) as [H1 H2];
    try assumption.
  { rewrite Hst. apply to_ulong_range. }
  split; [exact H1 | exact H2].
Qed.

Lemma rampTo_run (mx pd d : Z) (l : Led.t) (w : World) :
  Led.rampTo mx pd d l w
  = Led.update (fst (Arduino.millis (after_read w)))
      (Led.mk (Led.pin l) pd (Led.phase l) d LedMode.ramp (Led.lastValue l) mx
              (time_now w) (Led.lastValue l))
      (snd (Arduino.millis (after_read w))).
Proof. unfold Led.rampTo. rewrite !bind_run. reflexivity. Qed.

Lemma startSinusoid_run (pd mn mx ph : Z) (l : Led.t) (w : World) :
  Led.startSinusoid pd mn mx ph l w
  = Led.update (fst (Arduino.millis (after_read w)))
      (Led.mk (Led.pin l) pd ph (Led.delay l) LedMode.sinusoid mn mx
              (time_now w) (Led.lastValue l))
      (snd (Arduino.millis (after_read w))).
Proof. unfold Led.startSinusoid. rewrite !bind_run. reflexivity. Qed.

Lemma off_run (l : Led.t) (w : World) :
  Led.off l w
  = (Led.mk (Led.pin l) (Led.period l) (Led.phase l) (Led.delay l) LedMode.off
            (Led.minBright l) (Led.maxBright l) (time_now w) 0,
     snd (Arduino.analogWrite (Led.pin l) 0 (after_read w))).
Proof. reflexivity. Qed.

Lemma on_run (mx : Z) (l : Led.t) (w : World) :
  Led.on mx l w
  = (Led.mk (Led.pin l) (Led.period l) (Led.phase l) (Led.delay l) LedMode.on
            (Led.minBright l) mx (time_now w) mx,
     snd (Arduino.analogWrite (Led.pin l) mx (after_read w))).
Proof. reflexivity. Qed.

Lemma update_int (now : Z) (l : Led.t) (w : World) :
  C.INT_MIN <= Led.maxBright l <= C.INT_MAX ->
  C.INT_MIN <= Led.lastValue l <= C.INT_MAX ->
  C.INT_MIN <= Led.lastValue (fst (Led.update now l w)) <= C.INT_MAX.
Proof.
  intros Hmx HL.
  destruct (Z.lt_ge_cases (Led.elapsed (C.to_ulong now) l) 0) as [H|H].
  - now rewrite update_idle.
  - rewrite update_value by exact H. unfold Led.smooth.
    destruct (F.ltb F.zero _); [apply to_int_range | now apply waveform_int].
Qed.

Lemma configured_frame (now : Z) (l : Led.t) (w : World) :
  let r := Led.update now l w in
  Led.period (fst r) = Led.period l /\ Led.delay (fst r) = Led.delay l
  /\ Led.startTime (fst r) = Led.startTime l /\ Led.maxBright (fst r) = Led.maxBright l.
Proof. intros r. unfold r. rewrite update_frame. repeat split. Qed.

(** An operation that configures the LED, reads the clock twice and runs
    [update]: the shape of [rampTo] and [startSinusoid]. *)
Lemma configured_output (l : Led.t) (w : World) :
  Led.startTime l = time_now w ->
  0 < Led.period l <= C.INT_MAX ->
  0 <= Led.delay l <= C.INT_MAX ->
  C.INT_MIN <= Led.maxBright l <= C.INT_MAX ->
  C.INT_MIN <= Led.lastValue l <= C.INT_MAX ->
  let r := Led.update (fst (Arduino.millis (after_read w))) l (snd (Arduino.millis (after_read w))) in
  let r' := recompute_at_activation r in
  (output r' = output r /\ written r' = written r)
  /\ (same_millisecond w -> output r = Led.lastValue l /\ written r = trace w).
Proof.
  intros Hst Hpd Hd Hmx HL r r'.
  destruct (configured_frame (fst (Arduino.millis (after_read w))) l
              (snd (Arduino.millis (after_read w)))) as [F1 [F2 [F3 F4]]].
  fold r in F1, F2, F3, F4.
  split.
  - unfold r', recompute_at_activation, output, written.
    apply (update_at_startTime (fst r) (snd r)).
    + now rewrite F1.
    + now rewrite F2.
    + rewrite F3, Hst. apply to_ulong_range.
    + now rewrite F4.
    + unfold r. now apply update_int.
  - intros Hsame. exact (configured_update l w Hsame Hst Hpd Hd Hmx HL).
Qed.

Lemma rampTo_output (mx pd d : Z) (l : Led.t) (w : World) :
  C.INT_MIN <= Led.lastValue l <= C.INT_MAX ->
  C.INT_MIN <= mx <= C.INT_MAX -> 0 < pd <= C.INT_MAX -> 0 <= d <= C.INT_MAX ->
  let r := Led.rampTo mx pd d l w in
  let r' := recompute_at_activation r in
  (output r' = output r /\ written r' = written r)
  /\ (same_millisecond w -> output r = Led.lastValue l /\ written r = trace w).
Proof.
  intros HL Hmx Hpd Hd r r'. unfold r', r. rewrite rampTo_run.
  set (l' := Led.mk _ _ _ _ _ _ _ _ _).
  apply (configured_output l' w eq_refl Hpd Hd Hmx HL).
Qed.

Lemma startSinusoid_output (pd mn mx ph : Z) (l : Led.t) (w : World) :
  C.INT_MIN <= Led.lastValue l <= C.INT_MAX ->
  C.INT_MIN <= mx <= C.INT_MAX -> 0 < pd <= C.INT_MAX -> 0 <= Led.delay l <= C.INT_MAX ->
  let r := Led.startSinusoid pd mn mx ph l w in
  let r' := recompute_at_activation r in
  (output r' = output r /\ written r' = written r)
  /\ (same_millisecond w -> output r = Led.lastValue l /\ written r = trace w).
Proof.
  intros HL Hmx Hpd Hd r r'. unfold r', r. rewrite startSinusoid_run.
  set (l' := Led.mk _ _ _ _ _ _ _ _ _).
  apply (configured_output l' w eq_refl Hpd Hd Hmx HL).
Qed.

Lemma off_output (l : Led.t) (w : World) :
  0 < Led.period l <= C.INT_MAX -> 0 <= Led.delay l <= C.INT_MAX ->
  C.INT_MIN <= Led.maxBright l <= C.INT_MAX ->
  let r := Led.off l w in
  let r' := recompute_at_activation r in
  (output r = 0 /\ written r = AnalogWrite (Led.pin l) 0 :: trace w)
  /\ (output r' = 0 /\ written r' = written r).
Proof.
  intros Hpd Hd Hmx r r'. unfold r', r, recompute_at_activation, output, written.
  rewrite off_run. cbn [fst snd].
  set (l' := Led.mk _ _ _ _ _ _ _ _ _). set (w' := snd _).
  split; [split; reflexivity|].
  assert (H0 : C.INT_MIN <= 0 <= C.INT_MAX) by (unfold C.INT_MIN, C.INT_MAX; lia).
  exact (update_at_startTime l' w' Hpd Hd (to_ulong_range _) Hmx H0).
Qed.

Lemma on_output (mx : Z) (l : Led.t) (w : World) :
  C.INT_MIN <= mx <= C.INT_MAX ->
  0 < Led.period l <= C.INT_MAX -> 0 <= Led.delay l <= C.INT_MAX ->
  let r := Led.on mx l w in
  let r' := recompute_at_activation r in
  (output r = mx /\ written r = AnalogWrite (Led.pin l) mx :: trace w)
  /\ (output r' = mx /\ written r' = written r).
Proof.
  intros Hmx Hpd Hd r r'. unfold r', r, recompute_at_activation, output, written.
  rewrite on_run. cbn [fst snd].
  set (l' := Led.mk _ _ _ _ _ _ _ _ _). set (w' := snd _).
  split; [split; reflexivity|].
  exact (update_at_startTime l' w' Hpd Hd (to_ulong_range _) Hmx Hmx).
Qed.

(** C4 (amended).  [rampTo] and [startSinusoid] cross-fade from the value
    the LED shows.  [update] at the activation time after them leaves
    [lastValue] as it is and writes nothing; and when their two reads of the
    clock fall in the same millisecond they leave [lastValue] and the pins
    as they found them, so the output at the activation time is the old
    value, between the old value and the target.  [startFlicker] leaves the
    output alone as well.  [off] and [on] do not cross-fade: they store
    their constant, 0 and [mx], and write it to the pin at once, whatever the
    LED showed before; [update] at the activation time keeps that
    constant. *)
Theorem C4_mode_setting_and_the_output :
  forall (l : Led.t) (w : World),
    C.INT_MIN <= Led.lastValue l <= C.INT_MAX ->
    (forall mx pd d : Z,
        C.INT_MIN <= mx <= C.INT_MAX -> 0 < pd <= C.INT_MAX -> 0 <= d <= C.INT_MAX ->
        let r := Led.rampTo mx pd d l w in
        let r' := recompute_at_activation r in
        (output r' = output r /\ written r' = written r)
        /\ (same_millisecond w ->
            (output r = Led.lastValue l /\ written r = trace w)
            /\ Z.min (Led.lastValue l) mx <= output r' <= Z.max (Led.lastValue l) mx))
    /\ (forall pd mn mx ph : Z,
        C.INT_MIN <= mx <= C.INT_MAX -> 0 < pd <= C.INT_MAX ->
        0 <= Led.delay l <= C.INT_MAX ->
        let r := Led.startSinusoid pd mn mx ph l w in
        let r' := recompute_at_activation r in
        (output r' = output r /\ written r' = written r)
        /\ (same_millisecond w -> output r = Led.lastValue l /\ written r = trace w))
    /\ (forall mn mx d : Z,
        let r := Led.startFlicker mn mx d l w in
        output r = Led.lastValue l /\ snd r = w)
    /\ (0 < Led.period l <= C.INT_MAX -> 0 <= Led.delay l <= C.INT_MAX ->
        C.INT_MIN <= Led.maxBright l <= C.INT_MAX ->
        let r := Led.off l w in
        let r' := recompute_at_activation r in
        (output r = 0 /\ written r = AnalogWrite (Led.pin l) 0 :: trace w)
        /\ (output r' = 0 /\ written r' = written r))
    /\ (forall mx : Z,
        C.INT_MIN <= mx <= C.INT_MAX ->
        0 < Led.period l <= C.INT_MAX -> 0 <= Led.delay l <= C.INT_MAX ->
        let r := Led.on mx l w in
        let r' := recompute_at_activation r in
        (output r = mx /\ written r = AnalogWrite (Led.pin l) mx :: trace w)
        /\ (output r' = mx /\ written r' = written r)).
Proof.
  intros l w HL. repeat apply conj.
  - intros mx pd d Hmx Hpd Hd r r'.
    destruct (rampTo_output mx pd d l w HL Hmx Hpd Hd) as [Hr' Hr].
    fold r in Hr, Hr'. fold r' in Hr'.
    split; [exact Hr'|]. intros Hsame. split; [exact (Hr Hsame)|].
    destruct Hr' as [-> _]. destruct (Hr Hsame) as [-> _]. lia.
  - intros pd mn mx ph Hmx Hpd Hd. now apply startSinusoid_output.
  - intros mn mx d r. split; reflexivity.
  - intros Hpd Hd Hmx. now apply off_output.
  - intros mx Hmx Hpd Hd. now apply on_output.
Qed.

Lemma C4_mode_setting_and_the_output_witness :
  let l := Led.set_lastValue 40 (Led.new 3) in
  let w := still_world in
  (C.INT_MIN <= Led.lastValue l <= C.INT_MAX /\ same_millisecond w)
  /\ output (Led.rampTo 220 6000 0 l w) = 40
  /\ written (Led.rampTo 220 6000 0 l w) = []
  /\ output (recompute_at_activation (Led.rampTo 220 6000 0 l w)) = 40
  /\ output (Led.startSinusoid 2000 10 40 0 l w) = 40
  /\ output (Led.startFlicker 0 128 100 l w) = 40
  /\ written (Led.off l w) = [AnalogWrite 3 0]
  /\ written (Led.on 255 l w) = [AnalogWrite 3 255].
Proof.
  intros l w.
  assert (HL : C.INT_MIN <= Led.lastValue l <= C.INT_MAX) by (vm_compute; split; discriminate).
  assert (Hs : same_millisecond w) by reflexivity.
  assert (Hint : forall z, -32768 <= z <= 32767 -> C.INT_MIN <= z <= C.INT_MAX)
    by (unfold C.INT_MIN, C.INT_MAX; lia).
  assert (Hpos : forall z, 0 < z <= 32767 -> 0 < z <= C.INT_MAX)
    by (unfold C.INT_MAX; lia).
  assert (Hnn : forall z, 0 <= z <= 32767 -> 0 <= z <= C.INT_MAX)
    by (unfold C.INT_MAX; lia).
  destruct (C4_mode_setting_and_the_output l w HL) as [Hramp [Hsin [Hfl [Hoff Hon]]]].
  destruct (Hramp 220 6000 0 (Hint 220 ltac:(lia)) (Hpos 6000 ltac:(lia)) (Hnn 0 ltac:(lia)))
    as [[R3 _] Hr].
  destruct (Hr Hs) as [[R1 R2] _].
  destruct (Hsin 2000 10 40 0 (Hint 40 ltac:(lia)) (Hpos 2000 ltac:(lia))
              (Hnn 0 ltac:(lia))) as [_ Hq].
  destruct (Hq Hs) as [S1 _].
  destruct (Hfl 0 128 100) as [F1 _].
  destruct (Hoff (Hpos 1000 ltac:(lia)) (Hnn 0 ltac:(lia)) (Hint 255 ltac:(lia)))
    as [[_ O2] _].
  destruct (Hon 255 (Hint 255 ltac:(lia)) (Hpos 1000 ltac:(lia)) (Hnn 0 ltac:(lia)))
    as [[_ N2] _].
  split; [split; assumption|].
  repeat split; assumption.
Defined.

(** C4 as stated fails for [off] and [on]: they do not cross-fade from the
    value the LED shows.  On an LED that shows 255, [off] stores 0 and writes 0
    to the pin at once, and [update] one millisecond later keeps 0; on an
    LED that shows 0, as after [init], [on(255)] stores and writes 255 at
    once. *)
Lemma C4_counterexample :
  (let l := Led.mk 5 1000 0 0 LedMode.ramp 0 255 0 255 in
   let r := Led.off l sample_world in
   Led.lastValue l = 255
   /\ output r = 0 /\ written r = [AnalogWrite 5 0]
   /\ output (Led.update (Led.startTime (fst r) + 1) (fst r) (snd r)) = 0)
  /\ (let l := fst (Led.init (Led.new 3) sample_world) in
      let r := Led.on 255 l (snd (Led.init (Led.new 3) sample_world)) in
      Led.lastValue l = 0
      /\ output r = 255
      /\ written r = AnalogWrite 3 255 :: trace (snd (Led.init (Led.new 3) sample_world))).
Proof. vm_compute. repeat split. Qed.

(** * C6: the sinusoid *)

(** [x / (2 x) = 1/2]. *)
Lemma div_double (m : positive) (e : Z) :
  F.div (S754_finite false m e) (S754_finite false m (e + 1)) = F.half.
Proof.
  unfold F.div, SFdiv.
  destruct (div_core_spec m m e (e + 1)) as [q [r [-> [Hq [Hr Hqr]]]]].
  replace (Zpos (digits2_pos m) + e - (Zpos (digits2_pos m) + (e + 1))) with (-1) in * by lia.
  replace (e - (e + 1)) with (-1) in * by lia.
  change (Z.min (fexp F.prec F.emax (-1)) (-1)) with (-25) in *.
  change (-1 - -25) with 24 in Hqr.
  assert (Hq24 : q = 2 ^ 24) by nia.
  assert (Hr0 : r = 0) by nia.
  subst q r. rewrite new_location_exact. reflexivity.
Qed.

Lemma of_Z_double (z : Z) :
  0 < z -> 2 * z < 2 ^ 24 ->
  exists m e, F.of_Z z = S754_finite false m e /\ F.of_Z (2 * z) = S754_finite false m (e + 1).
Proof.
  intros Hz Hlt.
  rewrite (of_Z_nonzero z) by lia. rewrite (of_Z_nonzero (2 * z)) by lia.
  assert (Hd : Zdigits2 (2 * z) = Zdigits2 z + 1).
  { destruct z as [|p|p]; try lia. change (2 * Zpos p) with (Zpos (xO p)).
    cbn [Zdigits2 digits2_pos]. apply Pos2Z.inj_succ. }
  assert (Hd1 : 1 <= Zdigits2 z).
  { destruct z as [|p|p]; try lia. cbn [Zdigits2]. lia. }
  assert (Hd24 : Zdigits2 z + 1 <= 24).
  { rewrite <- Hd. apply (proj2 (Zdigits2_le (2 * z) 24 ltac:(lia) ltac:(lia))). exact Hlt. }
  destruct (Z.ltb_spec z 0); [lia|]. destruct (Z.ltb_spec (2 * z) 0); [lia|].
  eexists _, _. split; [reflexivity|].
  rewrite Hd. f_equal; [|lia]. f_equal.
  rewrite !Z.abs_eq by lia.
  replace (24 - Zdigits2 z) with (1 + (24 - (Zdigits2 z + 1))) by lia.
  rewrite (pow2_split 1 (24 - (Zdigits2 z + 1))) by lia. change (2 ^ 1) with 2. lia.
Qed.

Lemma waveform_sinusoid (delta : Z) (l : Led.t) (w : World) :
  Led.mode l = LedMode.sinusoid ->
  Led.waveform delta l w
  = (sinusoid_at w l (Z.rem (C.to_int (delta + Led.phase l)) (Led.period l)), w).
Proof. intros H. unfold Led.waveform. now rewrite H. Qed.

Lemma update_sinusoid (now : Z) (l : Led.t) (w : World) :
  Led.mode l = LedMode.sinusoid -> 0 <= Led.period l <= C.INT_MAX -> after_fade now l ->
  Led.lastValue (fst (Led.update now l w)) = sinusoid_at w l (point now l).
Proof.
  intros Hm Hpd [Hd Hout].
  pose proof (elapsed_range (C.to_ulong now) l) as Hr.
  rewrite update_value by exact Hd.
  rewrite smooth_outside by (try assumption; lia).
  rewrite waveform_sinusoid by exact Hm. cbn [fst]. unfold point. reflexivity.
Qed.

Lemma sinusoid_at_start (w : World) (l : Led.t) :
  1 < Led.period l <= C.INT_MAX ->
  C.INT_MIN <= Led.minBright l <= C.INT_MAX ->
  C.INT_MIN <= Led.maxBright l - Led.minBright l <= C.INT_MAX ->
  libm_cos w minus_pi = F.of_Z (-1) ->
  sinusoid_at w l 0 = Led.minBright l.
Proof.
  intros Hpd Hmn Hc Hcos. unfold sinusoid_at.
  assert (Hp1 : C.INT_MIN <= Led.period l - 1 <= C.INT_MAX)
    by (unfold C.INT_MIN, C.INT_MAX in *; lia).
  rewrite (to_int_id _ Hp1), (to_int_id _ Hc).
  destruct (of_Z_digits (Led.period l - 1) ltac:(lia) (int_abs _ Hp1)) as [m [e [-> _]]].
  change (F.mul F.one (F.of_Z 0)) with (S754_zero false).
  change (F.div (S754_zero false) (S754_finite (Led.period l - 1 <? 0) m e))
    with (S754_zero (xorb false (Led.period l - 1 <? 0))).
  destruct (Z.ltb_spec (Led.period l - 1) 0); [lia|]. cbn [xorb].
  fold F.zero. fold minus_pi. rewrite Hcos.
  change (F.div (F.add (F.of_Z (-1)) F.one) F.two) with (S754_zero false).
  assert (Hz : F.to_int (F.mul (F.of_Z (Led.maxBright l - Led.minBright l)) (S754_zero false)) = 0).
  { destruct (of_Z_proper _ (int_abs _ Hc)) as [-> | [s [m' [e' ->]]]]; reflexivity. }
  rewrite Hz, Z.add_0_r. now apply to_int_id.
Qed.

Lemma sinusoid_at_peak (w : World) (l : Led.t) (r : Z) :
  1 < Led.period l <= C.INT_MAX ->
  C.INT_MIN <= Led.maxBright l <= C.INT_MAX ->
  C.INT_MIN <= Led.maxBright l - Led.minBright l <= C.INT_MAX ->
  libm_cos w F.zero = F.one ->
  2 * r = Led.period l - 1 ->
  sinusoid_at w l r = Led.maxBright l.
Proof.
  intros Hpd Hmx Hc Hcos Hr. unfold sinusoid_at.
  assert (Hp1 : C.INT_MIN <= Led.period l - 1 <= C.INT_MAX)
    by (unfold C.INT_MIN, C.INT_MAX in *; lia).
  assert (Hr' : C.INT_MIN <= r <= C.INT_MAX) by (unfold C.INT_MIN, C.INT_MAX in *; lia).
  rewrite (to_int_id _ Hp1), (to_int_id _ Hc).
  rewrite mul_one_of_Z by now apply int_abs.
  rewrite <- Hr.
  destruct (of_Z_double r ltac:(lia) ltac:(unfold C.INT_MAX in *; lia)) as [m [e [-> ->]]].
  rewrite div_double.
  change (F.mul (F.mul F.two F.M_PI) (F.sub F.half F.half)) with F.zero.
  rewrite Hcos.
  change (F.div (F.add F.one F.one) F.two) with F.one.
  rewrite mul_comm, mul_one_of_Z by now apply int_abs.
  rewrite to_int_of_Z by exact Hc.
  replace (Led.minBright l + (Led.maxBright l - Led.minBright l)) with (Led.maxBright l) by lia.
  now apply to_int_id.
Qed.

Lemma point_set_lastValue (now v : Z) (l : Led.t) :
  point now (Led.set_lastValue v l) = point now l.
Proof. unfold point. now rewrite elapsed_set_lastValue. Qed.

Lemma after_fade_set_lastValue (now v : Z) (l : Led.t) :
  after_fade now l -> after_fade now (Led.set_lastValue v l).
Proof. unfold after_fade. now rewrite elapsed_set_lastValue. Qed.

Lemma sinusoid_at_frame (w w' : World) (v r : Z) (l : Led.t) :
  libm_cos w' = libm_cos w -> sinusoid_at w' (Led.set_lastValue v l) r = sinusoid_at w l r.
Proof. intros H. unfold sinusoid_at. now rewrite H. Qed.

(** C6 (amended).  In the sinusoid mode, once the cross-fade is over, the
    output is [maxBright] where twice [(elapsed + phase) % period] is
    [period - 1] (the point where [t] is one half; an odd period has one), it
    is [minBright] where [(elapsed + phase) % period] is 0, and it depends on
    [(elapsed + phase) % period] alone, so that it repeats one period later as
    long as [elapsed + phase] is not negative.  This for a [cos] that
    answers 1 at 0 and -1 at the binary32 value of -pi. *)
Theorem C6_sinusoid_after_the_cross_fade :
  forall (l : Led.t) (w : World),
    Led.mode l = LedMode.sinusoid ->
    1 < Led.period l <= C.INT_MAX ->
    C.INT_MIN <= Led.minBright l <= C.INT_MAX ->
    C.INT_MIN <= Led.maxBright l <= C.INT_MAX ->
    C.INT_MIN <= Led.maxBright l - Led.minBright l <= C.INT_MAX ->
    let shown (now : Z) := Led.lastValue (fst (Led.update now l w)) in
    (forall now : Z,
        after_fade now l -> libm_cos w F.zero = F.one ->
        2 * point now l = Led.period l - 1 -> shown now = Led.maxBright l)
    /\ (forall now : Z,
        after_fade now l -> libm_cos w minus_pi = F.of_Z (-1) ->
        point now l = 0 -> shown now = Led.minBright l)
    /\ (forall (now now' v : Z) (w' : World),
        after_fade now l -> after_fade now' l -> libm_cos w' = libm_cos w ->
        point now l = point now' l ->
        Led.lastValue (fst (Led.update now' (Led.set_lastValue v l) w')) = shown now)
    /\ (forall now now' : Z,
        Led.elapsed (C.to_ulong now') l = Led.elapsed (C.to_ulong now) l + Led.period l ->
        0 <= Led.elapsed (C.to_ulong now) l + Led.phase l ->
        Led.elapsed (C.to_ulong now') l + Led.phase l <= C.INT_MAX ->
        point now l = point now' l).
Proof.
  intros l w Hm Hpd Hmn Hmx Hc shown.
  assert (Hpd0 : 0 <= Led.period l <= C.INT_MAX) by lia.
  repeat apply conj.
  - intros now Ha Hcos Hr. unfold shown. rewrite update_sinusoid by assumption.
    now apply sinusoid_at_peak.
  - intros now Ha Hcos Hr. unfold shown. rewrite update_sinusoid by assumption.
    rewrite Hr. now apply sinusoid_at_start.
  - intros now now' v w' Ha Ha' Hcos Hr. unfold shown.
    rewrite (update_sinusoid now l w Hm Hpd0 Ha).
    rewrite (update_sinusoid now' (Led.set_lastValue v l) w' Hm Hpd0
               (after_fade_set_lastValue now' v l Ha')).
    rewrite point_set_lastValue, <- Hr. now apply sinusoid_at_frame.
  - intros now now' He H0 Hmax. unfold point. rewrite He.
    rewrite !to_int_id by (unfold C.INT_MIN, C.INT_MAX in *; lia).
    rewrite !Z.rem_mod_nonneg by lia.
    replace (Led.elapsed (C.to_ulong now) l + Led.period l + Led.phase l)
      with (Led.elapsed (C.to_ulong now) l + Led.phase l + 1 * Led.period l) by lia.
    now rewrite Z.mod_add by lia.
Qed.

Lemma C6_sinusoid_after_the_cross_fade_witness :
  let l := Led.mk 9 1999 0 0 LedMode.sinusoid 10 40 0 25 in
  let w := table_world in
  (Led.mode l = LedMode.sinusoid /\ 1 < Led.period l <= C.INT_MAX
   /\ C.INT_MIN <= Led.minBright l <= C.INT_MAX
   /\ C.INT_MIN <= Led.maxBright l <= C.INT_MAX
   /\ C.INT_MIN <= Led.maxBright l - Led.minBright l <= C.INT_MAX
   /\ after_fade 2998 l /\ after_fade 1999 l /\ after_fade 3998 l
   /\ libm_cos w F.zero = F.one /\ libm_cos w minus_pi = F.of_Z (-1)
   /\ 2 * point 2998 l = Led.period l - 1 /\ point 1999 l = 0)
  /\ Led.lastValue (fst (Led.update 2998 l w)) = 40
  /\ Led.lastValue (fst (Led.update 1999 l w)) = 10
  /\ Led.lastValue (fst (Led.update 3998 (Led.set_lastValue 7 l) w))
     = Led.lastValue (fst (Led.update 1999 l w))
  /\ point 1999 l = point 3998 l.
Proof.
  intros l w.
  assert (H1 : Led.mode l = LedMode.sinusoid) by reflexivity.
  assert (H2 : 1 < Led.period l <= C.INT_MAX) by (vm_compute; split; [reflexivity | discriminate]).
  assert (H3 : C.INT_MIN <= Led.minBright l <= C.INT_MAX) by (vm_compute; split; discriminate).
  assert (H4 : C.INT_MIN <= Led.maxBright l <= C.INT_MAX) by (vm_compute; split; discriminate).
  assert (H5 : C.INT_MIN <= Led.maxBright l - Led.minBright l <= C.INT_MAX)
    by (vm_compute; split; discriminate).
  assert (A1 : after_fade 2998 l) by (vm_compute; split; discriminate).
  assert (A2 : after_fade 1999 l) by (vm_compute; split; discriminate).
  assert (A3 : after_fade 3998 l) by (vm_compute; split; discriminate).
  assert (K0 : libm_cos w F.zero = F.one) by reflexivity.
  assert (K1 : libm_cos w minus_pi = F.of_Z (-1)) by reflexivity.
  assert (P1 : 2 * point 2998 l = Led.period l - 1) by reflexivity.
  assert (P2 : point 1999 l = 0) by reflexivity.
  destruct (C6_sinusoid_after_the_cross_fade l w H1 H2 H3 H4 H5) as [Hmax [Hmin [Hsame Hper]]].
  split; [repeat split; solve [apply H2 | apply H3 | apply H4 | apply H5
                               | apply A1 | apply A2 | apply A3 | assumption]|].
  split; [exact (Hmax 2998 A1 K0 P1)|].
  split; [exact (Hmin 1999 A2 K1 P2)|].
  assert (P3 : point 1999 l = point 3998 l).
  { apply Hper; vm_compute; try reflexivity; discriminate. }
  split; [exact (Hsame 1999 3998 7 w A2 A3 eq_refl P3) | exact P3].
Defined.

(** C6 as stated fails on the code, with the cosine rounded to binary32.
    - The engine idling, period 2000 between 10 and 40: at the half-period
      point, [elapsed = 1000], the output is 39, not [maxBright]; the
      divisor [period - 1] puts the peak at [(period - 1) / 2], which an even
      period has not, and the conversion to [int] truncates.  At full power,
      period 60 between 200 and 255: 254 at [elapsed = 30].
    - With the phase -45 and the period 60 the output is 228 at
      [elapsed = 30] and 225 one period later: [%] answers -15 at the first
      and 45 at the second. *)
Lemma C6_counterexample :
  (let l := Led.mk 9 2000 0 0 LedMode.sinusoid 10 40 0 39 in
   after_fade 1000 l /\ 2 * point 1000 l = Led.period l
   /\ Led.lastValue (fst (Led.update 1000 l table_world)) = 39
   /\ Led.lastValue (fst (Led.update 1000 l table_world)) <> Led.maxBright l)
  /\ (let l := Led.mk 9 60 0 0 LedMode.sinusoid 200 255 0 39 in
      after_fade 30 l /\ 2 * point 30 l = Led.period l
      /\ Led.lastValue (fst (Led.update 30 l table_world)) = 254)
  /\ (let l := Led.mk 11 60 (-45) 0 LedMode.sinusoid 200 255 0 39 in
      after_fade 30 l /\ after_fade 90 l
      /\ Led.elapsed (C.to_ulong 90) l = Led.elapsed (C.to_ulong 30) l + Led.period l
      /\ Led.lastValue (fst (Led.update 30 l table_world)) = 228
      /\ Led.lastValue (fst (Led.update 90 l table_world)) = 225).
Proof. vm_compute. repeat split; discriminate. Qed.

(** * Further properties: the seed, the clock and the ramp *)

(** ** [generateRandomSeed] *)

Lemma nibble_range (x : Z) : 0 <= Z.land x 15 < 16.
Proof.
  change 15 with (Z.ones 4). rewrite Z.land_ones by lia.
  apply Z.mod_pos_bound. lia.
Qed.

(** Shifting a nibble in: the bits of the two operands of [|] do not meet. *)
Lemma shift_in (seed nib : Z) :
  0 <= seed -> 0 <= nib < 16 -> Z.lor (Z.shiftl seed 4) nib = seed * 16 + nib.
Proof.
  intros Hs Hn.
  assert (Hland : Z.land (Z.shiftl seed 4) nib = 0).
  { apply Z.bits_inj'. intros n Hn0. rewrite Z.land_spec, Z.bits_0.
    destruct (Z.lt_ge_cases n 4) as [Hlt|Hge].
    - rewrite Z.shiftl_spec_low by exact Hlt. reflexivity.
    - rewrite (Z.bits_above_log2 nib n); [apply andb_false_r | lia |].
      destruct (Z.eq_dec nib 0) as [->|Hne]; [cbn; lia|].
      apply Z.log2_lt_pow2; [lia|].
      apply Z.lt_le_trans with (2 ^ 4); [cbn; lia | apply Z.pow_le_mono_r; lia]. }
  rewrite <- (Z.add_0_r (Z.lor _ _)), <- Hland, Z.add_lor_land.
  rewrite Z.shiftl_mul_pow2 by lia. reflexivity.
Qed.

Lemma seed_round (seed x : Z) :
  0 <= seed < 268435456 ->
  Z.lor (C.to_ulong (Z.shiftl seed 4)) (C.to_ulong (Z.land x 15)) = seed * 16 + x mod 16.
Proof.
  intros Hs. pose proof (nibble_range x) as Hn.
  assert (E : Z.land x 15 = x mod 16).
  { change 15 with (Z.ones 4). now rewrite Z.land_ones by lia. }
  rewrite (to_ulong_id (Z.land x 15)) by lia.
  rewrite to_ulong_id
    by (rewrite Z.shiftl_mul_pow2 by lia; change (2 ^ 4) with 16;
        change (2 ^ 32) with 4294967296; lia).
  rewrite shift_in by lia. now rewrite E.
Qed.

(** X1.  [generateRandomSeed] packs the low four bits of the eight analog
    readings into the eight nibbles of the seed, input 0 in the highest
    one; nothing else of the readings reaches the seed, which is below
    [2 ^ 32]. *)
Theorem generateRandomSeed_packs_nibbles :
  forall analogRead : Z -> Z,
    generateRandomSeed analogRead
    = (analogRead 0 mod 16) * 16 ^ 7 + (analogRead 1 mod 16) * 16 ^ 6
      + (analogRead 2 mod 16) * 16 ^ 5 + (analogRead 3 mod 16) * 16 ^ 4
      + (analogRead 4 mod 16) * 16 ^ 3 + (analogRead 5 mod 16) * 16 ^ 2
      + (analogRead 6 mod 16) * 16 + analogRead 7 mod 16
    /\ 0 <= generateRandomSeed analogRead < 2 ^ 32.
Proof.
  intros a. unfold generateRandomSeed. cbn [seq map fold_left Z.of_nat Pos.of_succ_nat Pos.succ].
  pose proof (Z.mod_pos_bound (a 0) 16 ltac:(lia)) as H0.
  pose proof (Z.mod_pos_bound (a 1) 16 ltac:(lia)) as H1.
  pose proof (Z.mod_pos_bound (a 2) 16 ltac:(lia)) as H2.
  pose proof (Z.mod_pos_bound (a 3) 16 ltac:(lia)) as H3.
  pose proof (Z.mod_pos_bound (a 4) 16 ltac:(lia)) as H4.
  pose proof (Z.mod_pos_bound (a 5) 16 ltac:(lia)) as H5.
  pose proof (Z.mod_pos_bound (a 6) 16 ltac:(lia)) as H6.
  pose proof (Z.mod_pos_bound (a 7) 16 ltac:(lia)) as H7.
  change (2 ^ 32) with 4294967296. change (16 ^ 7) with 268435456.
  change (16 ^ 6) with 16777216. change (16 ^ 5) with 1048576.
  change (16 ^ 4) with 65536. change (16 ^ 3) with 4096. change (16 ^ 2) with 256.
  repeat match goal with
         | |- context [Z.lor (C.to_ulong (Z.shiftl ?s 4)) (C.to_ulong (Z.land ?x 15))] =>
             rewrite (seed_round s x) by lia
         end.
  lia.
Qed.

(** ** The 16 bits of [delta] *)

Lemma to_int_congr (a b : Z) : a mod 2 ^ 16 = b mod 2 ^ 16 -> C.to_int a = C.to_int b.
Proof.
  intros H. unfold C.to_int, C.to_signed. f_equal.
  rewrite <- (Zplus_mod_idemp_l a), <- (Zplus_mod_idemp_l b). now rewrite H.
Qed.

Lemma to_ulong_mod16 (z : Z) : C.to_ulong z mod 2 ^ 16 = z mod 2 ^ 16.
Proof.
  unfold C.to_ulong, C.to_unsigned.
  apply Z.mod_mod_divide. exists (2 ^ 16). reflexivity.
Qed.

(** [delta] is the exact difference cut to 16 bits, whatever the widths the
    operands pass through. *)
Lemma elapsed_wraps (now : Z) (l : Led.t) :
  Led.elapsed (C.to_ulong now) l = C.to_int (now - Led.startTime l - Led.delay l).
Proof.
  unfold Led.elapsed. rewrite to_int_to_ulong. apply to_int_congr.
  unfold C.to_ulong, C.to_unsigned.
  pose proof (Z.div_mod now (2 ^ 32) ltac:(lia)) as Hn.
  pose proof (Z.div_mod (Led.delay l) (2 ^ 32) ltac:(lia)) as Hd.
  replace (now mod 2 ^ 32 - Led.startTime l - Led.delay l mod 2 ^ 32)
    with (now - Led.startTime l - Led.delay l
          + ((Led.delay l / 2 ^ 32 - now / 2 ^ 32) * 2 ^ 16) * 2 ^ 16)
    by (change (2 ^ 32) with (2 ^ 16 * 2 ^ 16) in *; lia).
  apply Z.mod_add. lia.
Qed.

Lemma to_int_negative (z : Z) : 2 ^ 15 <= z mod 2 ^ 16 -> C.to_int z < 0.
Proof.
  intros H. unfold C.to_int, C.to_signed.
  pose proof (Z.mod_pos_bound z (2 ^ 16) ltac:(lia)) as Hb.
  change (2 ^ (16 - 1)) with (2 ^ 15).
  replace (z + 2 ^ 15) with (z mod 2 ^ 16 - 2 ^ 15 + (z / 2 ^ 16 + 1) * 2 ^ 16)
    by (pose proof (Z.div_mod z (2 ^ 16) ltac:(lia)); lia).
  rewrite Z.mod_add by lia. rewrite Z.mod_small; lia.
Qed.

Lemma update_congr (now now' : Z) (l : Led.t) (w : World) :
  Led.elapsed (C.to_ulong now') l = Led.elapsed (C.to_ulong now) l ->
  Led.update now' l w = Led.update now l w.
Proof. intros H. unfold Led.update. now rewrite H. Qed.

(** X2.  [update] looks at the low 16 bits of [now] only: a time 65536 ms
    later gives the same result, and so does the time cut to an
    [unsigned int], as [loop] and [Engine::loop] pass it. *)
Theorem update_reads_16_bits_of_now :
  forall (now k : Z) (l : Led.t) (w : World),
    Led.update (now + 65536 * k) l w = Led.update now l w
    /\ Led.update (C.to_uint now) l w = Led.update now l w.
Proof.
  intros now k l w.
  assert (H : forall j, Led.update (now + 65536 * j) l w = Led.update now l w).
  { intros j. apply update_congr. rewrite !elapsed_wraps. apply to_int_congr.
    replace (now + 65536 * j - Led.startTime l - Led.delay l)
      with (now - Led.startTime l - Led.delay l + j * 2 ^ 16) by (change (2 ^ 16) with 65536; lia).
    apply Z.mod_add. lia. }
  split; [apply H|].
  unfold C.to_uint, C.to_unsigned.
  replace (now mod 2 ^ 16) with (now + 65536 * - (now / 2 ^ 16))
    by (pose proof (Z.div_mod now (2 ^ 16) ltac:(lia)); change (2 ^ 16) with 65536 in *; lia).
  apply H.
Qed.

(** X3.  [delta] is an [int] of 16 bits: in the second half of every 65536
    ms since the activation, from 32768 ms on, it is negative and [update]
    does nothing, whatever the mode. *)
Theorem update_sleeps_after_32768_ms :
  forall (now : Z) (l : Led.t) (w : World),
    32768 <= (now - Led.startTime l - Led.delay l) mod 65536 ->
    Led.update now l w = (l, w).
Proof.
  intros now l w H. apply update_idle. rewrite elapsed_wraps.
  apply to_int_negative. exact H.
Qed.

Lemma update_sleeps_after_32768_ms_witness :
  let l := fst (Led.on 255 (Led.new 3) sample_world) in
  32768 <= (Led.startTime l + 40000 - Led.startTime l - Led.delay l) mod 65536
  /\ Led.update (Led.startTime l + 40000) l sample_world = (l, sample_world).
Proof.
  intros l.
  assert (H : 32768 <= (Led.startTime l + 40000 - Led.startTime l - Led.delay l) mod 65536)
    by (vm_compute; discriminate).
  split; [exact H|].
  exact (update_sleeps_after_32768_ms (Led.startTime l + 40000) l sample_world H).
Defined.

(** ** The end of a ramp *)

(** X4.  A ramp whose period is over stores exactly [maxBright], upwards
    or downwards, and writes it to the pin unless the LED shows it
    already. *)
Theorem ramp_ends_at_maxBright :
  forall (now : Z) (l : Led.t) (w : World),
    Led.mode l = LedMode.ramp ->
    0 < Led.period l <= C.INT_MAX ->
    C.INT_MIN <= Led.maxBright l <= C.INT_MAX ->
    C.INT_MIN <= Led.maxBright l - Led.minBright l <= C.INT_MAX ->
    Led.period l <= Led.elapsed (C.to_ulong now) l ->
    Led.update now l w
    = (Led.set_lastValue (Led.maxBright l) l,
       if Led.maxBright l =? Led.lastValue l then w
       else snd (Arduino.analogWrite (Led.pin l) (Led.maxBright l) w)).
Proof.
  intros now l w Hm Hpd Hmx Hc Hd.
  pose proof (elapsed_range (C.to_ulong now) l) as Hr.
  set (delta := Led.elapsed (C.to_ulong now) l) in *.
  assert (Hw : Led.waveform delta l w = (Led.maxBright l, w)).
  { rewrite waveform_ramp by exact Hm.
    rewrite ramp_share_complete by assumption.
    rewrite (to_int_id _ Hc).
    rewrite mul_comm, mul_one_of_Z by now apply int_abs.
    rewrite to_int_of_Z by exact Hc.
    replace (Led.minBright l + (Led.maxBright l - Led.minBright l)) with (Led.maxBright l) by lia.
    now rewrite to_int_id. }
  rewrite update_active by (fold delta; lia). fold delta.
  rewrite Hw. cbn [fst snd].
  rewrite smooth_outside by lia. reflexivity.
Qed.

Lemma ramp_ends_at_maxBright_witness :
  let l := Led.mk 6 2000 0 0 LedMode.ramp 220 0 1000 37 in
  (Led.mode l = LedMode.ramp /\ 0 < Led.period l <= C.INT_MAX
   /\ C.INT_MIN <= Led.maxBright l <= C.INT_MAX
   /\ C.INT_MIN <= Led.maxBright l - Led.minBright l <= C.INT_MAX
   /\ Led.period l <= Led.elapsed (C.to_ulong 3500) l)
  /\ Led.lastValue (fst (Led.update 3500 l sample_world)) = 0.
Proof.
  intros l.
  assert (H1 : Led.mode l = LedMode.ramp) by reflexivity.
  assert (H2 : 0 < Led.period l <= C.INT_MAX) by (vm_compute; split; [reflexivity | discriminate]).
  assert (H3 : C.INT_MIN <= Led.maxBright l <= C.INT_MAX) by (vm_compute; split; discriminate).
  assert (H4 : C.INT_MIN <= Led.maxBright l - Led.minBright l <= C.INT_MAX)
    by (vm_compute; split; discriminate).
  assert (H5 : Led.period l <= Led.elapsed (C.to_ulong 3500) l) by (vm_compute; discriminate).
  split; [repeat split; solve [apply H2 | apply H3 | apply H4 | assumption]|].
  now rewrite (ramp_ends_at_maxBright 3500 l sample_world H1 H2 H3 H4 H5).
Defined.

(** * Further properties: what reaches the pins *)

(** ** A step downwards *)

Lemma mul_int_le_neg (c : Z) (v : F.double) :
  0 < c < 2 ^ 24 -> within false unity v ->
  within true (c * unity) (F.mul (F.of_Z (- c)) v).
Proof.
  intros Hc Hv. pose proof unity_pos as HU.
  destruct (of_Z_digits (- c) ltac:(lia) ltac:(lia)) as [mc [ec [Ec [_ Hec]]]].
  destruct (of_Z_exact (- c) ltac:(lia)) as [_ Hm].
  rewrite Z.abs_neq in Hm by lia. rewrite Z.opp_involutive in Hm.
  rewrite Ec in *. cbn [mag] in Hm.
  replace (- c <? 0) with true by (symmetry; apply Z.ltb_lt; lia).
  destruct v as [sv|sv| |sv mv ev]; cbn [within] in *; try contradiction.
  { subst. reflexivity. }
  destruct Hv as [-> [Hev Hmv]].
  unfold F.mul, SFmul. cbn [xorb].
  assert (Hev0 : ev <= 0) by (apply (exponent_le mv ev 0); [lia | lia | exact Hmv]).
  pose proof (product_scaled c mc mv ec ev ltac:(lia) ltac:(lia) Hm) as HP.
  replace (c * unity) with (c * 2 ^ (0 + 298)) by reflexivity.
  assert (Hle : Zpos (mc * mv) * 2 ^ (ec + ev + 298) <= c * 2 ^ (0 + 298)).
  { rewrite HP. apply Z.mul_le_mono_nonneg_l; [lia | exact Hmv]. }
  apply binary_round_aux_within; try lia.
  - split; [|lia].
    apply (grid_lt _ _ 24); lia.
  - intros Hl. now elim Hl.
Qed.

Lemma trunc_within_neg (T n : Z) (x : F.double) :
  within true T x -> 0 <= T < (n + 1) * unity -> - n <= F.trunc x <= 0.
Proof.
  intros Hw HT.
  rewrite (trunc_mag true x (within_signed _ _ _ Hw)). cbn [cond_Zopp].
  pose proof (within_mag _ _ _ Hw (proj1 HT)) as Hm.
  pose proof (mag_nonneg x).
  assert (HU : 0 < unity) by (apply pow2_pos; lia).
  assert (0 <= mag x / unity) by (apply Z.div_pos; lia).
  assert (mag x / unity < n + 1) by (apply Z.div_lt_upper_bound; lia). lia.
Qed.

(** The share [v] of the way from [minBright] to [maxBright] keeps the value
    between the two, whichever is the larger. *)
Lemma scaled_step_any (mn mx : Z) (v : F.double) :
  0 <= mn <= 255 -> 0 <= mx <= 255 -> within false unity v ->
  Z.min mn mx <= C.to_int (mn + F.to_int (F.mul (F.of_Z (C.to_int (mx - mn))) v))
  <= Z.max mn mx.
Proof.
  intros Hmn Hmx Hv.
  destruct (Z.le_gt_cases mn mx) as [Hle|Hgt].
  - pose proof (scaled_step mn mx v ltac:(lia) ltac:(lia) Hv). lia.
  - pose proof unity_pos as HU.
    rewrite (to_int_id (mx - mn)) by (unfold C.INT_MIN, C.INT_MAX; lia).
    replace (mx - mn) with (- (mn - mx)) by lia.
    pose proof (mul_int_le_neg (mn - mx) v ltac:(lia) Hv) as Hw.
    pose proof (trunc_within_neg _ (mn - mx) _ Hw ltac:(nia)) as Ht.
    unfold F.to_int.
    rewrite (to_int_id (F.trunc _)) by (unfold C.INT_MIN, C.INT_MAX; lia).
    rewrite to_int_id by (unfold C.INT_MIN, C.INT_MAX; lia). lia.
Qed.

(** ** The pins *)

Lemma waveform_cos (delta : Z) (l : Led.t) (w : World) :
  libm_cos (snd (Led.waveform delta l w)) = libm_cos w.
Proof.
  unfold Led.waveform.
  destruct (Led.mode l); try reflexivity.
  destruct (Z.rem delta 29 =? 0); [|reflexivity].
  unfold Arduino.random2, Arduino.random.
  destruct (Led.minBright l >=? Led.maxBright l); [reflexivity|].
  destruct (_ =? 0); reflexivity.
Qed.

(** What [update] adds to the trace: the new value, when it is not the old
    one. *)
Lemma update_trace (now : Z) (l : Led.t) (w : World) :
  let r := Led.update now l w in
  trace (snd r)
  = (if Led.lastValue (fst r) =? Led.lastValue l then []
     else [AnalogWrite (Led.pin l) (Led.lastValue (fst r))]) ++ trace w
  /\ libm_cos (snd r) = libm_cos w.
Proof.
  intros r. unfold r.
  destruct (Z.lt_ge_cases (Led.elapsed (C.to_ulong now) l) 0) as [H|H].
  - rewrite update_idle by exact H. cbn [fst snd]. rewrite Z.eqb_refl. split; reflexivity.
  - rewrite update_active by exact H. cbn [fst snd Led.lastValue Led.set_lastValue].
    destruct (_ =? Led.lastValue l).
    + split; [apply waveform_trace | apply waveform_cos].
    + cbn [Arduino.analogWrite Arduino.emit snd trace libm_cos app].
      rewrite waveform_trace, waveform_cos. split; reflexivity.
Qed.

Lemma update_pin (now : Z) (l : Led.t) (w : World) :
  Led.pin (fst (Led.update now l w)) = Led.pin l.
Proof. now rewrite update_frame. Qed.

Lemma shown_app_own (p : Z) (v : Z) (tr : list Event) :
  shown p (AnalogWrite p v :: tr) = Some v.
Proof. cbn [shown]. now rewrite Z.eqb_refl. Qed.

Lemma tracks_update (now : Z) : tracks (Led.update now).
Proof.
  intros l w. destruct (update_trace now l w) as [Ht Hc].
  split; [apply update_pin|]. split.
  - split; [exact Hc|]. eexists. split; [exact Ht|].
    destruct (_ =? _); repeat constructor.
  - unfold in_sync. intros Hs. rewrite Ht, update_pin.
    destruct (Z.eqb_spec (Led.lastValue (fst (Led.update now l w))) (Led.lastValue l)) as [E|_].
    + rewrite E. exact Hs.
    + apply shown_app_own.
Qed.

Lemma tracks_off : tracks Led.off.
Proof.
  intros l w. rewrite off_run. cbn [fst snd Led.pin]. split; [reflexivity|]. split.
  - split; [reflexivity|]. exists [AnalogWrite (Led.pin l) 0]. split; [reflexivity|].
    repeat constructor.
  - intros _. apply shown_app_own.
Qed.

Lemma tracks_on (mx : Z) : tracks (Led.on mx).
Proof.
  intros l w. rewrite on_run. cbn [fst snd Led.pin]. split; [reflexivity|]. split.
  - split; [reflexivity|]. exists [AnalogWrite (Led.pin l) mx]. split; [reflexivity|].
    repeat constructor.
  - intros _. apply shown_app_own.
Qed.

(** [update] after the LED was configured and the clock was read: the
    tail of [rampTo] and of [startSinusoid]. *)
Lemma tracks_configured (now : Z) (l l' : Led.t) (w w' : World) :
  Led.pin l' = Led.pin l -> Led.lastValue l' = Led.lastValue l ->
  trace w' = trace w -> libm_cos w' = libm_cos w ->
  let r := Led.update now l' w' in
  Led.pin (fst r) = Led.pin l
  /\ own_pin (Led.pin l) w (snd r)
  /\ (in_sync l w -> in_sync (fst r) (snd r)).
Proof.
  intros Hp Hv Ht Hc r.
  destruct (tracks_update now l' w') as [P [[C [evs [T O]]] S]]. fold r in P, C, T, S.
  split; [now rewrite P|]. split.
  - split; [now rewrite C|]. exists evs. rewrite <- Hp, <- Ht. now split.
  - intros Hs. apply S. unfold in_sync in *. now rewrite Hp, Hv, Ht.
Qed.

Lemma tracks_rampTo (mx pd d : Z) : tracks (Led.rampTo mx pd d).
Proof.
  intros l w. rewrite rampTo_run. now apply tracks_configured.
Qed.

Lemma tracks_startSinusoid (pd mn mx ph : Z) : tracks (Led.startSinusoid pd mn mx ph).
Proof.
  intros l w. rewrite startSinusoid_run. now apply tracks_configured.
Qed.

Lemma tracks_startFlicker (mn mx d : Z) : tracks (Led.startFlicker mn mx d).
Proof.
  intros l w. cbn. split; [reflexivity|]. split.
  - split; [reflexivity|]. exists []. split; [reflexivity | constructor].
  - intros H. exact H.
Qed.

Lemma init_run (l : Led.t) (w : World) :
  Led.init l w
  = (Led.set_startTime (time_now w) l,
     mkWorld (clock w) (S (reads w)) (entropy w) (draws w) (libm_cos w)
             (AnalogWrite (Led.pin l) 0 :: Delay 250 :: AnalogWrite (Led.pin l) 255
              :: PinMode (Led.pin l) :: trace w)).
Proof. reflexivity. Qed.

(** X5.  [lastValue] is what the pin shows: [update], [off], [on], [rampTo],
    [startSinusoid] and [startFlicker] keep the pin number, add events on
    the pin of the LED only, and leave [lastValue] equal to the latest
    value written to that pin whenever it was so before; [init] leaves the
    pin at 0 without storing it, so that it makes [lastValue] the value
    shown exactly when [lastValue] is 0. *)
Theorem lastValue_is_what_the_pin_shows :
  (forall now, tracks (Led.update now))
  /\ tracks Led.off
  /\ (forall mx, tracks (Led.on mx))
  /\ (forall mx pd d, tracks (Led.rampTo mx pd d))
  /\ (forall pd mn mx ph, tracks (Led.startSinusoid pd mn mx ph))
  /\ (forall mn mx d, tracks (Led.startFlicker mn mx d))
  /\ (forall (l : Led.t) (w : World),
        Led.pin (fst (Led.init l w)) = Led.pin l
        /\ own_pin (Led.pin l) w (snd (Led.init l w))
        /\ shown (Led.pin l) (trace (snd (Led.init l w))) = Some 0
        /\ (in_sync (fst (Led.init l w)) (snd (Led.init l w)) <-> Led.lastValue l = 0)).
Proof.
  split; [exact tracks_update|]. split; [exact tracks_off|].
  split; [exact tracks_on|]. split; [exact tracks_rampTo|].
  split; [exact tracks_startSinusoid|]. split; [exact tracks_startFlicker|].
  intros l w. rewrite init_run. cbn [fst snd Led.pin Led.set_startTime trace libm_cos].
  split; [reflexivity|]. split.
  - split; [reflexivity|]. eexists [_; _; _; _]. split; [reflexivity|]. repeat constructor.
  - split; [apply shown_app_own|].
    unfold in_sync. cbn [Led.pin Led.lastValue trace]. rewrite shown_app_own.
    change (Led.lastValue (Led.set_startTime (time_now w) l)) with (Led.lastValue l).
    split; intros H; congruence.
Qed.

(** ** The range of the PWM output *)

Lemma cos_bounded_congr (w w' : World) :
  libm_cos w' = libm_cos w -> cos_bounded w -> cos_bounded w'.
Proof. unfold cos_bounded. intros H Hc x s Hx. rewrite H. exact (Hc x s Hx). Qed.

Lemma random2_bounds (mn mx : Z) (w : World) :
  0 <= mn <= 255 -> 0 <= mx <= 255 ->
  0 <= fst (Arduino.random2 mn mx w) <= 255.
Proof.
  intros Hmn Hmx.
  destruct (Z.lt_ge_cases mn mx) as [Hlt|Hge].
  - pose proof (random2_range mn mx w ltac:(unfold C.INT_MIN; lia) Hlt
                  ltac:(unfold C.INT_MAX; lia)). lia.
  - unfold Arduino.random2. destruct (Z.geb_spec mn mx); [cbn; lia | lia].
Qed.

Lemma waveform_pwm (delta : Z) (l : Led.t) (w : World) :
  led_ok l -> cos_bounded w -> 0 <= delta <= C.INT_MAX ->
  0 <= fst (Led.waveform delta l w) <= 255.
Proof.
  intros [Hpd [Hmn [Hmx [HL Hsin]]]] Hcos Hd. unfold Led.waveform.
  destruct (Led.mode l) eqn:Em.
  - exact Hmx.
  - cbn. lia.
  - cbn [fst ret].
    pose proof (scaled_step_any (Led.minBright l) (Led.maxBright l) _ Hmn Hmx
                  (ramp_share (Led.period l) delta Hpd Hd)). lia.
  - rewrite bind_run. cbn [fst snd ret Arduino.cos].
    assert (Hv : within false unity
                   (F.div (F.add (libm_cos w
                      (F.mul (F.mul F.two F.M_PI)
                         (F.sub (F.div (F.mul F.one
                                   (F.of_Z (Z.rem (C.to_int (delta + Led.phase l)) (Led.period l))))
                                   (F.of_Z (C.to_int (Led.period l - 1)))) F.half))) F.one) F.two)).
    { apply sinusoid_share; [exact Hcos | specialize (Hsin eq_refl); lia |].
      pose proof (Z.rem_bound_abs (C.to_int (delta + Led.phase l)) (Led.period l) ltac:(lia)).
      lia. }
    pose proof (scaled_step_any (Led.minBright l) (Led.maxBright l) _ Hmn Hmx Hv). lia.
  - destruct (Z.rem delta 29 =? 0); [|exact HL].
    rewrite bind_run. cbn [fst snd ret].
    pose proof (random2_bounds (Led.minBright l) (Led.maxBright l) w Hmn Hmx).
    rewrite to_int_id by (unfold C.INT_MIN, C.INT_MAX; lia). lia.
Qed.

Lemma update_pwm (now : Z) (l : Led.t) (w : World) :
  led_ok l -> cos_bounded w -> 0 <= Led.lastValue (fst (Led.update now l w)) <= 255.
Proof.
  intros Hok Hcos.
  destruct (Z.lt_ge_cases (Led.elapsed (C.to_ulong now) l) 0) as [H|H].
  - rewrite update_idle by exact H. apply Hok.
  - rewrite update_value by exact H.
    pose proof (elapsed_range (C.to_ulong now) l) as Hr.
    apply smooth_range; try apply Hok; [lia|].
    apply waveform_pwm; [exact Hok | exact Hcos | lia].
Qed.

Lemma led_ok_set_lastValue (v : Z) (l : Led.t) :
  led_ok l -> 0 <= v <= 255 -> led_ok (Led.set_lastValue v l).
Proof. intros [H1 [H2 [H3 [_ H5]]]] Hv. repeat split; try apply H1; try apply H2; try apply H3; try apply Hv. exact H5. Qed.

Lemma in_range_update (now : Z) : in_range (Led.update now).
Proof.
  intros l w Hok Hcos. pose proof (update_pwm now l w Hok Hcos) as Hv. split.
  - rewrite update_frame. now apply led_ok_set_lastValue.
  - intros Hs. unfold safe. destruct (update_trace now l w) as [-> _].
    apply Forall_app. split; [|exact Hs].
    destruct (_ =? _); [constructor | constructor; [exact Hv | constructor]].
Qed.

Lemma in_range_off : in_range Led.off.
Proof.
  intros l w [H1 [H2 [H3 [H4 H5]]]] _. rewrite off_run. cbn [fst snd]. split.
  - repeat split; cbn; try apply H1; try apply H2; try apply H3; try lia. discriminate.
  - intros Hs. constructor; [cbn; lia | exact Hs].
Qed.

Lemma in_range_on (mx : Z) : 0 <= mx <= 255 -> in_range (Led.on mx).
Proof.
  intros Hmx l w [H1 [H2 [H3 [H4 H5]]]] _. rewrite on_run. cbn [fst snd]. split.
  - repeat split; cbn; try apply H1; try apply H2; try apply Hmx. discriminate.
  - intros Hs. constructor; [exact Hmx | exact Hs].
Qed.

Lemma in_range_configured (now : Z) (l' : Led.t) (w w' : World) :
  led_ok l' -> cos_bounded w -> trace w' = trace w -> libm_cos w' = libm_cos w ->
  led_ok (fst (Led.update now l' w')) /\ (safe w -> safe (snd (Led.update now l' w'))).
Proof.
  intros Hok Hcos Ht Hc.
  destruct (in_range_update now l' w' Hok (cos_bounded_congr w w' Hc Hcos)) as [H1 H2].
  split; [exact H1|]. intros Hs. apply H2. unfold safe. now rewrite Ht.
Qed.

Lemma in_range_rampTo (mx pd d : Z) :
  0 <= mx <= 255 -> 0 < pd <= C.INT_MAX -> in_range (Led.rampTo mx pd d).
Proof.
  intros Hmx Hpd l w [H1 [H2 [H3 [H4 H5]]]] Hcos. rewrite rampTo_run.
  apply in_range_configured; try reflexivity; [|exact Hcos].
  repeat split; cbn; try apply Hpd; try apply Hmx; try apply H4. discriminate.
Qed.

Lemma in_range_startSinusoid (pd mn mx ph : Z) :
  0 <= mn <= 255 -> 0 <= mx <= 255 -> 1 < pd <= C.INT_MAX ->
  in_range (Led.startSinusoid pd mn mx ph).
Proof.
  intros Hmn Hmx Hpd l w [H1 [H2 [H3 [H4 H5]]]] Hcos. rewrite startSinusoid_run.
  apply in_range_configured; try reflexivity; [|exact Hcos].
  repeat split; cbn; try apply Hpd; try apply Hmx; try apply Hmn; try apply H4; lia.
Qed.

Lemma in_range_startFlicker (mn mx d : Z) :
  0 <= mn <= 255 -> 0 <= mx <= 255 -> in_range (Led.startFlicker mn mx d).
Proof.
  intros Hmn Hmx l w [H1 [H2 [H3 [H4 H5]]]] _. cbn. split; [|auto].
  repeat split; cbn; try apply H1; try apply Hmx; try apply Hmn; try apply H4. discriminate.
Qed.

Lemma in_range_init : in_range Led.init.
Proof.
  intros l w [H1 [H2 [H3 [H4 H5]]]] _. rewrite init_run. cbn [fst snd]. split.
  - repeat split; cbn; try apply H1; try apply H2; try apply H3; try apply H4. exact H5.
  - intros Hs. unfold safe. cbn [trace]. repeat constructor; cbn; try lia. exact Hs.
Qed.

(** X6.  The values written stay within the range of the PWM output.  On
    an LED with a period from 1 to 32767 (above 1 for a sinusoid), bounds
    and [lastValue] from 0 to 255, in either order of the bounds, and with
    a [cos] between -1 and 1, every operation called with arguments in
    these ranges keeps the LED so and writes values from 0 to 255 only. *)
Theorem writes_stay_within_pwm_range :
  (forall now, in_range (Led.update now))
  /\ in_range Led.init
  /\ in_range Led.off
  /\ (forall mx, 0 <= mx <= 255 -> in_range (Led.on mx))
  /\ (forall mx pd d, 0 <= mx <= 255 -> 0 < pd <= C.INT_MAX -> in_range (Led.rampTo mx pd d))
  /\ (forall pd mn mx ph,
        0 <= mn <= 255 -> 0 <= mx <= 255 -> 1 < pd <= C.INT_MAX ->
        in_range (Led.startSinusoid pd mn mx ph))
  /\ (forall mn mx d, 0 <= mn <= 255 -> 0 <= mx <= 255 -> in_range (Led.startFlicker mn mx d)).
Proof.
  split; [exact in_range_update|]. split; [exact in_range_init|].
  split; [exact in_range_off|]. split; [exact in_range_on|].
  split; [exact in_range_rampTo|]. split; [exact in_range_startSinusoid|].
  exact in_range_startFlicker.
Qed.

(** * Further properties: the whole sketch *)

Lemma touches_refl (P : Z -> Prop) (w : World) : touches P w w.
Proof. split; [reflexivity|]. exists []. split; [reflexivity | constructor]. Qed.

Lemma touches_trans (P : Z -> Prop) (w1 w2 w3 : World) :
  touches P w1 w2 -> touches P w2 w3 -> touches P w1 w3.
Proof.
  intros [C1 [e1 [T1 F1]]] [C2 [e2 [T2 F2]]]. split; [congruence|].
  exists (e2 ++ e1). split.
  - rewrite T2, T1. apply app_assoc.
  - apply Forall_app. now split.
Qed.

Lemma own_pin_touches (P : Z -> Prop) (p : Z) (w w' : World) :
  P p -> own_pin p w w' -> touches P w w'.
Proof.
  intros Hp [C [evs [T F]]]. split; [exact C|]. exists evs. split; [exact T|].
  eapply Forall_impl; [|exact F]. intros e He. now exists p.
Qed.

Lemma touches_cos (P : Z -> Prop) (w w' : World) :
  touches P w w' -> cos_bounded w -> cos_bounded w'.
Proof. intros [C _]. now apply cos_bounded_congr. Qed.

Lemma shown_other (P : Z -> Prop) (k : Z) (evs tr : list Event) :
  Forall (fun e => exists p, P p /\ on_pin p e) evs -> ~ P k ->
  shown k (evs ++ tr) = shown k tr.
Proof.
  intros F Hk. induction F as [|e evs [p [Hp He]] _ IH]; [reflexivity|].
  cbn [app shown]. destruct e as [q|q v|ms]; try exact IH.
  cbn [on_pin] in He. subst q.
  destruct (Z.eqb_spec p k) as [->|_]; [contradiction | exact IH].
Qed.

Lemma led_state_other (P : Z -> Prop) (b : bool) (k : Z) (l : Led.t) (w w' : World) :
  led_state b k l w -> touches P w w' -> ~ P k -> led_state b k l w'.
Proof.
  intros [Hp [Hok Hs]] [_ [evs [T F]]] Hk. split; [exact Hp|]. split; [exact Hok|].
  destruct b; [|exact Hs].
  unfold in_sync in *. rewrite Hp in *. rewrite T, (shown_other P) by assumption. exact Hs.
Qed.

Lemma led_step_of (m : Led.t -> State World Led.t) :
  tracks m -> in_range m -> led_step true true m.
Proof.
  intros Ht Hr k l w [Hp [Hok Hs]] Hcos Hsafe.
  destruct (Ht l w) as [P [O S]]. destruct (Hr l w Hok Hcos) as [Hok' Hsafe'].
  rewrite Hp in O.
  split; [|split; [auto | exact O]].
  split; [congruence|]. split; [exact Hok' | auto].
Qed.

Lemma led_step_init : led_step false true Led.init.
Proof.
  intros k l w [Hp [Hok Hs]] Hcos Hsafe.
  destruct (in_range_init l w Hok Hcos) as [Hok' Hsafe'].
  rewrite init_run in *. cbn [fst snd] in *.
  split; [|split; [auto|]].
  - split; [exact Hp|]. split; [exact Hok'|].
    unfold in_sync. cbn [Led.pin Led.set_startTime trace].
    rewrite shown_app_own. f_equal. symmetry. exact Hs.
  - split; [reflexivity|]. eexists [_; _; _; _]. split; [reflexivity|].
    rewrite <- Hp. repeat constructor.
Qed.

Lemma own_pin_cos (p : Z) (w w' : World) : own_pin p w w' -> cos_bounded w -> cos_bounded w'.
Proof. intros [C _]. now apply cos_bounded_congr. Qed.

Lemma led_state_aside (b : bool) (k p : Z) (l : Led.t) (w w' : World) :
  led_state b k l w -> own_pin p w w' -> p <> k -> led_state b k l w'.
Proof.
  intros Hl Ho Hne.
  apply (led_state_other (fun q => q = p) b k l w w' Hl); [|congruence].
  now apply (own_pin_touches _ p).
Qed.

Lemma each_step (b b' : bool) (f1 f2 f3 : Led.t -> State World Led.t) :
  led_step b b' f1 -> led_step b b' f2 -> led_step b b' f3 ->
  engine_step b b' (Engine.each f1 f2 f3).
Proof.
  intros H1 H2 H3 e w [E1 [E2 E3]] Hcos Hsafe.
  unfold Engine.each. rewrite !bind_run. cbn [ret fst snd].
  set (r1 := f1 (Engine.led1 e) w).
  destruct (H1 9 (Engine.led1 e) w E1 Hcos Hsafe) as [A1 [S1 O1]]. fold r1 in A1, S1, O1.
  pose proof (own_pin_cos _ _ _ O1 Hcos) as C1.
  set (r2 := f2 (Engine.led2 e) (snd r1)).
  destruct (H2 10 (Engine.led2 e) (snd r1)
              (led_state_aside _ _ 9 _ _ _ E2 O1 ltac:(lia)) C1 S1) as [A2 [S2 O2]].
  fold r2 in A2, S2, O2.
  pose proof (own_pin_cos _ _ _ O2 C1) as C2.
  set (r3 := f3 (Engine.led3 e) (snd r2)).
  destruct (H3 11 (Engine.led3 e) (snd r2)
              (led_state_aside _ _ 10 _ _ _
                 (led_state_aside _ _ 9 _ _ _ E3 O1 ltac:(lia)) O2 ltac:(lia)) C2 S2)
    as [A3 [S3 O3]].
  fold r3 in A3, S3, O3.
  split; [|split; [exact S3|]].
  - split; [|split; [|exact A3]]; cbn [Engine.led1 Engine.led2 Engine.led3].
    + apply (led_state_aside _ _ 11 _ (snd r2)); [|exact O3 | lia].
      apply (led_state_aside _ _ 10 _ (snd r1)); [exact A1 | exact O2 | lia].
    + apply (led_state_aside _ _ 11 _ (snd r2)); [exact A2 | exact O3 | lia].
  - apply (touches_trans _ w (snd r2)); [apply (touches_trans _ w (snd r1))|].
    + apply (own_pin_touches _ 9); [left; reflexivity | exact O1].
    + apply (own_pin_touches _ 10); [right; left; reflexivity | exact O2].
    + apply (own_pin_touches _ 11); [right; right; reflexivity | exact O3].
Qed.

Lemma int_max_above (z : Z) : z <= 32767 -> z <= C.INT_MAX.
Proof. unfold C.INT_MAX. lia. Qed.

Lemma step_update (now : Z) : led_step true true (Led.update now).
Proof. apply led_step_of; [apply tracks_update | apply in_range_update]. Qed.

Lemma step_off : led_step true true Led.off.
Proof. apply led_step_of; [apply tracks_off | apply in_range_off]. Qed.

Lemma step_on (mx : Z) : 0 <= mx <= 255 -> led_step true true (Led.on mx).
Proof. intros H. apply led_step_of; [apply tracks_on | now apply in_range_on]. Qed.

Lemma step_rampTo (mx pd d : Z) :
  0 <= mx <= 255 -> 0 < pd <= 32767 -> led_step true true (Led.rampTo mx pd d).
Proof.
  intros Hmx Hpd. apply led_step_of; [apply tracks_rampTo|].
  apply in_range_rampTo; [exact Hmx|]. split; [lia | apply int_max_above; lia].
Qed.

Lemma step_startSinusoid (pd mn mx ph : Z) :
  0 <= mn <= 255 -> 0 <= mx <= 255 -> 1 < pd <= 32767 ->
  led_step true true (Led.startSinusoid pd mn mx ph).
Proof.
  intros Hmn Hmx Hpd. apply led_step_of; [apply tracks_startSinusoid|].
  apply in_range_startSinusoid; [exact Hmn | exact Hmx|].
  split; [lia | apply int_max_above; lia].
Qed.

Lemma step_startFlicker (mn mx d : Z) :
  0 <= mn <= 255 -> 0 <= mx <= 255 -> led_step true true (Led.startFlicker mn mx d).
Proof.
  intros Hmn Hmx. apply led_step_of; [apply tracks_startFlicker|].
  now apply in_range_startFlicker.
Qed.

Lemma engine_setup_step : engine_step false true Engine.setup.
Proof. apply each_step; apply led_step_init. Qed.

Lemma engine_loop_step (now : Z) : engine_step true true (Engine.loop now).
Proof. apply each_step; apply step_update. Qed.

Ltac led_step_tac :=
  match goal with
  | |- led_step _ _ Led.init => apply led_step_init
  | |- led_step _ _ Led.off => apply step_off
  | |- led_step _ _ (Led.update _) => apply step_update
  | |- led_step _ _ (Led.on _) => apply step_on; lia
  | |- led_step _ _ (Led.rampTo _ _ _) => apply step_rampTo; lia
  | |- led_step _ _ (Led.startSinusoid _ _ _ _) => apply step_startSinusoid; lia
  | |- led_step _ _ (Led.startFlicker _ _ _) => apply step_startFlicker; lia
  end.

Lemma engine_newState_step (st : EngineState.t) : engine_step true true (Engine.newState st).
Proof.
  intros e w He Hcos Hsafe.
  assert (He' : engine_state true
                  (Engine.mk st (Engine.led1 e) (Engine.led2 e) (Engine.led3 e)) w)
    by exact He.
  unfold Engine.newState. cbv zeta.
  destruct st;
    refine (each_step true true _ _ _ _ _ _ _ w He' Hcos Hsafe); led_step_tac.
Qed.

(** ** The invariant through the programs of the sketch *)

Lemma call_run {T : Type} (rd : Sketch -> T) (wr : T -> Sketch -> Sketch)
    (method : T -> State World T) (s : Sketch * World) :
  call rd wr method s
  = (tt, (wr (fst (method (rd (fst s)) (snd s))) (fst s),
          snd (method (rd (fst s)) (snd s)))).
Proof.
  unfold call, get, lift, modify. rewrite !bind_run. cbn [fst snd].
  destruct (method (rd (fst s)) (snd s)). reflexivity.
Qed.

Lemma engine_state_other (P : Z -> Prop) (b : bool) (e : Engine.t) (w w' : World) :
  engine_state b e w -> touches P w w' -> ~ P 9 -> ~ P 10 -> ~ P 11 ->
  engine_state b e w'.
Proof.
  intros [E1 [E2 E3]] Ht H9 H10 H11.
  repeat split; eapply led_state_other; eauto.
Qed.

Lemma inv_on_engine (be be' bc bh bl : bool) (m : Engine.t -> State World Engine.t) :
  engine_step be be' m ->
  hoare (sketch_inv be bc bh bl) (on_engine m) (fun _ => sketch_inv be' bc bh bl).
Proof.
  intros Hm [g w] [Hcos [Hsafe [He [Hc [Hh Hl]]]]]. cbn [fst snd] in *.
  unfold on_engine. rewrite call_run. cbn [fst snd engine cockpit headlights landingLights set_engine].
  destruct (Hm (engine g) w He Hcos Hsafe) as [He' [Hs' Ht]].
  assert (N3 : ~ engine_pin 3) by (unfold engine_pin; lia).
  assert (N5 : ~ engine_pin 5) by (unfold engine_pin; lia).
  assert (N6 : ~ engine_pin 6) by (unfold engine_pin; lia).
  split; [exact (touches_cos _ _ _ Ht Hcos)|]. split; [exact Hs'|]. split; [exact He'|].
  repeat split; eapply led_state_other; eauto.
Qed.

Lemma inv_on_cockpit (be bc bc' bh bl : bool) (m : Led.t -> State World Led.t) :
  led_step bc bc' m ->
  hoare (sketch_inv be bc bh bl) (on_cockpit m) (fun _ => sketch_inv be bc' bh bl).
Proof.
  intros Hm [g w] [Hcos [Hsafe [He [Hc [Hh Hl]]]]]. cbn [fst snd] in *.
  unfold on_cockpit. rewrite call_run. cbn [fst snd engine cockpit headlights landingLights set_cockpit].
  destruct (Hm 3 (cockpit g) w Hc Hcos Hsafe) as [Hc' [Hs' Ho]].
  pose proof (own_pin_touches (fun q => q = 3) 3 _ _ eq_refl Ho) as Ht.
  split; [exact (own_pin_cos _ _ _ Ho Hcos)|]. split; [exact Hs'|].
  split; [apply (engine_state_other _ _ _ _ _ He Ht); lia|].
  split; [exact Hc'|].
  split; apply (led_state_aside _ _ 3 _ w); auto; lia.
Qed.

Lemma inv_on_headlights (be bc bh bh' bl : bool) (m : Led.t -> State World Led.t) :
  led_step bh bh' m ->
  hoare (sketch_inv be bc bh bl) (on_headlights m) (fun _ => sketch_inv be bc bh' bl).
Proof.
  intros Hm [g w] [Hcos [Hsafe [He [Hc [Hh Hl]]]]]. cbn [fst snd] in *.
  unfold on_headlights. rewrite call_run.
  cbn [fst snd engine cockpit headlights landingLights set_headlights].
  destruct (Hm 5 (headlights g) w Hh Hcos Hsafe) as [Hh' [Hs' Ho]].
  pose proof (own_pin_touches (fun q => q = 5) 5 _ _ eq_refl Ho) as Ht.
  split; [exact (own_pin_cos _ _ _ Ho Hcos)|]. split; [exact Hs'|].
  split; [apply (engine_state_other _ _ _ _ _ He Ht); lia|].
  split; [apply (led_state_aside _ _ 5 _ w); auto; lia|].
  split; [exact Hh'|].
  apply (led_state_aside _ _ 5 _ w); auto; lia.
Qed.

Lemma inv_on_landingLights (be bc bh bl bl' : bool) (m : Led.t -> State World Led.t) :
  led_step bl bl' m ->
  hoare (sketch_inv be bc bh bl) (on_landingLights m) (fun _ => sketch_inv be bc bh bl').
Proof.
  intros Hm [g w] [Hcos [Hsafe [He [Hc [Hh Hl]]]]]. cbn [fst snd] in *.
  unfold on_landingLights. rewrite call_run.
  cbn [fst snd engine cockpit headlights landingLights set_landingLights].
  destruct (Hm 6 (landingLights g) w Hl Hcos Hsafe) as [Hl' [Hs' Ho]].
  pose proof (own_pin_touches (fun q => q = 6) 6 _ _ eq_refl Ho) as Ht.
  split; [exact (own_pin_cos _ _ _ Ho Hcos)|]. split; [exact Hs'|].
  split; [apply (engine_state_other _ _ _ _ _ He Ht); lia|].
  split; [apply (led_state_aside _ _ 6 _ w); auto; lia|].
  split; [apply (led_state_aside _ _ 6 _ w); auto; lia|].
  exact Hl'.
Qed.

Lemma inv_modify (be bc bh bl : bool) (f : Sketch -> Sketch) :
  keeps_leds f ->
  hoare (sketch_inv be bc bh bl) (modify f) (fun _ => sketch_inv be bc bh bl).
Proof.
  intros Hf [g w] H. unfold sketch_inv, modify in *. cbn [fst snd] in *.
  destruct (Hf g) as [-> [-> [-> ->]]]. exact H.
Qed.

Lemma quiet_touches {A : Type} (m : State World A) (w : World) :
  quiet m -> touches (fun _ => False) w (snd (m w)).
Proof.
  intros H. destruct (H w) as [T C]. split; [exact C|].
  exists []. split; [exact T | constructor].
Qed.

Lemma lift_run {A : Type} (m : State World A) (s : Sketch * World) :
  lift m s = (fst (m (snd s)), (fst s, snd (m (snd s)))).
Proof. unfold lift. now destruct (m (snd s)). Qed.

Lemma inv_lift {A : Type} (be bc bh bl : bool) (m : State World A) :
  quiet m ->
  hoare (sketch_inv be bc bh bl) (lift m) (fun _ => sketch_inv be bc bh bl).
Proof.
  intros Hq [g w] [Hcos [Hsafe [He [Hc [Hh Hl]]]]]. cbn [fst snd] in *.
  pose proof (quiet_touches m w Hq) as Ht. destruct (Hq w) as [T C].
  rewrite lift_run. unfold sketch_inv. cbn [fst snd].
  split; [exact (touches_cos _ _ _ Ht Hcos)|].
  split; [unfold safe in *; now rewrite T|].
  split; [apply (engine_state_other _ _ _ _ _ He Ht); auto|].
  repeat split; eapply led_state_other; eauto.
Qed.

Lemma inv_get {A : Type} (be bc bh bl : bool) (f : Sketch -> A) :
  hoare (sketch_inv be bc bh bl) (get f) (fun _ => sketch_inv be bc bh bl).
Proof. intros s H. exact H. Qed.

Lemma inv_ret {A : Type} (be bc bh bl : bool) (a : A) :
  hoare (sketch_inv be bc bh bl) (ret a) (fun _ => sketch_inv be bc bh bl).
Proof. intros s H. exact H. Qed.

Lemma quiet_millis : quiet Arduino.millis.
Proof. intros w. split; reflexivity. Qed.

Lemma quiet_random (howbig : Z) : quiet (Arduino.random howbig).
Proof.
  intros w. unfold Arduino.random. destruct (howbig =? 0); split; reflexivity.
Qed.

Lemma quiet_random2 (a b : Z) : quiet (Arduino.random2 a b).
Proof.
  intros w. unfold Arduino.random2. destruct (a >=? b); [split; reflexivity|].
  rewrite bind_run. cbn [ret snd]. apply quiet_random.
Qed.

Lemma keeps_leds_falconState v : keeps_leds (set_falconState v).
Proof. intros g. repeat split. Qed.
Lemma keeps_leds_stateStartTime v : keeps_leds (set_stateStartTime v).
Proof. intros g. repeat split. Qed.
Lemma keeps_leds_nextState v : keeps_leds (set_nextState v).
Proof. intros g. repeat split. Qed.
Lemma keeps_leds_lastStartFailed v : keeps_leds (set_lastStartFailed v).
Proof. intros g. repeat split. Qed.

Ltac inv_step :=
  match goal with
  | |- hoare _ (bind _ _) _ => eapply hoare_bind; [|intros ?]
  | |- hoare _ (ret _) _ => apply inv_ret
  | |- hoare _ (get _) _ => apply inv_get
  | |- hoare _ (modify (set_falconState _)) _ => apply inv_modify, keeps_leds_falconState
  | |- hoare _ (modify (set_stateStartTime _)) _ => apply inv_modify, keeps_leds_stateStartTime
  | |- hoare _ (modify (set_nextState _)) _ => apply inv_modify, keeps_leds_nextState
  | |- hoare _ (modify (set_lastStartFailed _)) _ => apply inv_modify, keeps_leds_lastStartFailed
  | |- hoare _ (lift Arduino.millis) _ => apply inv_lift, quiet_millis
  | |- hoare _ (lift (Arduino.random _)) _ => apply inv_lift, quiet_random
  | |- hoare _ (lift (Arduino.random2 _ _)) _ => apply inv_lift, quiet_random2
  | |- hoare _ (on_cockpit _) _ => apply inv_on_cockpit; led_step_tac
  | |- hoare _ (on_headlights _) _ => apply inv_on_headlights; led_step_tac
  | |- hoare _ (on_landingLights _) _ => apply inv_on_landingLights; led_step_tac
  | |- hoare _ (on_engine (Engine.newState _)) _ => apply inv_on_engine, engine_newState_step
  | |- hoare _ (on_engine (Engine.loop _)) _ => apply inv_on_engine, engine_loop_step
  | |- hoare _ (on_engine Engine.setup) _ => apply inv_on_engine, engine_setup_step
  | |- hoare _ (if ?b then _ else _) _ => destruct b
  end.

Lemma inv_drawStartFailure :
  hoare (sketch_inv true true true true) drawStartFailure
        (fun _ => sketch_inv true true true true).
Proof. unfold drawStartFailure. repeat inv_step. Qed.

Lemma inv_nextFalconState (st : FalconState) :
  hoare (sketch_inv true true true true) (nextFalconState st)
        (fun _ => sketch_inv true true true true).
Proof.
  unfold nextFalconState.
  eapply hoare_bind; [apply inv_modify, keeps_leds_falconState | intros ?].
  destruct st; repeat first [apply inv_drawStartFailure | inv_step].
Qed.

Lemma inv_loop :
  hoare (sketch_inv true true true true) loop (fun _ => sketch_inv true true true true).
Proof.
  unfold loop. repeat first [apply inv_nextFalconState | inv_step].
Qed.

Lemma inv_setup :
  hoare (sketch_inv false false false false) setup
        (fun _ => sketch_inv true true true true).
Proof.
  unfold setup. repeat first [apply inv_nextFalconState | inv_step].
Qed.

Lemma inv_rounds (n : nat) :
  hoare (sketch_inv true true true true) (rounds n) (fun _ => sketch_inv true true true true).
Proof.
  induction n as [|n IH]; cbn [rounds]; [apply inv_ret|].
  eapply hoare_bind; [apply inv_loop | intros ?; exact IH].
Qed.

Lemma inv_sketch (n : nat) :
  hoare (sketch_inv false false false false) (sketch n)
        (fun _ => sketch_inv true true true true).
Proof.
  unfold sketch. eapply hoare_bind; [apply inv_setup | intros ?; apply inv_rounds].
Qed.

Lemma led_ok_new (pn : Z) : led_ok (Led.new pn).
Proof.
  unfold led_ok, Led.new. cbn. repeat split; try lia; try discriminate.
Qed.

Lemma inv_initial (w : World) :
  cos_bounded w -> safe w -> sketch_inv false false false false (initial, w).
Proof.
  intros Hcos Hsafe. unfold sketch_inv, engine_state, led_state. cbn [fst snd].
  repeat split; try assumption; try reflexivity; apply led_ok_new.
Qed.

Lemma cos_bounded_sample : cos_bounded sample_world.
Proof.
  intros x s _. exists false. split; [vm_compute; repeat split; discriminate|].
  vm_compute. discriminate.
Qed.

(** X7.  Whatever the clock and the random generator answer, every value
    the sketch writes to a pin, in [setup()] and in any number of rounds of
    [loop()], is between 0 and 255 (for a [cos] between -1 and 1). *)
Theorem sketch_writes_within_pwm_range :
  forall (w : World) (n : nat),
    cos_bounded w -> trace w = [] ->
    Forall pwm_ok (trace (snd (snd (sketch n (initial, w))))).
Proof.
  intros w n Hcos Ht.
  assert (Hs : safe w) by (unfold safe; rewrite Ht; constructor).
  destruct (inv_sketch n (initial, w) (inv_initial w Hcos Hs)) as [_ [H _]]. exact H.
Qed.

Lemma sketch_writes_within_pwm_range_witness :
  (cos_bounded sample_world /\ trace sample_world = [])
  /\ Forall pwm_ok (trace (snd (snd (sketch 3 (initial, sample_world))))).
Proof.
  split; [split; [exact cos_bounded_sample | reflexivity]|].
  exact (sketch_writes_within_pwm_range sample_world 3 cos_bounded_sample eq_refl).
Defined.

(** X8.  After [setup()] and any number of rounds of [loop()] the six LEDs
    sit on the pins 9, 10, 11 (engine), 3 (cockpit), 5 (headlights) and 6
    (landing lights), and the [lastValue] of each is the value last written
    to its pin. *)
Theorem sketch_keeps_lastValue_in_step :
  forall (w : World) (n : nat),
    cos_bounded w -> trace w = [] ->
    let g := fst (snd (sketch n (initial, w))) in
    let tr := trace (snd (snd (sketch n (initial, w)))) in
    let in_step (k : Z) (l : Led.t) :=
      Led.pin l = k /\ shown k tr = Some (Led.lastValue l) in
    in_step 9 (Engine.led1 (engine g)) /\ in_step 10 (Engine.led2 (engine g))
    /\ in_step 11 (Engine.led3 (engine g)) /\ in_step 3 (cockpit g)
    /\ in_step 5 (headlights g) /\ in_step 6 (landingLights g).
Proof.
  intros w n Hcos Ht g tr in_step.
  assert (Hs : safe w) by (unfold safe; rewrite Ht; constructor).
  destruct (inv_sketch n (initial, w) (inv_initial w Hcos Hs))
    as [_ [_ [[E1 [E2 E3]] [Hc [Hh Hl]]]]].
  fold g in E1, E2, E3, Hc, Hh, Hl.
  assert (H : forall k l, led_state true k l (snd (snd (sketch n (initial, w)))) ->
                          in_step k l).
  { intros k l [Hp [_ Hsync]]. split; [exact Hp|]. unfold in_sync in Hsync.
    now rewrite Hp in Hsync. }
  repeat split; now apply H.
Qed.

Lemma sketch_keeps_lastValue_in_step_witness :
  (cos_bounded sample_world /\ trace sample_world = [])
  /\ shown 3 (trace (snd (snd (sketch 3 (initial, sample_world)))))
     = Some (Led.lastValue (cockpit (fst (snd (sketch 3 (initial, sample_world)))))).
Proof.
  split; [split; [exact cos_bounded_sample | reflexivity]|].
  destruct (sketch_keeps_lastValue_in_step sample_world 3 cos_bounded_sample eq_refl)
    as [_ [_ [_ [[_ H] _]]]].
  exact H.
Defined.

(** * Further properties: the pace of the narrative *)

Lemma keeps_ret {A B : Type} (f : Sketch -> B) (a : A) : keeps f (ret a).
Proof. intros s. reflexivity. Qed.

Lemma keeps_bind {A A' B : Type} (f : Sketch -> B) (m : Prog A) (k : A -> Prog A') :
  keeps f m -> (forall a, keeps f (k a)) -> keeps f (bind m k).
Proof. intros Hm Hk s. rewrite bind_run, Hk. apply Hm. Qed.

Lemma keeps_get {A B : Type} (f : Sketch -> B) (h : Sketch -> A) : keeps f (get h).
Proof. intros s. reflexivity. Qed.

Lemma keeps_lift {A B : Type} (f : Sketch -> B) (m : State World A) : keeps f (lift m).
Proof. intros s. now rewrite lift_run. Qed.

Lemma keeps_modify {B : Type} (f : Sketch -> B) (h : Sketch -> Sketch) :
  (forall g, f (h g) = f g) -> keeps f (modify h).
Proof. intros H s. apply H. Qed.

Lemma keeps_call {T B : Type} (f : Sketch -> B) (rd : Sketch -> T)
    (wr : T -> Sketch -> Sketch) (method : T -> State World T) :
  (forall v g, f (wr v g) = f g) -> keeps f (call rd wr method).
Proof. intros H s. rewrite call_run. apply H. Qed.

Ltac keeps_steps :=
  repeat first
    [ apply keeps_bind; [|intros ?]
    | apply keeps_ret
    | apply keeps_get
    | apply keeps_lift
    | apply keeps_call; reflexivity
    | apply keeps_modify; reflexivity
    | match goal with |- keeps _ (if ?b then _ else _) => destruct b end ].

Lemma nextFalconState_keeps_stateStartTime (st : FalconState) :
  keeps (fun g => (stateStartTime g, nextState g)) (nextFalconState st).
Proof. unfold nextFalconState, drawStartFailure. destruct st; keeps_steps. Qed.

Lemma nextFalconState_records (st : FalconState) (s : Sketch * World) :
  falconState (fst (snd (nextFalconState st s))) = st.
Proof.
  unfold nextFalconState.
  destruct st; rewrite bind_run;
    match goal with
    | |- falconState (fst (snd (?m ?s0))) = _ =>
        let H := fresh in
        assert (H : keeps falconState m) by (unfold drawStartFailure; keeps_steps);
        rewrite H
    end; reflexivity.
Qed.

Lemma hoare_random2 (a b : Z) :
  C.INT_MIN <= a -> a < b -> b <= C.INT_MAX ->
  hoare (fun _ : Sketch * World => True) (lift (Arduino.random2 a b))
        (fun t _ => a <= t < b).
Proof.
  intros Ha Hab Hb s _. rewrite lift_run. cbn [fst]. now apply random2_range.
Qed.

Tactic Notation "skip" integer(n) :=
  do n (eapply hoare_bind; [apply hoare_true | intros ?]).

Ltac draw_dwell :=
  eapply hoare_bind;
  [ apply hoare_random2; unfold C.INT_MIN, C.INT_MAX; lia | intros ? ].

Lemma nextFalconState_dwell (st : FalconState) :
  hoare (fun _ => True) (nextFalconState st) (fun ns _ => dwell st (timeToSwitch ns)).
Proof.
  unfold nextFalconState. destruct st.
  - skip 6. draw_dwell.
    eapply hoare_bind; [apply hoare_get | intros ?].
    apply hoare_ret. intros s [H _]. exact H.
  - skip 5. apply hoare_ret. reflexivity.
  - skip 5. draw_dwell. apply hoare_ret. auto.
  - skip 8. draw_dwell. apply hoare_ret. auto.
  - skip 5. apply hoare_ret. reflexivity.
  - skip 5. apply hoare_ret. reflexivity.
  - skip 5. draw_dwell. apply hoare_ret. auto.
  - skip 5. apply hoare_ret. reflexivity.
Qed.

Lemma nextFalconState_dwell_rec (st : FalconState) (s : Sketch * World) :
  falconState (fst (snd (nextFalconState st s))) = st
  /\ stateStartTime (fst (snd (nextFalconState st s))) = stateStartTime (fst s)
  /\ dwell st (timeToSwitch (fst (nextFalconState st s))).
Proof.
  split; [apply nextFalconState_records|]. split.
  - pose proof (nextFalconState_keeps_stateStartTime st s) as H.
    now injection H.
  - exact (nextFalconState_dwell st s I).
Qed.

(** X9.  A transition of the narrative records the state it enters in
    [falconState], leaves [stateStartTime] to its caller, and returns the
    time to stay: 6000 ms preparing for flight, 5000 ms in the emergency
    shutdown, 4000 ms restarting and landing, and a random time from 5000 to
    19999 ms on the ground, 2000 to 3999 ms in a failing start, 1000 to
    1999 ms failing and 10000 to 19999 ms in flight. *)
Theorem nextFalconState_dwell_times :
  forall (st : FalconState) (s : Sketch * World),
    let r := nextFalconState st s in
    falconState (fst (snd r)) = st
    /\ stateStartTime (fst (snd r)) = stateStartTime (fst s)
    /\ dwell st (timeToSwitch (fst r)).
Proof.
  intros st s r. apply nextFalconState_dwell_rec.
Qed.

(** The LED updates at the end of [loop] leave the narrative alone. *)
Lemma updates_keep {B : Type} (f : Sketch -> B) (now : Z) :
  (forall v g, f (set_engine v g) = f g) -> (forall v g, f (set_cockpit v g) = f g) ->
  (forall v g, f (set_headlights v g) = f g) -> (forall v g, f (set_landingLights v g) = f g) ->
  keeps f (on_engine (Engine.loop now) ;;; on_cockpit (Led.update now) ;;;
           on_headlights (Led.update now) ;;; on_landingLights (Led.update now)).
Proof.
  intros H1 H2 H3 H4.
  apply keeps_bind; [apply keeps_call; assumption | intros ?].
  apply keeps_bind; [apply keeps_call; assumption | intros ?].
  apply keeps_bind; [apply keeps_call; assumption | intros ?].
  apply keeps_call; assumption.
Qed.

(** Entering a state from [loop]. *)
Lemma switch_run (now : Z) (st : FalconState) (s : Sketch * World) :
  let r := (modify (set_stateStartTime now) ;;;
            ns' <- nextFalconState st ;; modify (set_nextState ns')) s in
  stateStartTime (fst (snd r)) = now
  /\ falconState (fst (snd r)) = st
  /\ dwell st (timeToSwitch (nextState (fst (snd r)))).
Proof.
  intros r. unfold r. rewrite !bind_run. unfold modify. cbn [fst snd].
  destruct (nextFalconState_dwell_rec st (set_stateStartTime now (fst s), snd s))
    as [Hf [Hs Hd]].
  cbn [stateStartTime falconState nextState set_nextState].
  split; [exact Hs|]. split; [exact Hf | exact Hd].
Qed.

(** X10.  [loop()] reads the clock once and cuts it to 16 bits.  When more
    than the time to stay has passed since [stateStartTime], in 16-bit
    unsigned arithmetic, it enters the state [nextState.next]: it stores the
    time in [stateStartTime], the state in [falconState] and the dwell time
    of that state in [nextState].  Otherwise the narrative ([stateStartTime],
    [falconState], [nextState] and [lastStartFailed]) stays as it is. *)
Theorem loop_switches_when_due :
  forall (g : Sketch) (w : World),
    let now := C.to_uint (time_now w) in
    let g' := fst (snd (loop (g, w))) in
    if timeToSwitch (nextState g) <? C.to_uint (now - stateStartTime g)
    then stateStartTime g' = now
         /\ falconState g' = next (nextState g)
         /\ dwell (next (nextState g)) (timeToSwitch (nextState g'))
    else narrative_part g' = narrative_part g.
Proof.
  intros g w now g'. unfold g', loop.
  rewrite bind_run, lift_run. cbn [fst snd].
  change (fst (Arduino.millis w)) with (time_now w). fold now.
  unfold get. rewrite bind_run. cbn [fst snd]. rewrite bind_run. cbn [fst snd].
  rewrite bind_run.
  destruct (timeToSwitch (nextState g) <? C.to_uint (now - stateStartTime g)).
  - rewrite (updates_keep stateStartTime now) by reflexivity.
    rewrite (updates_keep falconState now) by reflexivity.
    rewrite (updates_keep nextState now) by reflexivity.
    apply switch_run.
  - rewrite (updates_keep narrative_part now) by reflexivity. reflexivity.
Qed.

(** * Further properties: repeated updates and the random generator *)

(** Outside the flicker the waveform looks at neither [lastValue] nor the
    world, [cos] apart. *)
Lemma waveform_steady (delta v : Z) (l : Led.t) (w w' : World) :
  Led.mode l <> LedMode.flicker -> libm_cos w' = libm_cos w ->
  Led.waveform delta (Led.set_lastValue v l) w' = (fst (Led.waveform delta l w), w').
Proof.
  intros Hm Hc. unfold Led.waveform.
  cbn [Led.mode Led.period Led.phase Led.minBright Led.maxBright Led.set_lastValue].
  destruct (Led.mode l); try reflexivity; [|congruence].
  rewrite !bind_run. unfold Arduino.cos. cbn [fst snd ret]. now rewrite Hc.
Qed.

Lemma smooth_set_lastValue_outside (delta value v : Z) (l : Led.t) :
  0 <= Led.period l <= C.INT_MAX -> 0 <= delta <= C.INT_MAX ->
  Led.period l <= 2 * delta -> Led.smooth delta value (Led.set_lastValue v l) = value.
Proof. intros Hpd Hd Hout. now apply smooth_outside. Qed.

(** X11.  Once the cross-fade is over, a second [update] at the same time
    changes nothing and writes nothing in the modes on, off, ramp and
    sinusoid: the value is written to the pin once. *)
Theorem update_again_writes_nothing :
  forall (now : Z) (l : Led.t) (w : World),
    Led.mode l <> LedMode.flicker ->
    0 <= Led.period l <= C.INT_MAX ->
    0 <= Led.elapsed (C.to_ulong now) l ->
    Led.period l <= 2 * Led.elapsed (C.to_ulong now) l ->
    let r := Led.update now l w in
    Led.update now (fst r) (snd r) = r.
Proof.
  intros now l w Hm Hpd Hd Hout r.
  pose proof (elapsed_range (C.to_ulong now) l) as Hr.
  destruct (update_trace now l w) as [_ Hc]. fold r in Hc.
  assert (Hf : fst r = Led.set_lastValue (Led.lastValue (fst r)) l)
    by (unfold r; apply update_frame).
  assert (Hv : Led.lastValue (fst r) = fst (Led.waveform (Led.elapsed (C.to_ulong now) l) l w)).
  { unfold r. rewrite update_value by exact Hd. apply smooth_outside; [exact Hpd | lia | exact Hout]. }
  rewrite Hf at 1.
  rewrite update_active by (rewrite elapsed_set_lastValue; exact Hd).
  rewrite elapsed_set_lastValue.
  rewrite (waveform_steady _ _ l w (snd r) Hm Hc). cbn [fst snd].
  rewrite smooth_set_lastValue_outside by (try assumption; lia).
  cbn [Led.lastValue Led.set_lastValue]. rewrite <- Hv, Z.eqb_refl.
  apply injective_projections; cbn [fst snd]; [|reflexivity].
  transitivity (Led.set_lastValue (Led.lastValue (fst r)) l);
    [reflexivity | symmetry; exact Hf].
Qed.

Lemma update_again_writes_nothing_witness :
  let l := Led.mk 9 2000 0 0 LedMode.sinusoid 10 40 1000 25 in
  let r := Led.update 3000 l table_world in
  (Led.mode l <> LedMode.flicker /\ 0 <= Led.period l <= C.INT_MAX
   /\ 0 <= Led.elapsed (C.to_ulong 3000) l
   /\ Led.period l <= 2 * Led.elapsed (C.to_ulong 3000) l)
  /\ Led.update 3000 (fst r) (snd r) = r.
Proof.
  intros l r.
  assert (H1 : Led.mode l <> LedMode.flicker) by discriminate.
  assert (H2 : 0 <= Led.period l <= C.INT_MAX) by (vm_compute; split; discriminate).
  assert (H3 : 0 <= Led.elapsed (C.to_ulong 3000) l) by (vm_compute; discriminate).
  assert (H4 : Led.period l <= 2 * Led.elapsed (C.to_ulong 3000) l)
    by (vm_compute; discriminate).
  split; [repeat split; solve [apply H2 | assumption]|].
  exact (update_again_writes_nothing 3000 l table_world H1 H2 H3 H4).
Defined.

(** ** The draws of the random generator *)

Lemma random2_draws (mn mx : Z) (w : World) :
  C.INT_MIN <= mn -> mx <= C.INT_MAX ->
  draws (snd (Arduino.random2 mn mx w)) = if mn <? mx then S (draws w) else draws w.
Proof.
  unfold C.INT_MIN, C.INT_MAX. intros Hmn Hmx. unfold Arduino.random2.
  destruct (Z.geb_spec mn mx) as [Hge|Hlt]; destruct (Z.ltb_spec mn mx); try lia;
    [reflexivity|].
  rewrite bind_run. cbn [ret snd]. unfold Arduino.random.
  rewrite to_long_id by lia.
  destruct (Z.eqb_spec (mx - mn) 0); [lia|].
  rewrite bind_run. reflexivity.
Qed.

(** X12.  [update] draws from the random generator in one case only: in
    the flicker mode, past the delay, where [delta % 29 == 0] and
    [minBright < maxBright]; it then draws exactly once.  It never reads the
    clock. *)
Theorem update_draws_for_the_flicker_only :
  forall (now : Z) (l : Led.t) (w : World),
    C.INT_MIN <= Led.minBright l -> Led.maxBright l <= C.INT_MAX ->
    let delta := Led.elapsed (C.to_ulong now) l in
    let sampling :=
      match Led.mode l with
      | LedMode.flicker =>
          (0 <=? delta) && (Z.rem delta 29 =? 0) && (Led.minBright l <? Led.maxBright l)
      | _ => false
      end in
    draws (snd (Led.update now l w)) = (if sampling then S (draws w) else draws w)
    /\ reads (snd (Led.update now l w)) = reads w
    /\ entropy (snd (Led.update now l w)) = entropy w.
Proof.
  intros now l w Hmn Hmx delta sampling.
  split; [|split; [apply update_reads|]].
  - unfold sampling.
    destruct (Z.lt_ge_cases delta 0) as [H|H].
    + unfold delta in H. rewrite update_idle by exact H.
      destruct (Z.leb_spec 0 delta); [unfold delta in *; lia|].
      destruct (Led.mode l); reflexivity.
    + unfold delta in H. rewrite update_active by exact H. fold delta.
      assert (Hw : draws (snd (Led.waveform delta l w))
                   = if match Led.mode l with
                        | LedMode.flicker =>
                            (Z.rem delta 29 =? 0) && (Led.minBright l <? Led.maxBright l)
                        | _ => false
                        end then S (draws w) else draws w).
      { unfold Led.waveform. destruct (Led.mode l); try reflexivity.
        destruct (Z.rem delta 29 =? 0); [|reflexivity].
        rewrite bind_run. cbn [ret snd andb]. now apply random2_draws. }
      destruct (Z.leb_spec 0 delta); [|lia]. cbn [andb].
      destruct (_ =? Led.lastValue l); cbn [snd Arduino.analogWrite Arduino.emit draws];
        rewrite Hw; destruct (Led.mode l); reflexivity.
  - destruct (Z.lt_ge_cases delta 0) as [H|H].
    + unfold delta in H. now rewrite update_idle.
    + unfold delta in H. rewrite update_active by exact H. fold delta.
      assert (Hw : entropy (snd (Led.waveform delta l w)) = entropy w).
      { unfold Led.waveform. destruct (Led.mode l); try reflexivity.
        destruct (Z.rem delta 29 =? 0); [|reflexivity].
        rewrite bind_run. cbn [ret snd]. unfold Arduino.random2, Arduino.random.
        destruct (_ >=? _); [reflexivity|]. rewrite bind_run. cbn [ret snd].
        destruct (_ =? 0); [reflexivity|]. rewrite bind_run. reflexivity. }
      destruct (_ =? Led.lastValue l); cbn [snd Arduino.analogWrite Arduino.emit entropy];
        exact Hw.
Qed.

Lemma update_draws_for_the_flicker_only_witness :
  let l := Led.mk 5 500 0 0 LedMode.flicker 0 32 1000 12 in
  (C.INT_MIN <= Led.minBright l /\ Led.maxBright l <= C.INT_MAX)
  /\ draws (snd (Led.update 3900 l sample_world)) = S (draws sample_world)
  /\ draws (snd (Led.update 3901 l sample_world)) = draws sample_world.
Proof.
  intros l.
  assert (H1 : C.INT_MIN <= Led.minBright l) by (vm_compute; discriminate).
  assert (H2 : Led.maxBright l <= C.INT_MAX) by (vm_compute; discriminate).
  split; [split; assumption|].
  split.
  - exact (proj1 (update_draws_for_the_flicker_only 3900 l sample_world H1 H2)).
  - exact (proj1 (update_draws_for_the_flicker_only 3901 l sample_world H1 H2)).
Defined.

Lemma lastValue_is_what_the_pin_shows_witness :
  let l := fst (Led.on 255 (Led.new 3) sample_world) in
  let w := snd (Led.on 255 (Led.new 3) sample_world) in
  in_sync l w
  /\ in_sync (fst (Led.rampTo 64 250 0 l w)) (snd (Led.rampTo 64 250 0 l w)).
Proof.
  intros l w.
  assert (H : in_sync l w) by reflexivity.
  split; [exact H|].
  destruct lastValue_is_what_the_pin_shows as [_ [_ [_ [Hramp _]]]].
  destruct (Hramp 64 250 0 l w) as [_ [_ Hs]]. exact (Hs H).
Defined.

Lemma writes_stay_within_pwm_range_witness :
  let l := Led.new 3 in
  (led_ok l /\ cos_bounded sample_world /\ safe sample_world
   /\ 0 <= 255 <= 255 /\ 0 < 250 <= C.INT_MAX)
  /\ led_ok (fst (Led.rampTo 255 250 0 l sample_world))
  /\ safe (snd (Led.rampTo 255 250 0 l sample_world)).
Proof.
  intros l.
  assert (H1 : led_ok l) by apply led_ok_new.
  assert (H2 : safe sample_world) by constructor.
  assert (H3 : 0 <= 255 <= 255) by lia.
  assert (H4 : 0 < 250 <= C.INT_MAX) by (vm_compute; split; [reflexivity | discriminate]).
  split; [repeat split; solve [apply H3 | apply H4 | assumption | apply cos_bounded_sample ]|].
  destruct writes_stay_within_pwm_range as [_ [_ [_ [_ [Hramp _]]]]].
  destruct (Hramp 255 250 0 H3 H4 l sample_world H1 cos_bounded_sample) as [Hok Hs].
  split; [exact Hok | exact (Hs H2)].
Defined.

(** * Further properties: the length of the cross-fade *)

(** ** Rounding a positive number *)

Lemma shifted_positive (m e : Z) : 0 < m -> -149 <= e -> 0 < m / 2 ^ shift_of m e.
Proof.
  intros Hm He. destruct m as [|p|p]; try lia.
  pose proof (digits_bounds p) as [Hlo _].
  assert (HN : shift_of (Zpos p) e = Z.max 0 (Zpos (digits2_pos p) - 24)).
  { unfold shift_of. cbn [Zdigits2]. rewrite fexp_eq. lia. }
  rewrite HN.
  apply Z.div_str_pos. split; [apply pow2_pos; lia|].
  eapply Z.le_trans; [|exact Hlo].
  apply Z.pow_le_mono_r; lia.
Qed.

(** A positive mantissa rounds to a positive number, at an exponent that is
    not below the one it came with. *)
Lemma round_aux_positive (mx ex : Z) (lx : location) :
  0 < mx -> -149 <= ex ->
  match binary_round_aux F.prec F.emax false mx ex lx with
  | S754_finite false _ e' => ex <= e'
  | S754_infinity false => True
  | _ => False
  end.
Proof.
  intros Hmx Hex.
  destruct (binary_round_aux_spec false mx ex lx ltac:(lia)) as [m1 [Hm1 [_ ->]]].
  pose proof (shifted_positive mx ex Hmx Hex) as Hq.
  pose proof (shift_of_nonneg mx ex) as HN1.
  set (e1 := ex + shift_of mx ex) in *.
  pose proof (shifted_positive m1 e1 ltac:(lia) ltac:(lia)) as Hq2.
  pose proof (shift_of_nonneg m1 e1) as HN2.
  destruct (m1 / 2 ^ shift_of m1 e1) as [|p|p]; try lia.
  destruct (_ <=? 104); [lia | exact I].
Qed.

Lemma ltb_positive (x : F.double) :
  match x with
  | S754_finite false _ _ | S754_infinity false => True
  | _ => False
  end -> F.ltb F.zero x = true.
Proof. destruct x as [s|[|]| |[|] m e]; try contradiction; reflexivity. Qed.

(** [x - y] is positive when [0 < y < x]. *)
Lemma sub_positive (m my : positive) (e ey : Z) :
  -24 <= e -> -24 <= ey ->
  Zpos my * 2 ^ (ey + 298) < Zpos m * 2 ^ (e + 298) ->
  match F.sub (S754_finite false m e) (S754_finite false my ey) with
  | S754_finite false _ e' => -47 <= e'
  | S754_infinity false => True
  | _ => False
  end.
Proof.
  intros He Hey Hlt. rewrite sub_finite. cbn [cond_Zopp].
  set (ez := Z.min e ey).
  assert (HD : 0 < Zpos m * 2 ^ (e - ez) - Zpos my * 2 ^ (ey - ez)).
  { pose proof (pow2_pos (ez + 298) ltac:(unfold ez; lia)) as HP.
    apply Z.lt_0_sub. apply (Z.mul_lt_mono_pos_r (2 ^ (ez + 298))); [exact HP|].
    rewrite <- !Z.mul_assoc, <- !pow2_split by (unfold ez; lia).
    replace (ey - ez + (ez + 298)) with (ey + 298) by lia.
    replace (e - ez + (ez + 298)) with (e + 298) by lia. exact Hlt. }
  destruct (Zpos m * 2 ^ (e - ez) - Zpos my * 2 ^ (ey - ez)) as [|p|p]; try lia.
  unfold binary_normalize.
  destruct (binary_round_eq false p ez) as [mz [ez' [-> [Hez [Hmz _]]]]].
  assert (Hlo : -47 <= ez').
  { rewrite Hez, fexp_eq. pose proof (digits_bounds p).
    assert (0 < Zpos (digits2_pos p)) by lia. unfold ez. lia. }
  pose proof (round_aux_positive (Zpos mz) ez' loc_Exact ltac:(lia) ltac:(lia)) as H.
  destruct (binary_round_aux _ _ _ _ _ _) as [s|[|]| |[|] m' e']; try contradiction;
    try exact I. lia.
Qed.

(** [x / y] is positive for positive [x] and [y] of the size the sketch has. *)
Lemma div_positive (mx my : positive) (ex ey : Z) :
  -47 <= ex -> Zpos my < 2 ^ 24 -> -24 <= ey <= -1 ->
  F.ltb F.zero (F.div (S754_finite false mx ex) (S754_finite false my ey)) = true.
Proof.
  intros Hex Hmy Hey. unfold F.div, SFdiv. cbn [xorb].
  destruct (div_core_spec mx my ex ey) as [q [r [-> [Hq [Hr Hqr]]]]].
  set (e' := Z.min _ (ex - ey)) in *.
  pose proof (digits_bounds mx) as [Hxlo Hxhi].
  pose proof (digits_bounds my) as [Hylo Hyhi].
  set (dx := Zpos (digits2_pos mx)) in *. set (dy := Zpos (digits2_pos my)) in *.
  assert (Hdx : 0 < dx) by (unfold dx; lia).
  assert (Hdy : 0 < dy <= 24).
  { split; [unfold dy; lia|].
    destruct (Z.le_gt_cases dy 24) as [|Hgt]; [assumption|]. exfalso.
    assert (2 ^ 24 <= 2 ^ (dy - 1)) by (apply Z.pow_le_mono_r; lia). lia. }
  assert (He'lo : -149 <= e') by (unfold e'; rewrite fexp_eq; lia).
  assert (He'hi : e' <= dx + ex - (dy + ey) - 24) by (unfold e'; rewrite fexp_eq; lia).
  assert (Hs : 0 <= ex - ey - e') by (unfold e'; lia).
  assert (Hbig : Zpos my <= Zpos mx * 2 ^ (ex - ey - e')).
  { pose proof (pow2_pos (ex - ey - e') Hs) as HPs.
    destruct (Z.le_gt_cases dx (dy + 24)) as [Hle|Hgt].
    - assert (H1 : 2 ^ (dy + 24 - dx) <= 2 ^ (ex - ey - e')) by (apply Z.pow_le_mono_r; lia).
      assert (H2 : 2 ^ (dx - 1) * 2 ^ (dy + 24 - dx) = 2 ^ (dy + 23)).
      { rewrite <- pow2_split by lia. f_equal. lia. }
      assert (H3 : 2 ^ dy <= 2 ^ (dy + 23)) by (apply Z.pow_le_mono_r; lia).
      pose proof (pow2_pos (dy + 24 - dx) ltac:(lia)) as HPt.
      pose proof (pow2_pos (dx - 1) ltac:(lia)) as HPd.
      assert (H4 : 2 ^ (dx - 1) * 2 ^ (dy + 24 - dx) <= Zpos mx * 2 ^ (ex - ey - e')).
      { apply Z.mul_le_mono_nonneg; lia. }
      lia.
    - assert (H1 : 2 ^ dy <= 2 ^ (dx - 1)) by (apply Z.pow_le_mono_r; lia).
      assert (H2 : Zpos mx * 1 <= Zpos mx * 2 ^ (ex - ey - e'))
        by (apply Z.mul_le_mono_nonneg_l; lia).
      lia. }
  assert (Hq0 : 0 < q) by nia.
  apply ltb_positive.
  pose proof (round_aux_positive q e' (new_location (Zpos my) r) Hq0 He'lo) as H.
  destruct (binary_round_aux _ _ _ _ _ _) as [s|[|]| |[|] m' e'']; try contradiction;
    exact I.
Qed.

(** Before half the period the factor of the cross-fade is positive. *)
Lemma factor_inside (delta : Z) (l : Led.t) :
  0 < Led.period l <= C.INT_MAX -> 0 <= delta -> 2 * delta < Led.period l ->
  F.ltb F.zero (Led.factor delta l) = true.
Proof.
  intros Hpd Hd Hin.
  destruct (Z.eq_dec delta 0) as [->|Hd0].
  { now rewrite factor_at_start. }
  unfold Led.factor. pose proof unity_pos as HU.
  destruct (half_period (Led.period l) Hpd) as [m [e [-> [Hm [He Hv]]]]].
  assert (Ha : Z.abs delta < 2 ^ 24) by (unfold C.INT_MAX in Hpd; lia).
  destruct (of_Z_digits delta Hd0 Ha) as [md [ed [Ed [_ Hed]]]].
  destruct (of_Z_exact delta Ha) as [_ Hmag].
  rewrite Ed in *. cbn [mag] in Hmag. rewrite Z.abs_eq in Hmag by lia.
  replace (delta <? 0) with false by (symmetry; apply Z.ltb_ge; lia).
  pose proof (sub_positive m md e ed ltac:(lia) ltac:(lia) ltac:(rewrite Hmag; nia)) as Hs.
  destruct (F.sub _ _) as [s|[|]| |[|] mx ex]; try contradiction.
  - reflexivity.
  - now apply div_positive.
Qed.

(** X13.  The cross-fade lasts exactly the first half of the period: past
    the delay, [update] blends the waveform with [lastValue] while
    [2 * delta < period], and stores the waveform as it is from then on. *)
Theorem cross_fade_lasts_half_the_period :
  forall (delta value : Z) (l : Led.t),
    0 < Led.period l <= C.INT_MAX -> 0 <= delta <= C.INT_MAX ->
    F.ltb F.zero (Led.factor delta l) = (2 * delta <? Led.period l)
    /\ Led.smooth delta value l
       = if 2 * delta <? Led.period l
         then F.to_int (F.add (F.mul (Led.factor delta l) (F.of_Z (Led.lastValue l)))
                              (F.mul (F.sub F.one (Led.factor delta l)) (F.of_Z value)))
         else value.
Proof.
  intros delta value l Hpd Hd.
  assert (H : F.ltb F.zero (Led.factor delta l) = (2 * delta <? Led.period l)).
  { destruct (Z.ltb_spec (2 * delta) (Led.period l)).
    - apply factor_inside; lia.
    - apply factor_outside; lia. }
  split; [exact H|]. unfold Led.smooth. now rewrite H.
Qed.

Lemma cross_fade_lasts_half_the_period_witness :
  let l := Led.mk 3 1000 0 0 LedMode.ramp 0 255 0 100 in
  (0 < Led.period l <= C.INT_MAX /\ 0 <= 499 <= C.INT_MAX)
  /\ F.ltb F.zero (Led.factor 499 l) = true.
Proof.
  intros l.
  assert (H1 : 0 < Led.period l <= C.INT_MAX) by (vm_compute; split; [reflexivity | discriminate]).
  assert (H2 : 0 <= 499 <= C.INT_MAX) by (vm_compute; split; discriminate).
  split; [split; assumption|].
  exact (proj1 (cross_fade_lasts_half_the_period 499 0 l H1 H2)).
Defined.

(** * Further properties: where the sketch waits *)

Lemma waits_update (now : Z) (l : Led.t) : waits 0 (Led.update now l).
Proof.
  intros w. destruct (update_trace now l w) as [-> _].
  destruct (_ =? _); cbn [app waited]; lia.
Qed.

Lemma waits_off (l : Led.t) : waits 0 (Led.off l).
Proof. intros w. rewrite off_run. cbn. lia. Qed.

Lemma waits_on (mx : Z) (l : Led.t) : waits 0 (Led.on mx l).
Proof. intros w. rewrite on_run. cbn. lia. Qed.

Lemma waits_rampTo (mx pd d : Z) (l : Led.t) : waits 0 (Led.rampTo mx pd d l).
Proof. intros w. rewrite rampTo_run. now rewrite waits_update. Qed.

Lemma waits_startSinusoid (pd mn mx ph : Z) (l : Led.t) :
  waits 0 (Led.startSinusoid pd mn mx ph l).
Proof. intros w. rewrite startSinusoid_run. now rewrite waits_update. Qed.

Lemma waits_startFlicker (mn mx d : Z) (l : Led.t) : waits 0 (Led.startFlicker mn mx d l).
Proof. intros w. cbn. lia. Qed.

Lemma waits_init (l : Led.t) : waits 250 (Led.init l).
Proof. intros w. rewrite init_run. cbn [snd trace waited]. lia. Qed.

Lemma waits_each (c1 c2 c3 : Z) (f1 f2 f3 : Led.t -> State World Led.t) (e : Engine.t) :
  (forall l, waits c1 (f1 l)) -> (forall l, waits c2 (f2 l)) -> (forall l, waits c3 (f3 l)) ->
  waits (c1 + c2 + c3) (Engine.each f1 f2 f3 e).
Proof.
  intros H1 H2 H3 w. unfold Engine.each. rewrite !bind_run. cbn [ret snd].
  rewrite H3, H2, H1. lia.
Qed.

Lemma waits_engine_setup (e : Engine.t) : waits 750 (Engine.setup e).
Proof. apply (waits_each 250 250 250); apply waits_init. Qed.

Lemma waits_engine_loop (now : Z) (e : Engine.t) : waits 0 (Engine.loop now e).
Proof. apply (waits_each 0 0 0); intros l; apply waits_update. Qed.

Lemma waits_engine_newState (st : EngineState.t) (e : Engine.t) :
  waits 0 (Engine.newState st e).
Proof.
  unfold Engine.newState. cbv zeta.
  destruct st; apply (waits_each 0 0 0); intros l;
    match goal with
    | |- waits _ (Led.off _) => apply waits_off
    | |- waits _ (Led.rampTo _ _ _ _) => apply waits_rampTo
    | |- waits _ (Led.startSinusoid _ _ _ _ _) => apply waits_startSinusoid
    | |- waits _ (Led.startFlicker _ _ _ _) => apply waits_startFlicker
    end.
Qed.

Lemma waits_quiet {A : Type} (m : State World A) : quiet m -> waits 0 m.
Proof. intros H w. destruct (H w) as [-> _]. lia. Qed.

Lemma blocks_ret {A : Type} (a : A) : blocks 0 (ret a).
Proof. intros s. cbn. lia. Qed.

Lemma blocks_get {A : Type} (f : Sketch -> A) : blocks 0 (get f).
Proof. intros s. cbn. lia. Qed.

Lemma blocks_modify (f : Sketch -> Sketch) : blocks 0 (modify f).
Proof. intros s. cbn. lia. Qed.

Lemma blocks_lift {A : Type} (c : Z) (m : State World A) : waits c m -> blocks c (lift m).
Proof. intros H s. rewrite lift_run. cbn [snd]. apply H. Qed.

Lemma blocks_call {T : Type} (c : Z) (rd : Sketch -> T) (wr : T -> Sketch -> Sketch)
    (method : T -> State World T) :
  (forall v, waits c (method v)) -> blocks c (call rd wr method).
Proof. intros H s. rewrite call_run. cbn [snd]. apply H. Qed.

Lemma blocks_bind {A B : Type} (c1 c2 : Z) (m : Prog A) (k : A -> Prog B) :
  blocks c1 m -> (forall a, blocks c2 (k a)) -> blocks (c1 + c2) (bind m k).
Proof. intros Hm Hk s. rewrite bind_run, Hk, Hm. lia. Qed.

Lemma blocks_bind_0 {A B : Type} (m : Prog A) (k : A -> Prog B) :
  blocks 0 m -> (forall a, blocks 0 (k a)) -> blocks 0 (bind m k).
Proof. intros Hm Hk. now apply (blocks_bind 0 0). Qed.

Ltac waits_led :=
  intros ?;
  match goal with
  | |- waits _ (Led.init _) => apply waits_init
  | |- waits _ (Led.off _) => apply waits_off
  | |- waits _ (Led.update _ _) => apply waits_update
  | |- waits _ (Led.on _ _) => apply waits_on
  | |- waits _ (Led.rampTo _ _ _ _) => apply waits_rampTo
  | |- waits _ (Led.startSinusoid _ _ _ _ _) => apply waits_startSinusoid
  | |- waits _ (Led.startFlicker _ _ _ _) => apply waits_startFlicker
  | |- waits _ (Engine.newState _ _) => apply waits_engine_newState
  | |- waits _ (Engine.loop _ _) => apply waits_engine_loop
  | |- waits _ (Engine.setup _) => apply waits_engine_setup
  end.

Ltac blocks_0 :=
  repeat match goal with
         | |- blocks 0 (bind _ _) => apply blocks_bind_0; [|intros ?]
         | |- blocks 0 (ret _) => apply blocks_ret
         | |- blocks 0 (get _) => apply blocks_get
         | |- blocks 0 (modify _) => apply blocks_modify
         | |- blocks 0 (lift Arduino.millis) => apply blocks_lift, waits_quiet, quiet_millis
         | |- blocks 0 (lift (Arduino.random _)) => apply blocks_lift, waits_quiet, quiet_random
         | |- blocks 0 (lift (Arduino.random2 _ _)) =>
             apply blocks_lift, waits_quiet, quiet_random2
         | |- blocks 0 (on_cockpit _) => apply blocks_call; waits_led
         | |- blocks 0 (on_headlights _) => apply blocks_call; waits_led
         | |- blocks 0 (on_landingLights _) => apply blocks_call; waits_led
         | |- blocks 0 (on_engine _) => apply blocks_call; waits_led
         | |- blocks 0 (if ?b then _ else _) => destruct b
         end.

Lemma blocks_drawStartFailure : blocks 0 drawStartFailure.
Proof. unfold drawStartFailure. blocks_0. Qed.

Lemma blocks_nextFalconState (st : FalconState) : blocks 0 (nextFalconState st).
Proof.
  unfold nextFalconState. apply blocks_bind_0; [apply blocks_modify | intros ?].
  destruct st; repeat first [apply blocks_drawStartFailure | progress blocks_0].
Qed.

Lemma blocks_loop : blocks 0 loop.
Proof. unfold loop. repeat first [apply blocks_nextFalconState | progress blocks_0]. Qed.

Lemma blocks_rounds (n : nat) : blocks 0 (rounds n).
Proof.
  induction n as [|n IH]; cbn [rounds]; [apply blocks_ret|].
  apply blocks_bind_0; [apply blocks_loop | intros ?; exact IH].
Qed.

Lemma blocks_setup : blocks 1500 setup.
Proof.
  unfold setup.
  apply (blocks_bind 750 750); [apply blocks_call; waits_led | intros ?].
  apply (blocks_bind 250 500); [apply blocks_call; waits_led | intros ?].
  apply (blocks_bind 250 250); [apply blocks_call; waits_led | intros ?].
  apply (blocks_bind 250 0); [apply blocks_call; waits_led | intros ?].
  repeat first [apply blocks_nextFalconState | progress blocks_0].
Qed.

(** X14.  The sketch waits in [setup()] only: the six calls of [init]
    spend 250 ms each in [delay()], 1500 ms in all, and [loop()], with the
    transitions of the narrative and every operation of the LEDs it runs,
    never calls [delay()]. *)
Theorem sketch_waits_in_setup_only :
  (forall s : Sketch * World,
      waited (trace (snd (snd (loop s)))) = waited (trace (snd s)))
  /\ (forall (st : FalconState) (s : Sketch * World),
        waited (trace (snd (snd (nextFalconState st s)))) = waited (trace (snd s)))
  /\ (forall (s : Sketch * World) (n : nat),
        waited (trace (snd (snd (sketch n s)))) = waited (trace (snd s)) + 1500).
Proof.
  split; [|split].
  - intros s. rewrite blocks_loop. lia.
  - intros st s. rewrite blocks_nextFalconState. lia.
  - intros s n. unfold sketch.
    rewrite (blocks_bind 1500 0 setup (fun _ => rounds n) blocks_setup
               (fun _ => blocks_rounds n)). lia.
Qed.
